(** * Page discovery, scoring and aggregation of the accessibility scanner

    A shallow embedding of the control logic of
    - [src/page-discovery.js]   (class [PageDiscovery]),
    - [src/scanner-service.js]  ([calculateScore], [getAxeTags],
                                 [processViolations]),
    - the action entry point    ([discoverPages], [executeScans],
                                 [aggregateResults], [aggregateRemediationPlan],
                                 [deduplicateIssues], [evaluateSuccess]),
    followed by the properties the specification states about them and
    further properties of the code.

    Conventions of the embedding.
    - A JavaScript string is a [string]: a sequence of code units, compared
      code unit by code unit as [Array.prototype.sort] does by default.
    - Integer-valued JavaScript numbers (array lengths, counts, scores, page
      budgets) are [Z], which is exact for binary64 below 2^53; a number that
      may be [undefined], [null] or [NaN] is an [option Z].  [x || y] on such
      a number is [js_or]: [0] and the absent value are falsy.
    - The one place where a fractional binary64 value is formed and multiplied,
      the score formula of [calculateScore], is evaluated in binary64 with the
      operations of [SpecFloat].
    - An object literal used as a lookup table is the finite map of its own
      keys together with the properties it inherits from [Object.prototype]:
      a read finds an own key, an inherited method or the accessor
      [__proto__], or nothing; a write to a name that is not yet an own key
      creates one, except for [__proto__]. *)

From Stdlib Require Import ZArith Lia Bool Ascii String.
From Stdlib Require Import Floats.SpecFloat.
From Stdlib Require Import Reals Lra.
From stdpp Require Import base decidable option list strings gmap sets sorting.

Local Open Scope string_scope.
Local Open Scope Z_scope.
Local Open Scope list_scope.

(** ** JavaScript primitives used by the sources *)

Module JS.

(** [x || y] for numbers: [undefined], [null], [NaN] (all [None]) and [0]
    are falsy. *)
Definition truthy (x : option Z) : bool :=
  match x with
  | Some n => negb (n =? 0)
  | None => false
  end.

Definition js_or (x : option Z) (y : Z) : Z :=
  match x with
  | Some n => if n =? 0 then y else n
  | None => y
  end.

(** [Math.round(a / b)] for integers [a] and [b > 0]: the nearest integer,
    halves rounded towards +infinity.  For operands below 2^52 the binary64
    quotient lies on the same side of every half-integer as the exact one
    (they differ from a half-integer by at least 1/(2b)), so the result is
    exact. *)
Definition round_div (a b : Z) : Z := (2 * a + b) / (2 * b).

(** [arr.slice(0, end)]: a negative [end] counts from the back. *)
Definition slice_to {A} (l : list A) (e : Z) : list A :=
  if e <? 0 then take (Z.to_nat (Z.of_nat (length l) + e)) l
  else take (Z.to_nat e) l.

(** [arr.indexOf(x)], [-1] when absent. *)
Fixpoint indexOf (x : string) (l : list string) : Z :=
  match l with
  | [] => -1
  | y :: l' =>
      if String.eqb y x then 0
      else let i := indexOf x l' in if i <? 0 then -1 else i + 1
  end.

(** [arr.includes(x)]. *)
Definition includes (x : string) (l : list string) : bool :=
  existsb (String.eqb x) l.

(** *** Reading a property of an object literal

    [obj[k]] finds the own keys of [obj] first and then what every object
    inherits from [Object.prototype]: eleven methods and the accessor
    [__proto__]. *)
Definition inheritedMethods : list string :=
  ["constructor"; "hasOwnProperty"; "isPrototypeOf"; "propertyIsEnumerable";
   "toLocaleString"; "toString"; "valueOf";
   "__defineGetter__"; "__defineSetter__"; "__lookupGetter__"; "__lookupSetter__"].

Definition isInherited (k : string) : bool :=
  includes k inheritedMethods || String.eqb k "__proto__".

(** What [obj[k]] yields on an object literal whose own values are numbers:
    a number, an inherited function or object, or [undefined]. *)
Inductive Read :=
  | Number (n : Z)
  | Inherited
  | Undefined.

Definition get (obj : gmap string Z) (k : string) : Read :=
  match obj !! k with
  | Some n => Number n
  | None => if isInherited k then Inherited else Undefined
  end.

(** [r || d]: a function or object is truthy. *)
Definition read_or (r : Read) (d : Z) : Read :=
  match r with
  | Number n => if n =? 0 then Number d else Number n
  | Inherited => Inherited
  | Undefined => Number d
  end.

(** Integer Numbers with NaN ([None]).  [r * n] is NaN when [r] is a
    function or an object; a sum with NaN is NaN. *)
Definition times (r : Read) (n : Z) : option Z :=
  match r with
  | Number m => Some (m * n)
  | _ => None
  end.

Definition plus (a b : option Z) : option Z :=
  match a, b with
  | Some x, Some y => Some (x + y)
  | _, _ => None
  end.

(** [s.startsWith('/')] and [s.endsWith('/')]. *)
Definition startsWith_slash (s : string) : bool :=
  match s with
  | String c _ => Ascii.eqb c "/"%char
  | EmptyString => false
  end.

Fixpoint endsWith_slash (s : string) : bool :=
  match s with
  | EmptyString => false
  | String c EmptyString => Ascii.eqb c "/"%char
  | String _ s' => endsWith_slash s'
  end.

(** [s.slice(0, -1)]. *)
Fixpoint drop_last (s : string) : string :=
  match s with
  | EmptyString => EmptyString
  | String _ EmptyString => EmptyString
  | String c s' => String c (drop_last s')
  end.

(** [s.split(/[?#]/)[0]]: the part before the first ['?'] or ['#']. *)
Fixpoint before_query (s : string) : string :=
  match s with
  | EmptyString => EmptyString
  | String c s' =>
      if Ascii.eqb c "?"%char || Ascii.eqb c "#"%char then EmptyString
      else String c (before_query s')
  end.

(** A [Set] of strings keeps insertion order; [Array.from] lists it so. *)
Definition set_add (x : string) (s : list string) : list string :=
  if includes x s then s else s ++ [x].

(** [arr.sort()] with the default comparison: ascending code-unit order.
    The order is total, so the result does not depend on the algorithm. *)
Fixpoint sort_insert (x : string) (l : list string) : list string :=
  match l with
  | [] => [x]
  | y :: l' => if String.leb x y then x :: l else y :: sort_insert x l'
  end.

Definition sort (l : list string) : list string :=
  foldr sort_insert [] l.

(** [arr.splice(i, 1)] for an index [i] of the array. *)
Definition splice1 {A} (i : Z) (l : list A) : list A :=
  take (Z.to_nat i) l ++ drop (S (Z.to_nat i)) l.

(** *** binary64 numbers *)

Definition prec : Z := 53.
Definition emax : Z := 1024.

(** The Number with the integer value [z] (exact for [|z| <= 2^53]). *)
Definition of_Z (z : Z) : spec_float := binary_normalize prec emax z 0 false.

(** The Number for an integer or NaN. *)
Definition of_number (x : option Z) : spec_float :=
  match x with
  | Some z => of_Z z
  | None => S754_nan
  end.

Definition div (x y : spec_float) : spec_float := SFdiv prec emax x y.
Definition mul (x y : spec_float) : spec_float := SFmul prec emax x y.

(** [Math.round(x)]: the integer nearest to [x], halves towards +infinity;
    a zero result keeps the sign of [x]; infinities and NaN are returned
    unchanged. *)
Definition round_value (s : bool) (m : positive) (e : Z) : Z :=
  let sm := if s then Z.neg m else Z.pos m in
  if 0 <=? e then sm * 2 ^ e
  else (2 * sm + 2 ^ (- e)) / (2 * 2 ^ (- e)).

Definition Math_round (x : spec_float) : spec_float :=
  match x with
  | S754_finite s m e =>
      let z := round_value s m e in
      if z =? 0 then S754_zero s else of_Z z
  | _ => x
  end.

(** [Math.min(a, b)] and [Math.max(a, b)]: NaN if either is NaN, and
    [-0] below [+0]. *)
Definition Math_min (a b : spec_float) : spec_float :=
  match SFcompare a b with
  | None => S754_nan
  | Some Lt => a
  | Some Gt => b
  | Some Eq => match a with S754_zero true => a | _ => b end
  end.

Definition Math_max (a b : spec_float) : spec_float :=
  match SFcompare a b with
  | None => S754_nan
  | Some Lt => b
  | Some Gt => a
  | Some Eq => match a with S754_zero false => a | _ => b end
  end.

End JS.

(** ** [src/page-discovery.js] *)

Module PageDiscovery.

(** The constructor's [config]; only [maxPages] matters here. *)
Record Config := { config_maxPages : option Z }.

(** [this.maxPages = config.maxPages || 10]. *)
Definition maxPages (config : Config) : Z :=
  JS.js_or (config_maxPages config) 10.

(** One round of the loop of [normalizePaths]; an empty string is falsy and
    skipped. *)
Definition normalizePath (path : string) : option string :=
  if String.eqb path "" then None
  else
    let normalizedPath :=
      if JS.startsWith_slash path then path else "/" +:+ path in
    let normalizedPath :=
      if negb (String.eqb normalizedPath "/") && JS.endsWith_slash normalizedPath
      then JS.drop_last normalizedPath
      else normalizedPath in
    Some (JS.before_query normalizedPath).

Definition normalizedSet (paths : list string) : list string :=
  fold_left
    (fun normalized path =>
       match normalizePath path with
       | Some p => JS.set_add p normalized
       | None => normalized
       end)
    paths [].

Definition normalizePaths (paths : list string) : list string :=
  let result := JS.sort (normalizedSet paths) in
  let rootIndex := JS.indexOf "/" result in
  if 0 <? rootIndex then "/" :: JS.splice1 rootIndex result
  else result.

(** *** Outcomes of the asynchronous methods

    A call returns a value, throws, or is still running when the budget of
    loop rounds / nested calls given to the model is used up. *)
Inductive Outcome (A : Type) : Type :=
  | Returns (a : A)
  | Throws
  | OutOfFuel.
Arguments Returns {A} a.
Arguments Throws {A}.
Arguments OutOfFuel {A}.

(** The [options] argument of [discoverPages]. [paths] is a string, an array
    of strings, or absent. *)
Inductive PathsInput :=
  | PathsString (s : string)
  | PathsArray (l : list string).

Record Options := {
  options_maxPages : option Z;
  options_startPaths : option (list string);
  options_paths : option PathsInput
}.

(** *** Sitemaps ([discoverFromSitemap], [parseSitemap]) *)

(** A [<loc>] of a [urlset] entry: absent or empty, rejected by [new URL],
    or a URL with its hostname and pathname. *)
Inductive Loc :=
  | LocMissing
  | LocInvalid
  | LocUrl (hostname pathname : string).

(** What [xml2js] makes of a document: [result.urlset.url] and
    [result.sitemapindex.sitemap], each possibly absent; a child entry is its
    [loc[0]] when present and non-empty. *)
Record SitemapXml := {
  urlset : option (list Loc);
  sitemapindex : option (list (option string))
}.

Inductive Body :=
  | Unparsable
  | Parsed (x : SitemapXml).

(** [fetch(url)] rejects, or resolves to a response with [ok] and a body. *)
Inductive Response :=
  | NetworkError
  | Status (ok : bool) (body : Body).

Definition Web := string -> Response.

(** The loop over [result.urlset.url]; [None] when [new URL] throws. *)
Fixpoint urlsetPages (host : string) (entries : list Loc) : option (list string) :=
  match entries with
  | [] => Some []
  | LocMissing :: rest => urlsetPages host rest
  | LocInvalid :: _ => None
  | LocUrl h p :: rest =>
      match urlsetPages host rest with
      | Some pages => Some (if String.eqb h host then p :: pages else pages)
      | None => None
      end
  end.

(** [parseSitemap(sitemapXml, baseUrl)].  [depth] bounds the nesting of
    calls the model follows; the source has no such parameter.  [baseHost]
    is the hostname of [new URL(baseUrl)], [None] when that throws.  A child
    that throws is caught and skipped. *)
Fixpoint parseSitemap (depth : nat) (web : Web) (baseHost : option string)
    (sitemapXml : Body) : Outcome (list string) :=
  match depth with
  | O => OutOfFuel
  | S depth' =>
      match sitemapXml, baseHost with
      | Unparsable, _ => Throws
      | Parsed _, None => Throws
      | Parsed result, Some host =>
          match urlsetPages host (default [] (urlset result)) with
          | None => Throws
          | Some pages =>
              (fix children (entries : list (option string)) (pages : list string)
                 : Outcome (list string) :=
                 match entries with
                 | [] => Returns pages
                 | None :: rest => children rest pages
                 | Some childSitemapUrl :: rest =>
                     match web childSitemapUrl with
                     | Status true childSitemapXml =>
                         match parseSitemap depth' web baseHost childSitemapXml with
                         | Returns childPages => children rest (pages ++ childPages)
                         | Throws => children rest pages
                         | OutOfFuel => OutOfFuel
                         end
                     | _ => children rest pages
                     end
                 end) (default [] (sitemapindex result)) pages
          end
      end
  end.

Definition sitemapUrls : list string :=
  ["/sitemap.xml"; "/sitemap_index.xml"; "/sitemap/sitemap.xml"; "/sitemaps/sitemap.xml"].

(** The loop of [discoverFromSitemap] over the candidate locations. *)
Fixpoint trySitemaps (depth : nat) (web : Web) (baseUrl : string)
    (baseHost : option string) (candidates : list string) : Outcome (list string) :=
  match candidates with
  | [] => Throws
  | sitemapPath :: rest =>
      match web (baseUrl +:+ sitemapPath) with
      | Status true sitemapXml =>
          match parseSitemap depth web baseHost sitemapXml with
          | Returns pages =>
              if 0 <? Z.of_nat (length pages) then Returns pages
              else trySitemaps depth web baseUrl baseHost rest
          | Throws => trySitemaps depth web baseUrl baseHost rest
          | OutOfFuel => OutOfFuel
          end
      | _ => trySitemaps depth web baseUrl baseHost rest
      end
  end.

Definition discoverFromSitemap (depth : nat) (web : Web) (baseUrl : string)
    (baseHost : option string) : Outcome (list string) :=
  trySitemaps depth web baseUrl baseHost sitemapUrls.

(** *** Crawling ([discoverByCrawling]) *)

(** [this.visited], [this.discovered] and the local queue [toVisit]. *)
Record CrawlState := {
  visited : gset string;
  discovered : list string;
  toVisit : list string
}.

(** The inner loop pushing the links of a page that are neither visited nor
    queued. *)
Definition enqueue (visited : gset string) (toVisit links : list string) : list string :=
  fold_left
    (fun queue link =>
       if bool_decide (link ∈ visited) || JS.includes link queue then queue
       else queue ++ [link])
    links toVisit.

(** The test of the [while] loop. *)
Definition crawlGuard (maxPages : Z) (st : CrawlState) : bool :=
  (0 <? Z.of_nat (length (toVisit st)))
  && (Z.of_nat (length (discovered st)) <? maxPages).

(** One round of the [while] loop.  [links path] is what
    [extractLinksFromPage] returns for the page at [path] (it never throws). *)
Definition crawlStep (links : string -> list string) (st : CrawlState) : CrawlState :=
  match toVisit st with
  | [] => st
  | path :: rest =>
      if bool_decide (path ∈ visited st) then
        {| visited := visited st; discovered := discovered st; toVisit := rest |}
      else
        let visited' := {[path]} ∪ visited st in
        {| visited := visited';
           discovered := discovered st ++ [path];
           toVisit := enqueue visited' rest (links path) |}
  end.

Fixpoint crawlLoop (fuel : nat) (links : string -> list string) (maxPages : Z)
    (st : CrawlState) : option CrawlState :=
  if crawlGuard maxPages st then
    match fuel with
    | O => None
    | S fuel' => crawlLoop fuel' links maxPages (crawlStep links st)
    end
  else Some st.

(** [options.maxPages || this.maxPages], the configured page budget. *)
Definition pageBudget (config : Config) (options : Options) : Z :=
  JS.js_or (options_maxPages options) (maxPages config).

Definition crawlInit (options : Options) : CrawlState :=
  {| visited := ∅; discovered := [];
     toVisit := default ["/"] (options_startPaths options) |}.

Definition discoverByCrawling (fuel : nat) (config : Config)
    (links : string -> list string) (baseHost : option string)
    (options : Options) : Outcome (list string) :=
  let maxPages := Z.min (pageBudget config options) 50 in
  match baseHost with
  | None => Throws
  | Some _ =>
      match crawlLoop fuel links maxPages (crawlInit options) with
      | Some st => Returns (discovered st)
      | None => OutOfFuel
      end
  end.

(** *** Manual paths ([parseManualPaths]) *)

Definition newline : ascii := ascii_of_nat 10.

(** White space removed by [trim], among 8-bit code units. *)
Definition isWhiteSpace (c : ascii) : bool :=
  let n := nat_of_ascii c in
  ((9 <=? n) && (n <=? 13))%nat || (n =? 32)%nat || (n =? 160)%nat.

(** [s.split('\n')]. *)
Fixpoint splitLines (s : string) : list string :=
  match s with
  | EmptyString => [""]
  | String c s' =>
      if Ascii.eqb c newline then "" :: splitLines s'
      else
        match splitLines s' with
        | line :: lines => String c line :: lines
        | [] => [String c ""]
        end
  end.

Fixpoint trimStart (s : string) : string :=
  match s with
  | String c s' => if isWhiteSpace c then trimStart s' else s
  | EmptyString => EmptyString
  end.

Fixpoint trimEnd (s : string) : string :=
  match s with
  | EmptyString => EmptyString
  | String c s' =>
      match trimEnd s' with
      | EmptyString => if isWhiteSpace c then EmptyString else String c EmptyString
      | t => String c t
      end
  end.

Definition trim (s : string) : string := trimEnd (trimStart s).

Definition startsWith_hash (s : string) : bool :=
  match s with
  | String c _ => Ascii.eqb c "#"%char
  | EmptyString => false
  end.

Definition nonEmpty (s : string) : bool := negb (String.eqb s "").

(** [parseManualPaths(options.paths || [])]: an absent or empty-string input
    is replaced by the empty array. *)
Definition parseManualPaths (pathsInput : option PathsInput) : list string :=
  match pathsInput with
  | Some (PathsString s) =>
      if nonEmpty s then
        List.filter (fun path => nonEmpty path && negb (startsWith_hash path))
          (map trim (splitLines s))
      else []
  | Some (PathsArray l) => List.filter nonEmpty l
  | None => []
  end.

(** *** The coordinator ([discoverPages]) *)

(** [strategy.toLowerCase()] on the letters A-Z, which decides the
    comparison with the four strategy names. *)
Definition lowerAscii (c : ascii) : ascii :=
  let n := nat_of_ascii c in
  if ((65 <=? n) && (n <=? 90))%nat then ascii_of_nat (n + 32) else c.

Fixpoint toLowerCase (s : string) : string :=
  match s with
  | EmptyString => EmptyString
  | String c s' => String (lowerAscii c) (toLowerCase s')
  end.

(** What the run can observe of the site under test. *)
Record Site := {
  site_baseUrl : string;
  site_baseHost : option string;
  site_web : Web;
  site_links : string -> list string
}.

(** The [switch] over the strategy. *)
Definition strategyPages (fuel : nat) (config : Config) (site : Site)
    (strategy : string) (options : Options) : Outcome (list string) :=
  let s := toLowerCase strategy in
  if String.eqb s "single" then Returns ["/"]
  else if String.eqb s "sitemap" then
    discoverFromSitemap fuel (site_web site) (site_baseUrl site) (site_baseHost site)
  else if String.eqb s "crawl" then
    discoverByCrawling fuel config (site_links site) (site_baseHost site) options
  else if String.eqb s "paths" then Returns (parseManualPaths (options_paths options))
  else Returns ["/"].

(** The page limit applied after normalisation. *)
Definition limitPages (config : Config) (pages : list string) : list string :=
  if maxPages config <? Z.of_nat (length pages)
  then JS.slice_to pages (maxPages config)
  else pages.

Definition discoverPages (fuel : nat) (config : Config) (site : Site)
    (strategy : string) (options : Options) : Outcome (list string) :=
  match strategyPages fuel config site strategy options with
  | Returns pages => Returns (limitPages config (normalizePaths pages))
  | Throws => Returns ["/"]
  | OutOfFuel => OutOfFuel
  end.

End PageDiscovery.


(** ** [src/scanner-service.js] *)

Module ScannerService.

(** A rule result of the rule engine (a violation or a pass): the property
    key its [impact] converts to, and its matched nodes. *)
Record AxeNode := { html : string; target : string; failureSummary : string }.

Record AxeRule := {
  impact : string;
  nodes : list AxeNode
}.

Record AxeResults := {
  passes : list AxeRule;
  violations : list AxeRule
}.

(** The table [{critical: 4, serious: 3, moderate: 2, minor: 1}]. *)
Definition impactWeights : gmap string Z :=
  {[ "critical" := 4; "serious" := 3; "moderate" := 2; "minor" := 1 ]}.

(** The [forEach] accumulating [weightedViolations].  The weight is read
    off an object literal, so an impact that names an inherited property
    reads a function or object: it is truthy, its product with the node
    count is NaN, and so is the sum from then on. *)
Definition weighViolations (violations : list AxeRule) : option Z :=
  fold_left
    (fun weightedViolations violation =>
       let impactWeight := JS.read_or (JS.get impactWeights (impact violation)) 1 in
       JS.plus weightedViolations
         (JS.times impactWeight (Z.of_nat (length (nodes violation)))))
    violations (Some 0).

Definition calculateScore (results : AxeResults) : spec_float :=
  let totalTests :=
    Z.of_nat (length (passes results)) + Z.of_nat (length (violations results)) in
  if totalTests =? 0 then JS.of_Z 100
  else
    let weightedViolations := weighViolations (violations results) in
    let maxPossibleWeight := totalTests * 4 in
    let score :=
      JS.Math_round
        (JS.mul
           (JS.div (JS.of_number ((fun w => maxPossibleWeight - w) <$> weightedViolations))
                   (JS.of_Z maxPossibleWeight))
           (JS.of_Z 100)) in
    JS.Math_max (JS.of_Z 0) (JS.Math_min (JS.of_Z 100) score).

End ScannerService.

(** ** The action entry point ([class AdaAccessibilityAction]) *)

Module Action.

(** A scan result as the scanner returns it (or as the failure branch of the
    scanning loop builds it).  Only the fields the aggregation reads are
    kept; of the business-impact roll-up only the risk fields are modelled
    (in [ActionRun]). *)
Record Summary := {
  summary_score : Z;
  violationCount : Z;
  passCount : Z
}.

Record ViolationNode := { node_html : string; node_target : string }.

Record Violation := {
  impact : string;
  nodeCount : option Z;
  nodes : option (list ViolationNode)
}.

Record Issue := {
  title : string;
  description : string;
  effortClass : string
}.

Record EstimatedEffort := {
  quickFixes : option Z;
  mediumFixes : option Z;
  complexFixes : option Z
}.

Record RemediationPlan := {
  estimatedEffort : option EstimatedEffort;
  priority1 : option (list Issue)
}.

Record BusinessImpact := {
  riskLevel : option string;
  userImpactPercentage : option Z
}.

Record EnhancedAnalysis := {
  enhancedScore : option Z;
  businessImpact : option BusinessImpact;
  remediationPlan : option RemediationPlan
}.

Record ScanResult := {
  url : string;
  status : string;
  summary : Summary;
  violations : list Violation;
  enhancedAnalysis : option EnhancedAnalysis
}.

Definition isCompleted (r : ScanResult) : bool := String.eqb (status r) "completed".
Definition isFailed (r : ScanResult) : bool := String.eqb (status r) "failed".

(** [r.enhancedAnalysis?.enhancedScore || r.summary.score]. *)
Definition effectiveScore (r : ScanResult) : Z :=
  JS.js_or (enhancedAnalysis r ≫= enhancedScore) (summary_score (summary r)).

(** [violation.nodeCount || violation.nodes?.length || 1]. *)
Definition affectedNodes (v : Violation) : Z :=
  JS.js_or (nodeCount v)
    (JS.js_or ((fun l => Z.of_nat (length l)) <$> nodes v) 1).

(** A value of the histogram object: a count, or the string that [+=]
    leaves when what it read was not a number (the text of the string is
    not modelled). *)
Inductive Cell :=
  | Count (n : Z)
  | Text.

(** The guarded update of the histogram for one violation, on the own keys
    of the object.  An own count grows by the affected nodes; an own string
    stays a string.  Where the impact is no own key but names an inherited
    method, the read is a function, which is not [undefined]: [+=]
    concatenates it with the number and the assignment creates an own key
    holding that string.  For [__proto__] the read is [Object.prototype],
    but the assignment reaches the inherited setter, which ignores a
    string.  Any other impact reads [undefined] and is skipped. *)
Definition countViolation (violationsBySeverity : gmap string Cell) (violation : Violation)
    : gmap string Cell :=
  match violationsBySeverity !! impact violation with
  | Some (Count n) =>
      <[impact violation := Count (n + affectedNodes violation)]> violationsBySeverity
  | Some Text => <[impact violation := Text]> violationsBySeverity
  | None =>
      if JS.includes (impact violation) JS.inheritedMethods
      then <[impact violation := Text]> violationsBySeverity
      else violationsBySeverity
  end.

Definition emptyHistogram : gmap string Cell :=
  {[ "critical" := Count 0; "serious" := Count 0; "moderate" := Count 0;
     "minor" := Count 0 ]}.

Definition groupBySeverity (completedScans : list ScanResult) : gmap string Cell :=
  fold_left
    (fun h scan => fold_left countViolation (violations scan) h)
    completedScans emptyHistogram.

(** [deduplicateIssues]. *)
Definition issueKey (issue : Issue) : string := title issue +:+ description issue.

Definition dedupStep (acc : list Issue * gset string) (issue : Issue)
    : list Issue * gset string :=
  let '(unique, seen) := acc in
  let key := issueKey issue in
  if bool_decide (key ∈ seen) then (unique, seen)
  else (unique ++ [issue], {[key]} ∪ seen).

Definition deduplicateIssues (issues : list Issue) : list Issue :=
  JS.slice_to (fst (fold_left dedupStep issues ([], ∅))) 5.

(** [aggregateRemediationPlan]. *)
Record AggregatedPlan := {
  totalQuickFixes : Z;
  totalMediumFixes : Z;
  totalComplexFixes : Z;
  topPriority1Issues : list Issue;
  estimatedTotalHours : Z
}.

Definition hasAnalysis (scan : ScanResult) : bool :=
  match enhancedAnalysis scan with Some _ => true | None => false end.

(** The [forEach] over the annotated scans, on one scan. *)
Definition planStep (plan : AggregatedPlan) (scan : ScanResult) : AggregatedPlan :=
  let plan_ := enhancedAnalysis scan ≫= remediationPlan in
  let plan' :=
    match plan_ ≫= estimatedEffort with
    | Some effort =>
        {| totalQuickFixes := totalQuickFixes plan + JS.js_or (quickFixes effort) 0;
           totalMediumFixes := totalMediumFixes plan + JS.js_or (mediumFixes effort) 0;
           totalComplexFixes := totalComplexFixes plan + JS.js_or (complexFixes effort) 0;
           topPriority1Issues := topPriority1Issues plan;
           estimatedTotalHours := estimatedTotalHours plan |}
    | None => plan
    end in
  {| totalQuickFixes := totalQuickFixes plan';
     totalMediumFixes := totalMediumFixes plan';
     totalComplexFixes := totalComplexFixes plan';
     topPriority1Issues :=
       topPriority1Issues plan' ++ default [] (plan_ ≫= priority1);
     estimatedTotalHours := estimatedTotalHours plan' |}.

Definition aggregateRemediationPlan (completedScans : list ScanResult)
    : option AggregatedPlan :=
  let scansWithAnalysis := List.filter hasAnalysis completedScans in
  if (Z.of_nat (length scansWithAnalysis) =? 0) then None
  else
    let plan :=
      fold_left planStep scansWithAnalysis
        {| totalQuickFixes := 0; totalMediumFixes := 0; totalComplexFixes := 0;
           topPriority1Issues := []; estimatedTotalHours := 0 |} in
    Some
      {| totalQuickFixes := totalQuickFixes plan;
         totalMediumFixes := totalMediumFixes plan;
         totalComplexFixes := totalComplexFixes plan;
         topPriority1Issues := deduplicateIssues (topPriority1Issues plan);
         (* Math.round(q * 0.5 + m * 4 + c * 16): an exact multiple of 1/2 *)
         estimatedTotalHours :=
           JS.round_div
             (totalQuickFixes plan + 8 * totalMediumFixes plan
              + 32 * totalComplexFixes plan) 2 |}.

(** [aggregateResults]. *)
Record PageAnalysis := {
  page_riskLevel : option string;
  page_userImpactPercentage : option Z;
  priority1Fixes : Z
}.

Record PageResult := {
  page_url : string;
  page_status : string;
  page_score : Z;
  basicScore : Z;
  page_violations : Z;
  page_enhancedAnalysis : option PageAnalysis
}.

Record AggregateReport := {
  totalScans : Z;
  completedScans : Z;
  failedScans : Z;
  score : Z;
  totalViolations : Z;
  totalPasses : Z;
  violationsBySeverity : gmap string Cell;
  hasEnhancedAnalysis : bool;
  remediationPlan_ : option AggregatedPlan;
  pageResults : list PageResult
}.

Definition pageResult (r : ScanResult) : PageResult :=
  {| page_url := url r;
     page_status := status r;
     page_score :=
       JS.js_or (enhancedAnalysis r ≫= enhancedScore)
         (JS.js_or (Some (summary_score (summary r))) 0);
     basicScore := JS.js_or (Some (summary_score (summary r))) 0;
     page_violations := JS.js_or (Some (violationCount (summary r))) 0;
     page_enhancedAnalysis :=
       (fun a =>
          {| page_riskLevel := businessImpact a ≫= riskLevel;
             page_userImpactPercentage := businessImpact a ≫= userImpactPercentage;
             priority1Fixes :=
               JS.js_or
                 ((fun l => Z.of_nat (length l)) <$> (remediationPlan a ≫= priority1)) 0 |})
       <$> enhancedAnalysis r |}.

Definition aggregateResults (scanResults : list ScanResult) : AggregateReport :=
  let completed := List.filter isCompleted scanResults in
  let failed := List.filter isFailed scanResults in
  let totalScore := fold_left (fun sum r => sum + effectiveScore r) completed 0 in
  let averageScore :=
    if 0 <? Z.of_nat (length completed)
    then JS.round_div totalScore (Z.of_nat (length completed))
    else 0 in
  {| totalScans := Z.of_nat (length scanResults);
     completedScans := Z.of_nat (length completed);
     failedScans := Z.of_nat (length failed);
     score := averageScore;
     totalViolations :=
       fold_left (fun sum r => sum + violationCount (summary r)) completed 0;
     totalPasses :=
       fold_left (fun sum r => sum + passCount (summary r)) completed 0;
     violationsBySeverity := groupBySeverity completed;
     hasEnhancedAnalysis := existsb hasAnalysis completed;
     remediationPlan_ := aggregateRemediationPlan completed;
     pageResults := map pageResult scanResults |}.

End Action.

(** * Specification-side definitions and sample inputs *)

Definition sumZ (l : list Z) : Z := foldr Z.add 0 l.

Module AggregationSpec.
Import Action.

(** The spec's wording of the overall score: the rounded mean of the
    completed pages' [score]s, [0] when there is none. *)
Definition specOverallScore (scanResults : list ScanResult) : Z :=
  let completed := List.filter isCompleted scanResults in
  if 0 <? Z.of_nat (length completed)
  then JS.round_div (sumZ (map (fun r => summary_score (summary r)) completed))
         (Z.of_nat (length completed))
  else 0.

Definition plainPage (st : string) (sc : Z) : ScanResult :=
  {| url := "/"; status := st;
     summary := {| summary_score := sc; violationCount := 0; passCount := 0 |};
     violations := []; enhancedAnalysis := None |}.

Definition annotatedPage (sc : Z) (enhanced : option Z) : ScanResult :=
  {| url := "/"; status := "completed";
     summary := {| summary_score := sc; violationCount := 0; passCount := 0 |};
     violations := [];
     enhancedAnalysis :=
       Some {| enhancedScore := enhanced; businessImpact := None;
               remediationPlan := None |} |}.

(** The example of the specification: scores 80, failed, 60. *)
Definition threePages : list ScanResult :=
  [plainPage "completed" 80; plainPage "failed" 0; plainPage "completed" 60].

(** A page stripped of its annotation. *)
Definition withoutAnalysis (r : ScanResult) : ScanResult :=
  {| url := url r; status := status r; summary := summary r;
     violations := violations r; enhancedAnalysis := None |}.

(** The four severities of the histogram. *)
Definition severities : list string := ["critical"; "serious"; "moderate"; "minor"].

Definition isSeverity (impact : string) : bool := JS.includes impact severities.

Definition hasKnownImpact (v : Violation) : bool := isSeverity (impact v).

(** All violations of the completed scans, in order. *)
Definition completedViolations (scanResults : list ScanResult) : list Violation :=
  flat_map violations (List.filter isCompleted scanResults).

(** Affected nodes over the violations of one impact, and over all. *)
Definition severityCount (k : string) (vs : list Violation) : Z :=
  sumZ (map affectedNodes (List.filter (fun v => String.eqb (impact v) k) vs)).

Definition totalAffected (vs : list Violation) : Z := sumZ (map affectedNodes vs).

(** The histogram in the spec's words: exactly the four severities as keys,
    each with the affected nodes of the violations of that impact. *)
Definition specHistogram (vs : list Violation) : gmap string Z :=
  list_to_map (map (fun k => (k, severityCount k vs)) severities).

Definition histogramSum (h : gmap string Z) : Z :=
  sumZ (map (fun k => default 0 (h !! k)) severities).

(** A cell after [n] more affected nodes. *)
Definition bump (n : Z) (c : Cell) : Cell :=
  match c with
  | Count m => Count (m + n)
  | Text => Text
  end.

(** An impact that names no method inherited from [Object.prototype]. *)
Definition plainImpact (v : Violation) : Prop :=
  JS.includes (impact v) JS.inheritedMethods = false.

Definition pageWithViolations (vs : list Violation) : ScanResult :=
  {| url := "/"; status := "completed";
     summary := {| summary_score := 100; violationCount := Z.of_nat (length vs);
                   passCount := 0 |};
     violations := vs; enhancedAnalysis := None |}.

Definition unknownViolation : Violation :=
  {| impact := "cosmetic"; nodeCount := Some 3; nodes := None |}.

(** A violation whose impact names an inherited method. *)
Definition inheritedViolation : Violation :=
  {| impact := "constructor"; nodeCount := Some 3; nodes := None |}.

(** Two issues with different (title, description) pairs whose
    concatenations coincide. *)
Definition issueA : Issue :=
  {| title := "ab"; description := "c"; effortClass := "quick" |}.
Definition issueB : Issue :=
  {| title := "a"; description := "bc"; effortClass := "complex" |}.

Definition pageWithIssues (issues : list Issue) : ScanResult :=
  {| url := "/"; status := "completed";
     summary := {| summary_score := 50; violationCount := 0; passCount := 0 |};
     violations := [];
     enhancedAnalysis :=
       Some {| enhancedScore := None; businessImpact := None;
               remediationPlan :=
                 Some {| estimatedEffort := None; priority1 := Some issues |} |} |}.

(** The spec's wording of the deduplication: an issue is dropped when an
    earlier one has the same title and the same description. *)
Definition samePair (i j : Issue) : bool :=
  String.eqb (title i) (title j) && String.eqb (description i) (description j).

Definition dedupByPair (issues : list Issue) : list Issue :=
  fold_left
    (fun unique i => if existsb (samePair i) unique then unique else unique ++ [i])
    issues [].

(** The spec's wording of [topPriority1Issues]: the annotated pages'
    priority-1 issues concatenated, deduplicated by pair, first five kept. *)
Definition specTopIssues (completedScans : list ScanResult) : list Issue :=
  take 5
    (dedupByPair
       (flat_map
          (fun scan =>
             default [] ((enhancedAnalysis scan ≫= remediationPlan) ≫= priority1))
          completedScans)).

(** What [deduplicateIssues] computes: an issue is dropped when the
    concatenation of its title and description equals that of an issue
    already kept; the first five survivors are returned. *)
Definition sameKey (i j : Issue) : bool := String.eqb (issueKey j) (issueKey i).

Definition dedupByKey (issues unique : list Issue) : list Issue :=
  fold_left
    (fun unique i => if existsb (sameKey i) unique then unique else unique ++ [i])
    issues unique.

End AggregationSpec.

Module DiscoverySpec.
Import PageDiscovery.

(** The Path invariant of the data model: starts with ['/'], has no trailing
    ['/'] unless it is exactly ["/"], carries no ['?'] and no ['#']. *)
Fixpoint hasQueryOrFragment (s : string) : bool :=
  match s with
  | EmptyString => false
  | String c s' =>
      Ascii.eqb c "?"%char || Ascii.eqb c "#"%char || hasQueryOrFragment s'
  end.

Definition isPath (p : string) : bool :=
  JS.startsWith_slash p
  && (String.eqb p "/" || negb (JS.endsWith_slash p))
  && negb (hasQueryOrFragment p).

(** The two clauses of the invariant that do not concern the trailing
    slash. *)
Definition rootedAndBare (p : string) : Prop :=
  JS.startsWith_slash p = true /\ hasQueryOrFragment p = false.

(** A site whose [/sitemap.xml] is a sitemap index listing itself. *)
Definition selfIndexUrl : string := "http://site.test/sitemap.xml".

Definition selfIndex : Body :=
  Parsed {| urlset := None; sitemapindex := Some [Some selfIndexUrl] |}.

Definition selfWeb : Web :=
  fun url => if String.eqb url selfIndexUrl then Status true selfIndex
             else Status false Unparsable.

(** A site whose index lists two sitemaps, of three and of four URLs. *)
Definition siteLoc (pathname : string) : Loc := LocUrl "site.test" pathname.

Definition twoChildIndex : Body :=
  Parsed {| urlset := None;
            sitemapindex :=
              Some [Some "http://site.test/pages.xml"; Some "http://site.test/posts.xml"] |}.

Definition pagesSitemap : Body :=
  Parsed {| urlset := Some [siteLoc "/"; siteLoc "/about"; siteLoc "/contact"];
            sitemapindex := None |}.

Definition postsSitemap : Body :=
  Parsed {| urlset := Some [siteLoc "/p/1"; siteLoc "/p/2"; siteLoc "/p/3"; siteLoc "/p/4"];
            sitemapindex := None |}.

Definition twoChildWeb : Web :=
  fun url =>
    if String.eqb url "http://site.test/sitemap.xml" then Status true twoChildIndex
    else if String.eqb url "http://site.test/pages.xml" then Status true pagesSitemap
    else if String.eqb url "http://site.test/posts.xml" then Status true postsSitemap
    else Status false Unparsable.

(** The loop of [parseSitemap] over the children, named. *)
Definition parseChildren (depth : nat) (web : Web) (baseHost : option string) :=
  fix children (entries : list (option string)) (pages : list string)
    : Outcome (list string) :=
    match entries with
    | [] => Returns pages
    | None :: rest => children rest pages
    | Some childSitemapUrl :: rest =>
        match web childSitemapUrl with
        | Status true childSitemapXml =>
            match parseSitemap depth web baseHost childSitemapXml with
            | Returns childPages => children rest (pages ++ childPages)
            | Throws => children rest pages
            | OutOfFuel => OutOfFuel
            end
        | _ => children rest pages
        end
    end.

(** [nestsWithin web n body]: the sitemap indexes reachable from [body]
    nest at most [n] documents deep. *)
Inductive nestsWithin (web : Web) : nat -> Body -> Prop :=
  | nests_unparsable n : nestsWithin web (S n) Unparsable
  | nests_parsed n x :
      (forall url child,
          In (Some url) (default [] (sitemapindex x)) ->
          web url = Status true child ->
          nestsWithin web n child) ->
      nestsWithin web (S n) (Parsed x).

(** Sample configuration: no page limit given to the constructor (so 10),
    [options.maxPages = 2], three manual paths. *)
Definition defaultConfig : Config := {| config_maxPages := None |}.

Definition threePaths : Options :=
  {| options_maxPages := Some 2;
     options_startPaths := None;
     options_paths := Some (PathsArray ["/a"; "/b"; "/c"]) |}.

Definition emptySite : Site :=
  {| site_baseUrl := "http://site.test";
     site_baseHost := Some "site.test";
     site_web := fun _ => NetworkError;
     site_links := fun _ => [] |}.

(** A three-page site whose pages all link to each other. *)
Definition cyclicLinks (path : string) : list string :=
  if String.eqb path "/" then ["/a"; "/b"]
  else if String.eqb path "/a" then ["/b"; "/"]
  else if String.eqb path "/b" then ["/"; "/a"]
  else [].

Definition crawlOptions (budget : option Z) : Options :=
  {| options_maxPages := budget; options_startPaths := None; options_paths := None |}.

End DiscoverySpec.

Module Rounding.

(** The position of the fraction [R/D] in [[0, 1)], as the rounding
    functions of [SpecFloat] encode it: exact, below, at, or above a half. *)
Definition loc_of (R D : Z) : location :=
  if R =? 0 then loc_Exact else loc_Inexact (2 * R ?= D).

End Rounding.

Module ScoreSpec.
Import ScannerService.

(** The spec's weights: critical 4, serious 3, moderate 2, minor 1, and 1
    for any other impact. *)
Definition impactWeight (impact : string) : Z :=
  if String.eqb impact "critical" then 4
  else if String.eqb impact "serious" then 3
  else if String.eqb impact "moderate" then 2
  else 1.

(** Each violation contributes [impactWeight * affectedNodeCount]. *)
Definition weightedViolations (violations : list AxeRule) : Z :=
  sumZ (map (fun v => impactWeight (impact v) * Z.of_nat (length (nodes v))) violations).

(** Clamping to [0, 100]. *)
Definition clamp (score : spec_float) : spec_float :=
  JS.Math_max (JS.of_Z 0) (JS.Math_min (JS.of_Z 100) score).

(** [round(((max - weighted) / max) * 100)], evaluated in binary64 as the
    source does. *)
Definition scoreFormula (maxPossibleWeight weighted : Z) : spec_float :=
  JS.Math_round
    (JS.mul (JS.div (JS.of_Z (maxPossibleWeight - weighted)) (JS.of_Z maxPossibleWeight))
       (JS.of_Z 100)).

Definition specScore (violations : list AxeRule) (passCount : Z) : spec_float :=
  let totalTests := passCount + Z.of_nat (length violations) in
  if totalTests =? 0 then JS.of_Z 100
  else clamp (scoreFormula (totalTests * 4) (weightedViolations violations)).

(** The score in the spec's words, over the integers: the quotient rounded
    to the nearest integer (halves up, as [Math.round] does), then clamped;
    an impact outside the table weighs 1. *)
Definition exactScore (violations : list AxeRule) (passCount : Z) : Z :=
  let totalTests := passCount + Z.of_nat (length violations) in
  if totalTests =? 0 then 100
  else
    let maxPossibleWeight := totalTests * 4 in
    Z.max 0
      (Z.min 100
         (JS.round_div (100 * (maxPossibleWeight - weightedViolations violations))
            maxPossibleWeight)).

(** No violation's impact names a property inherited from
    [Object.prototype]. *)
Definition plainImpacts (violations : list AxeRule) : Prop :=
  Forall (fun v => JS.isInherited (impact v) = false) violations.

Definition axeNode : AxeNode := {| html := ""; target := ""; failureSummary := "" |}.

Definition axeRule (impact : string) (nodeCount : nat) : AxeRule :=
  {| impact := impact; nodes := repeat axeNode nodeCount |}.

End ScoreSpec.

(** * Notions used to state further properties of the page discovery *)

Module DiscoveryProps.
Import PageDiscovery.

(** The order [Array.prototype.sort] puts distinct strings in. *)
Definition strictlyBelow (a b : string) : Prop := String.ltb a b = true.

(** [Reachable seeds links p]: [p] is a seed or is linked from a reachable
    page. *)
Inductive Reachable (seeds : list string) (links : string -> list string) : string -> Prop :=
  | reach_seed p : p ∈ seeds -> Reachable seeds links p
  | reach_link q p : Reachable seeds links q -> p ∈ links q -> Reachable seeds links p.

(** What the crawl loop keeps true of its state. *)
Definition CrawlInv (seeds : list string) (links : string -> list string)
    (st : CrawlState) : Prop :=
  NoDup (discovered st)
  /\ (forall p, p ∈ visited st <-> p ∈ discovered st)
  /\ (forall p, p ∈ discovered st \/ p ∈ toVisit st -> Reachable seeds links p)
  /\ (forall p, p ∈ discovered st \/ p ∈ toVisit st ->
        p ∈ seeds \/ exists q, q ∈ discovered st /\ p ∈ links q)
  /\ (forall s, s ∈ seeds -> s ∈ visited st \/ s ∈ toVisit st)
  /\ (forall q p, q ∈ discovered st -> p ∈ links q -> p ∈ visited st \/ p ∈ toVisit st).

(** The lines of a multi-line [paths] input that count, one by one in
    input order: each line trimmed, kept unless it is then empty or starts
    with '#'. *)
Definition keptLines (s : string) : list string :=
  flat_map (fun line =>
              let path := trim line in
              match path with
              | EmptyString => []
              | String c _ => if Ascii.eqb c "#"%char then [] else [path]
              end)
    (splitLines s).

(** A [<loc>] that [new URL] rejects. *)
Definition isInvalidLoc (l : Loc) : bool :=
  match l with LocInvalid => true | _ => false end.

(** The pathnames of the entries on [host], in document order. *)
Definition sameHostPaths (host : string) (entries : list Loc) : list string :=
  flat_map (fun l => match l with
                     | LocUrl h p => if String.eqb h host then [p] else []
                     | _ => []
                     end) entries.

(** No candidate sitemap location answers with a successful response. *)
Definition noSitemap (web : Web) (baseUrl : string) : Prop :=
  forall sitemapPath body,
    sitemapPath ∈ sitemapUrls -> web (baseUrl +:+ sitemapPath) <> Status true body.

End DiscoveryProps.

(** * Further code of the repository *)

(** ** String methods *)

Module JSString.

(** [s.startsWith(p)]. *)
Definition startsWith (p s : string) : bool := String.prefix p s.

(** [s.includes(p)]. *)
Fixpoint includes (p s : string) : bool :=
  String.prefix p s
  || match s with
     | String _ s' => includes p s'
     | EmptyString => false
     end.

(** [s.endsWith(p)]. *)
Fixpoint endsWith (p s : string) : bool :=
  String.eqb p s
  || match s with
     | String _ s' => endsWith p s'
     | EmptyString => false
     end.

(** [a || b] on strings: the empty string and an absent value are falsy. *)
Definition or_string (a : option string) (b : string) : string :=
  match a with
  | Some s => if String.eqb s "" then b else s
  | None => b
  end.

End JSString.

(** ** [src/page-discovery.js]: link extraction *)

Module LinkExtraction.

(** The shapes of the regular expressions of [skipPatterns]: [/^s/], [/s/]
    and [/\.(e1|e2|...)$/i].  Matching without regard to case compares code
    units after mapping A-Z to a-z: a code unit of 128 or more never
    matches an ASCII letter. *)
Inductive Pattern :=
  | StartsWith (s : string)
  | Contains (s : string)
  | DotExtension (extensions : list string).

(** [pattern.test(href)]. *)
Definition test (pattern : Pattern) (href : string) : bool :=
  match pattern with
  | StartsWith s => JSString.startsWith s href
  | Contains s => JSString.includes s href
  | DotExtension extensions =>
      existsb (fun ext => JSString.endsWith ("." +:+ ext) (PageDiscovery.toLowerCase href))
        extensions
  end.

Definition fileExtensions : list string :=
  ["pdf"; "jpg"; "jpeg"; "png"; "gif"; "svg"; "ico"; "zip"; "tar"; "gz"].

Definition skipPatterns : list Pattern :=
  [ StartsWith "#";
    StartsWith "javascript:";
    StartsWith "mailto:";
    StartsWith "tel:";
    StartsWith "ftp:";
    DotExtension fileExtensions;
    Contains "/admin";
    Contains "/api/";
    Contains "/logout";
    Contains "/download" ].

Definition shouldSkipLink (href : string) : bool :=
  existsb (fun pattern => test pattern href) skipPatterns.

(** The fields of a [URL] object the crawler reads. *)
Record Url := { hostname : string; pathname : string }.

(** Which base [new URL] is given for a link. *)
Inductive Base :=
  | AgainstSite
  | Absolute
  | AgainstPage.

(** [new URL(href)] or [new URL(href, base)] on the page being read; [None]
    when it throws. *)
Definition Resolver := Base -> string -> option Url.

(** [fetch(pageUrl)] rejects, or resolves to a response with [ok], its
    [content-type] header and, in the document of its body, the [href]
    attributes of the [a[href]] elements in document order. *)
Inductive PageResponse :=
  | FetchFails
  | Fetched (ok : bool) (contentType : option string) (hrefs : list string).

Definition baseFor (href : string) : Base :=
  if JSString.startsWith "/" href then AgainstSite
  else if JSString.startsWith "http" href then Absolute
  else AgainstPage.

(** The single removal of a trailing slash applied to a pathname. *)
Definition stripSlash (path : string) : string :=
  if JS.endsWith_slash path && negb (String.eqb path "/") then JS.drop_last path
  else path.

(** The body of the loop over the anchors. *)
Definition addLink (resolve : Resolver) (baseHost : string) (links : list string)
    (href : string) : list string :=
  if String.eqb href "" then links
  else if shouldSkipLink href then links
  else
    match resolve (baseFor href) href with
    | None => links
    | Some linkUrl =>
        if String.eqb (hostname linkUrl) baseHost then
          let normalizedPath := stripSlash (pathname linkUrl) in
          if PageDiscovery.nonEmpty normalizedPath
             && negb (JS.includes normalizedPath links)
          then links ++ [normalizedPath]
          else links
        else links
    end.

Definition extractLinksFromPage (resolve : Resolver) (baseHost : string)
    (response : PageResponse) : list string :=
  match response with
  | FetchFails => []
  | Fetched ok contentType hrefs =>
      if negb ok then []
      else if negb (JSString.includes "text/html" (JSString.or_string contentType ""))
      then []
      else fold_left (addLink resolve baseHost) hrefs []
  end.

End LinkExtraction.

(** ** [src/scanner-service.js]: rule tags and result processing *)

Module ScanProcessing.
Import ScannerService.

(** The request options and the service configuration [getAxeTags] reads. *)
Record TagOptions := {
  wcagLevel : option string;
  includeBestPractices : option bool;
  includeExperimental : option bool
}.

Record TagConfig := {
  config_wcagLevel : string;
  config_includeBestPractices : bool;
  config_includeExperimental : bool
}.

Definition levelTags (wcagLevel : string) : list string :=
  if String.eqb wcagLevel "A" then ["wcag2a"; "wcag21a"]
  else if String.eqb wcagLevel "AA" then ["wcag2a"; "wcag2aa"; "wcag21a"; "wcag21aa"]
  else if String.eqb wcagLevel "AAA"
  then ["wcag2a"; "wcag2aa"; "wcag2aaa"; "wcag21a"; "wcag21aa"]
  else [].

(** [options.x ?? this.config.x] falls back on an absent value only. *)
Definition getAxeTags (config : TagConfig) (options : TagOptions) : list string :=
  let wcagLevel := JSString.or_string (wcagLevel options) (config_wcagLevel config) in
  let tags := levelTags wcagLevel in
  let tags :=
    if default (config_includeBestPractices config) (includeBestPractices options)
    then tags ++ ["best-practice"] else tags in
  let tags :=
    if default (config_includeExperimental config) (includeExperimental options)
    then tags ++ ["experimental"] else tags in
  tags.

(** A violation as [processViolations] reports it; the descriptive fields
    ([id], [description], [help], [helpUrl], [tags]) are copied unchanged
    and are not part of [AxeRule]. *)
Record ProcessedViolation := {
  pv_impact : string;
  pv_nodes : list AxeNode;
  pv_nodeCount : Z
}.

Definition processViolations (violations : list AxeRule) : list ProcessedViolation :=
  map (fun violation =>
         {| pv_impact := impact violation;
            pv_nodes :=
              map (fun node =>
                     {| html := html node; target := target node;
                        failureSummary := failureSummary node |})
                (JS.slice_to (nodes violation) 10);
            pv_nodeCount := Z.of_nat (length (nodes violation)) |})
    violations.

Record ProcessedPass := { pp_nodeCount : Z }.

Definition processPasses (passes : list AxeRule) : list ProcessedPass :=
  map (fun pass => {| pp_nodeCount := Z.of_nat (length (nodes pass)) |}) passes.

End ScanProcessing.

(** ** The action entry point: discovery, scanning and the verdict *)

Module ActionRun.
Import Action.

(** [parseInt(core.getInput('threshold')) || 80], on the result of
    [parseInt] ([None] for [NaN]). *)
Definition threshold (parsed : option Z) : Z := JS.js_or parsed 80.

(** [evaluateSuccess]: [summary.score >= this.inputs.threshold]. *)
Definition evaluateSuccess (threshold : Z) (summary : AggregateReport) : bool :=
  score summary >=? threshold.

(** The result pushed when a scan request fails.  It has no [violations];
    the aggregation reads that field of completed scans only. *)
Definition failedScan (fullUrl : string) : ScanResult :=
  {| url := fullUrl;
     status := "failed";
     summary := {| summary_score := 0; violationCount := 0; passCount := 0 |};
     violations := [];
     enhancedAnalysis := None |}.

(** The request to the scanner for one URL: the parsed body of a successful
    response, [None] when the request is rejected, answered with an error
    status, or its body is not JSON. *)
Definition Scanner := string -> option ScanResult.

Definition fullUrl (serverUrl page : string) : string :=
  if JSString.startsWith "http" page then page else serverUrl +:+ page.

Definition executeScans (serverUrl : string) (scanner : Scanner) (pages : list string)
    : list ScanResult :=
  fold_left
    (fun results page =>
       match scanner (fullUrl serverUrl page) with
       | Some result => results ++ [result]
       | None => results ++ [failedScan (fullUrl serverUrl page)]
       end)
    pages [].

(** The action's [discoverPages]: [scanPaths] is the raw [scan-paths] input,
    [maxPages] the result of [parseInt] on the [max-pages] input. *)
Definition scanPathList (scanPaths : string) : list string :=
  if PageDiscovery.nonEmpty scanPaths
  then List.filter PageDiscovery.nonEmpty
         (map PageDiscovery.trim (PageDiscovery.splitLines scanPaths))
  else [].

Definition discoverPages (fuel : nat) (config : PageDiscovery.Config)
    (site : PageDiscovery.Site) (scanStrategy : string) (maxPages : option Z)
    (scanPaths : string) : PageDiscovery.Outcome (list string) :=
  let options :=
    {| PageDiscovery.options_maxPages := maxPages;
       PageDiscovery.options_startPaths := None;
       PageDiscovery.options_paths :=
         Some (PageDiscovery.PathsArray (scanPathList scanPaths)) |} in
  match PageDiscovery.discoverPages fuel config site scanStrategy options with
  | PageDiscovery.Returns pages =>
      if Z.of_nat (length pages) =? 0 then PageDiscovery.Throws
      else PageDiscovery.Returns pages
  | PageDiscovery.Throws => PageDiscovery.Throws
  | PageDiscovery.OutOfFuel => PageDiscovery.OutOfFuel
  end.

(** The two risk fields of [aggregateBusinessImpact]; the cost estimate and
    the business areas of its result are computed independently of them and
    are not modelled. *)
Definition pageRisk (scan : ScanResult) : option string :=
  (enhancedAnalysis scan ≫= businessImpact) ≫= riskLevel.

Definition overallRisk (scansWithAnalysis : list ScanResult) : string :=
  let riskLevels := map pageRisk scansWithAnalysis in
  if existsb (fun l => bool_decide (l = Some "high")) riskLevels then "high"
  else if existsb (fun l => bool_decide (l = Some "medium")) riskLevels then "medium"
  else "low".

Definition pagesAtRisk (scansWithAnalysis : list ScanResult) : Z :=
  Z.of_nat (length (List.filter (fun scan => bool_decide (pageRisk scan = Some "high"))
                      scansWithAnalysis)).

Definition riskSummary (completedScans : list ScanResult) : option (string * Z) :=
  let scansWithAnalysis := List.filter hasAnalysis completedScans in
  if Z.of_nat (length scansWithAnalysis) =? 0 then None
  else Some (overallRisk scansWithAnalysis, pagesAtRisk scansWithAnalysis).

End ActionRun.

(** * Notions used to state properties of the link extraction *)

Module LinkProps.
Import LinkExtraction.

(** The anchor [href] contributes the path [p]. *)
Definition linkOf (resolve : Resolver) (baseHost : string) (href p : string) : Prop :=
  href <> "" /\ shouldSkipLink href = false
  /\ exists linkUrl,
       resolve (baseFor href) href = Some linkUrl
       /\ hostname linkUrl = baseHost
       /\ p = stripSlash (pathname linkUrl)
       /\ p <> "".

End LinkProps.

(** * Notions used to state properties of the scanner's results *)

Module ScanProps.
Import ScannerService ScanProcessing.

(** The request options with the level set to [level]. *)
Definition withLevel (level : string) (options : TagOptions) : TagOptions :=
  {| wcagLevel := Some level;
     includeBestPractices := includeBestPractices options;
     includeExperimental := includeExperimental options |}.

(** A processed violation as the action reads it from the scanner's
    response. *)
Definition received (pv : ProcessedViolation) : Action.Violation :=
  {| Action.impact := pv_impact pv;
     Action.nodeCount := Some (pv_nodeCount pv);
     Action.nodes :=
       Some (map (fun node => {| Action.node_html := html node;
                                 Action.node_target := target node |})
               (pv_nodes pv)) |}.

(** The number of rules the score is computed over. *)
Definition totalTests (results : AxeResults) : Z :=
  Z.of_nat (length (passes results)) + Z.of_nat (length (violations results)).

End ScanProps.

(** * Notions used to state properties of the remediation plan *)

Module PlanProps.
Import Action.

(** What one annotated page contributes to the plan. *)
Definition effortOf (scan : ScanResult) : option EstimatedEffort :=
  (enhancedAnalysis scan ≫= remediationPlan) ≫= estimatedEffort.

Definition quickOf (scan : ScanResult) : Z :=
  match effortOf scan with Some effort => JS.js_or (quickFixes effort) 0 | None => 0 end.

Definition mediumOf (scan : ScanResult) : Z :=
  match effortOf scan with Some effort => JS.js_or (mediumFixes effort) 0 | None => 0 end.

Definition complexOf (scan : ScanResult) : Z :=
  match effortOf scan with Some effort => JS.js_or (complexFixes effort) 0 | None => 0 end.

Definition issuesOf (scan : ScanResult) : list Issue :=
  default [] ((enhancedAnalysis scan ≫= remediationPlan) ≫= priority1).

End PlanProps.

(** * Sample inputs *)

Module Samples.
Import Action.

(** A completed, annotated page with the given risk level. *)
Definition pageWithRisk (level : option string) : ScanResult :=
  {| url := "/"; status := "completed";
     summary := {| summary_score := 50; violationCount := 0; passCount := 0 |};
     violations := [];
     enhancedAnalysis :=
       Some {| enhancedScore := None;
               businessImpact :=
                 Some {| riskLevel := level; userImpactPercentage := None |};
               remediationPlan := None |} |}.

End Samples.

(** * Properties *)

(** ** Arithmetic of the JavaScript primitives *)

Lemma fold_left_add_sumZ {A} (f : A -> Z) (l : list A) (acc : Z) :
  fold_left (fun sum r => sum + f r) l acc = acc + sumZ (map f l).
Proof.
  revert acc. induction l as [|x l IH]; intros acc; simpl.
  - lia.
  - rewrite IH. lia.
Qed.

Lemma sumZ_app (l1 l2 : list Z) : sumZ (l1 ++ l2) = sumZ l1 + sumZ l2.
Proof. induction l1 as [|x l1 IH]; simpl; lia. Qed.

(** [round_div a b] is the integer [q] with [q - 1/2 <= a/b < q + 1/2]. *)
Lemma round_div_nearest (a b : Z) :
  0 < b -> - b <= 2 * a - 2 * b * JS.round_div a b < b.
Proof.
  intros Hb. unfold JS.round_div.
  pose proof (Z.div_mod (2 * a + b) (2 * b)) as Hdm.
  pose proof (Z.mod_pos_bound (2 * a + b) (2 * b)) as Hmod.
  lia.
Qed.

Lemma round_div_unique (a b q : Z) :
  0 < b -> - b <= 2 * a - 2 * b * q < b -> JS.round_div a b = q.
Proof.
  intros Hb Hq. pose proof (round_div_nearest a b Hb) as Hr. nia.
Qed.

Lemma js_or_falsy (x : option Z) (y : Z) : JS.truthy x = false -> JS.js_or x y = y.
Proof.
  destruct x as [n|]; simpl; [|reflexivity].
  destruct (n =? 0); [reflexivity | discriminate].
Qed.

Lemma js_or_self (x : Z) : JS.js_or (Some x) 0 = x.
Proof. simpl. destruct (x =? 0) eqn:E; [apply Z.eqb_eq in E|]; congruence. Qed.

(** ** Aggregation *)

Section Aggregation.
Import Action.

Import AggregationSpec.

Lemma filter_filter_id {A} (p : A -> bool) (l : list A) :
  List.filter p (List.filter p l) = List.filter p l.
Proof.
  induction l as [|x l IH]; simpl; [reflexivity|].
  destruct (p x) eqn:E; simpl; rewrite ?E, IH; reflexivity.
Qed.

Lemma score_unfold (scanResults : list ScanResult) :
  score (aggregateResults scanResults) =
    let completed := List.filter isCompleted scanResults in
    if 0 <? Z.of_nat (length completed)
    then JS.round_div (sumZ (map effectiveScore completed)) (Z.of_nat (length completed))
    else 0.
Proof.
  unfold aggregateResults; simpl. rewrite fold_left_add_sumZ. reflexivity.
Qed.

Lemma effectiveScore_falsy (r : ScanResult) :
  JS.truthy (enhancedAnalysis r ≫= enhancedScore) = false ->
  effectiveScore r = summary_score (summary r).
Proof. intros H. unfold effectiveScore. apply js_or_falsy, H. Qed.

(** C1 (as amended): the overall score is the mean, rounded to the nearest
    integer with halves up, of the completed pages' effective scores -- the
    enhanced score where one is present and non-zero, the summary score
    otherwise -- and [0] when no page is completed; failed pages do not enter
    the mean but are counted in [totalScans].  Where no completed page has an
    enhanced score the mean is that of the summary scores; for the scores
    80, failed, 60 the report has score 70, 3 scans, 2 completed. *)
Theorem overallScore_is_rounded_mean (scanResults : list ScanResult) :
  let report := aggregateResults scanResults in
  let completed := List.filter isCompleted scanResults in
  let n := Z.of_nat (length completed) in
  let total := sumZ (map effectiveScore completed) in
  totalScans report = Z.of_nat (length scanResults)
  /\ completedScans report = n
  /\ (n = 0 -> score report = 0)
  /\ (0 < n -> - n <= 2 * total - 2 * n * score report < n)
  /\ score (aggregateResults completed) = score report
  /\ (Forall (fun r => JS.truthy (enhancedAnalysis r ≫= enhancedScore) = false) completed ->
      score report = specOverallScore scanResults)
  /\ (score (aggregateResults threePages) = 70
      /\ totalScans (aggregateResults threePages) = 3
      /\ completedScans (aggregateResults threePages) = 2).
Proof.
  intros report completed n total.
  split; [reflexivity|]. split; [reflexivity|].
  assert (Hscore : score report =
            if 0 <? n then JS.round_div total n else 0)
    by (unfold report; rewrite score_unfold; reflexivity).
  split; [|split; [|split; [|split]]].
  - intros Hn. rewrite Hscore, Hn. reflexivity.
  - intros Hn. rewrite Hscore.
    destruct (0 <? n) eqn:E; [|apply Z.ltb_ge in E; lia].
    apply round_div_nearest, Hn.
  - unfold report, completed. rewrite !score_unfold. cbv zeta.
    rewrite filter_filter_id. reflexivity.
  - intros Hall. rewrite Hscore. unfold specOverallScore. fold completed. fold n.
    replace (sumZ (map (fun r => summary_score (summary r)) completed)) with total;
      [reflexivity|].
    unfold total. clearbody completed. clear -Hall.
    induction Hall as [|r l Hr _ IH]; simpl; [reflexivity|].
    rewrite IH, (effectiveScore_falsy r Hr). reflexivity.
  - repeat split; reflexivity.
Qed.

Lemma overallScore_is_rounded_mean_witness :
  score (aggregateResults threePages) = 70.
Proof.
  destruct (overallScore_is_rounded_mean threePages) as (_ & _ & _ & Hnear & _).
  assert (Hn : 0 < Z.of_nat (length (List.filter isCompleted threePages)))
    by (vm_compute; reflexivity).
  specialize (Hnear Hn).
  change (Z.of_nat (length (List.filter isCompleted threePages))) with 2 in Hnear.
  change (sumZ (map effectiveScore (List.filter isCompleted threePages))) with 140 in Hnear.
  lia.
Defined.

(** C1 (as stated) fails: a completed page with summary score 80 and
    enhanced score 50 yields the overall score 50, not 80. *)
Lemma overallScore_not_mean_of_summary_scores :
  score (aggregateResults [annotatedPage 80 (Some 50)]) = 50
  /\ specOverallScore [annotatedPage 80 (Some 50)] = 80
  /\ score (aggregateResults [annotatedPage 80 (Some 50)]) <> specOverallScore [annotatedPage 80 (Some 50)].
Proof. repeat split; vm_compute; congruence. Qed.

(** *** Falsy enhanced scores *)

Lemma isCompleted_withoutAnalysis (r : ScanResult) :
  isCompleted (withoutAnalysis r) = isCompleted r.
Proof. reflexivity. Qed.

Lemma filter_app_cons {A} (p : A -> bool) (l1 l2 : list A) (x : A) :
  List.filter p (l1 ++ x :: l2) =
    List.filter p l1 ++ (if p x then [x] else []) ++ List.filter p l2.
Proof.
  induction l1 as [|y l1 IH]; simpl.
  - destruct (p x); reflexivity.
  - rewrite IH. destruct (p y); reflexivity.
Qed.

(** C9: a page whose annotation carries a falsy enhanced score ([0] or
    absent) counts with its summary score: the overall score is what it
    would be without the annotation, and the page's entry in [pageResults]
    has the summary score in its [score] field. *)
Theorem falsy_enhancedScore_uses_summary_score
    (before after : list ScanResult) (r : ScanResult) (a : EnhancedAnalysis) :
  enhancedAnalysis r = Some a ->
  JS.truthy (enhancedScore a) = false ->
  let report := aggregateResults (before ++ r :: after) in
  effectiveScore r = summary_score (summary r)
  /\ score report = score (aggregateResults (before ++ withoutAnalysis r :: after))
  /\ pageResults report !! length before = Some (pageResult r)
  /\ page_score (pageResult r) = summary_score (summary r).
Proof.
  intros Ha Hfalsy report.
  assert (Heff : effectiveScore r = summary_score (summary r)).
  { apply effectiveScore_falsy. rewrite Ha. exact Hfalsy. }
  split; [exact Heff|]. split; [|split].
  - unfold report. rewrite !score_unfold. cbv zeta.
    rewrite !filter_app_cons, isCompleted_withoutAnalysis.
    destruct (isCompleted r); [|reflexivity].
    rewrite !length_app, !map_app. simpl.
    rewrite Heff. reflexivity.
  - unfold report, aggregateResults; simpl.
    rewrite list_lookup_fmap, list_lookup_middle; reflexivity.
  - unfold pageResult; simpl. rewrite Ha; simpl.
    rewrite (js_or_falsy _ _ Hfalsy). apply js_or_self.
Qed.

Lemma falsy_enhancedScore_uses_summary_score_witness :
  score (aggregateResults [annotatedPage 80 (Some 0); plainPage "completed" 60]) = 70
  /\ page_score (pageResult (annotatedPage 80 (Some 0))) = 80.
Proof.
  destruct (falsy_enhancedScore_uses_summary_score
              [] [plainPage "completed" 60] (annotatedPage 80 (Some 0))
              {| enhancedScore := Some 0; businessImpact := None; remediationPlan := None |}
              eq_refl eq_refl) as (_ & Hscore & _ & Hpage).
  split; [etransitivity; [exact Hscore | reflexivity] | exact Hpage].
Defined.

(** *** The severity histogram *)

Lemma fold_left_flat_map {A B C} (f : C -> B -> C) (g : A -> list B) (l : list A) (c : C) :
  fold_left (fun acc x => fold_left f (g x) acc) l c = fold_left f (flat_map g l) c.
Proof.
  revert c. induction l as [|x l IH]; intros c; simpl; [reflexivity|].
  rewrite fold_left_app. apply IH.
Qed.

Lemma groupBySeverity_flat (completed : list ScanResult) :
  groupBySeverity completed =
    fold_left countViolation (flat_map violations completed) emptyHistogram.
Proof. unfold groupBySeverity. apply fold_left_flat_map. Qed.

Lemma countViolation_lookup (v : Violation) (h : gmap string Cell) (k : string) :
  plainImpact v ->
  countViolation h v !! k
  = (if String.eqb (impact v) k then bump (affectedNodes v) else fun c => c) <$> (h !! k).
Proof.
  intros Hv. unfold countViolation. unfold plainImpact in Hv. rewrite Hv.
  destruct (String.eqb_spec (impact v) k) as [->|Hne].
  - destruct (h !! k) as [[n|]|] eqn:Hk.
    + rewrite lookup_insert_eq. reflexivity.
    + rewrite lookup_insert_eq. reflexivity.
    + rewrite Hk. reflexivity.
  - destruct (h !! impact v) as [[n|]|] eqn:Hi;
      rewrite ?lookup_insert_ne by exact Hne; destruct (h !! k); reflexivity.
Qed.

Lemma severityCount_cons (k : string) (v : Violation) (vs : list Violation) :
  severityCount k (v :: vs)
  = (if String.eqb (impact v) k then affectedNodes v else 0) + severityCount k vs.
Proof.
  unfold severityCount. cbn [List.filter].
  destruct (String.eqb (impact v) k); reflexivity.
Qed.

(** Each key keeps its presence; a present count gains the affected nodes
    of the violations bearing it. *)
Lemma countViolations_lookup (vs : list Violation) (h : gmap string Cell) (k : string) :
  Forall plainImpact vs ->
  fold_left countViolation vs h !! k = bump (severityCount k vs) <$> (h !! k).
Proof.
  intros Hplain. revert h. induction Hplain as [|v vs Hv _ IH]; intros h.
  - change (severityCount k []) with 0. cbn [fold_left].
    destruct (h !! k) as [[n|]|]; simpl; [f_equal; f_equal; lia | reflexivity | reflexivity].
  - cbn [fold_left]. rewrite IH, (countViolation_lookup _ _ _ Hv), severityCount_cons.
    destruct (String.eqb (impact v) k); destruct (h !! k) as [[n|]|]; simpl;
      try reflexivity; f_equal; f_equal; lia.
Qed.

Lemma emptyHistogram_lookup (k : string) :
  emptyHistogram !! k = if isSeverity k then Some (Count 0) else None.
Proof.
  change (isSeverity k) with
    (String.eqb k "critical" || (String.eqb k "serious"
     || (String.eqb k "moderate" || (String.eqb k "minor" || false)))).
  unfold emptyHistogram.
  destruct (String.eqb_spec k "critical") as [->|H1]; [reflexivity|].
  destruct (String.eqb_spec k "serious") as [->|H2]; [reflexivity|].
  destruct (String.eqb_spec k "moderate") as [->|H3]; [reflexivity|].
  destruct (String.eqb_spec k "minor") as [->|H4]; [reflexivity|].
  cbn [orb]. rewrite !lookup_insert_ne by congruence.
  apply lookup_singleton_ne. congruence.
Qed.

Lemma specHistogram_lookup (vs : list Violation) (k : string) :
  specHistogram vs !! k = if isSeverity k then Some (severityCount k vs) else None.
Proof.
  change (isSeverity k) with
    (String.eqb k "critical" || (String.eqb k "serious"
     || (String.eqb k "moderate" || (String.eqb k "minor" || false)))).
  unfold specHistogram, severities. cbn [map list_to_map foldr uncurry fst snd].
  destruct (String.eqb_spec k "critical") as [->|H1]; [apply lookup_insert_eq|].
  rewrite lookup_insert_ne by congruence.
  destruct (String.eqb_spec k "serious") as [->|H2]; [apply lookup_insert_eq|].
  rewrite lookup_insert_ne by congruence.
  destruct (String.eqb_spec k "moderate") as [->|H3]; [apply lookup_insert_eq|].
  rewrite lookup_insert_ne by congruence.
  destruct (String.eqb_spec k "minor") as [->|H4]; [apply lookup_insert_eq|].
  rewrite lookup_insert_ne by congruence. apply lookup_empty.
Qed.

Lemma isSeverity_elem (k : string) : isSeverity k = true <-> k ∈ severities.
Proof.
  unfold isSeverity, JS.includes. rewrite existsb_exists. split.
  - intros (x & Hin & Heq). apply String.eqb_eq in Heq. subst x.
    apply list_elem_of_In, Hin.
  - intros Hin. exists k. split; [apply list_elem_of_In, Hin | apply String.eqb_refl].
Qed.

Lemma histogram_lookup (completed : list ScanResult) (k : string) :
  Forall plainImpact (flat_map violations completed) ->
  groupBySeverity completed !! k =
    if isSeverity k then Some (Count (severityCount k (flat_map violations completed)))
    else None.
Proof.
  intros Hplain.
  rewrite groupBySeverity_flat, (countViolations_lookup _ _ _ Hplain), emptyHistogram_lookup.
  destruct (isSeverity k); reflexivity.
Qed.

(** The four counts add up to the affected nodes of the violations of known
    impact. *)
Lemma sum_severityCounts (vs : list Violation) :
  sumZ (map (fun k => severityCount k vs) severities) =
    totalAffected (List.filter hasKnownImpact vs).
Proof.
  unfold totalAffected, severityCount, severities. simpl.
  induction vs as [|v vs IH]; simpl; [reflexivity|].
  unfold hasKnownImpact at 1, isSeverity, JS.includes, severities. simpl.
  destruct (String.eqb_spec (impact v) "critical") as [E|_];
    [rewrite ?E; simpl; lia|].
  destruct (String.eqb_spec (impact v) "serious") as [E|_];
    [rewrite ?E; simpl; lia|].
  destruct (String.eqb_spec (impact v) "moderate") as [E|_];
    [rewrite ?E; simpl; lia|].
  destruct (String.eqb_spec (impact v) "minor") as [E|_];
    [rewrite ?E; simpl; lia|].
  simpl. exact IH.
Qed.

(** As long as no impact names an inherited method the histogram is the
    spec's: exactly the four severities as keys, each with the affected
    nodes of the completed scans' violations of that impact, so that the
    counts add up to the affected nodes of the violations of known impact
    only. *)
Lemma histogram_of_plain_impacts (scanResults : list ScanResult) :
  Forall plainImpact (completedViolations scanResults) ->
  violationsBySeverity (aggregateResults scanResults)
  = (Count <$> specHistogram (completedViolations scanResults))
  /\ dom (violationsBySeverity (aggregateResults scanResults)) = list_to_set severities
  /\ histogramSum (specHistogram (completedViolations scanResults))
     = totalAffected (List.filter hasKnownImpact (completedViolations scanResults)).
Proof.
  intros Hplain.
  assert (Heq : violationsBySeverity (aggregateResults scanResults)
                = Count <$> specHistogram (completedViolations scanResults)).
  { apply map_eq. intros k. rewrite lookup_fmap, specHistogram_lookup.
    unfold aggregateResults; simpl. rewrite (histogram_lookup _ _ Hplain).
    destruct (isSeverity k); reflexivity. }
  split; [exact Heq|]. split.
  - rewrite Heq, dom_fmap_L. apply set_eq. intros k.
    rewrite elem_of_dom, specHistogram_lookup, elem_of_list_to_set, <- isSeverity_elem.
    destruct (isSeverity k).
    + split; intros _; [reflexivity | eexists; reflexivity].
    + split; [intros [? H]; discriminate H | discriminate].
  - unfold histogramSum. rewrite <- sum_severityCounts.
    apply (f_equal sumZ). apply map_ext_in. intros k Hk.
    rewrite specHistogram_lookup. apply list_elem_of_In, isSeverity_elem in Hk.
    rewrite Hk. reflexivity.
Qed.

(** C10: the histogram's keys are not always the four severities.  A
    violation whose impact is outside the table is skipped when the name is
    unknown to the object ([cosmetic]), but an impact that names an
    inherited method passes the guard [!== undefined]: for one completed
    page with one violation of impact [constructor] the histogram gains a
    fifth key [constructor], holding a string, where the histogram of the
    claim has the four severities only. *)
Theorem histogram_gains_inherited_key :
  violationsBySeverity (aggregateResults [pageWithViolations [unknownViolation]])
  = (Count <$> specHistogram [unknownViolation])
  /\ violationsBySeverity (aggregateResults [pageWithViolations [inheritedViolation]])
       !! "constructor" = Some Text
  /\ specHistogram [inheritedViolation] !! "constructor" = None
  /\ ("constructor" ∉ severities)
  /\ dom (violationsBySeverity (aggregateResults [pageWithViolations [inheritedViolation]]))
     <> list_to_set severities.
Proof.
  assert (Hnot : "constructor" ∉ severities).
  { intros H. unfold severities in H.
    repeat (apply elem_of_cons in H as [H|H]; [discriminate H|]). inversion H. }
  assert (Hkey : violationsBySeverity
                   (aggregateResults [pageWithViolations [inheritedViolation]])
                   !! "constructor" = Some Text) by (vm_compute; reflexivity).
  split; [|split; [exact Hkey|split; [|split; [exact Hnot|]]]].
  - apply (histogram_of_plain_impacts [pageWithViolations [unknownViolation]]).
    repeat constructor.
  - rewrite specHistogram_lookup. reflexivity.
  - intros Hdom.
    assert (Hin : "constructor" ∈ dom (violationsBySeverity
                    (aggregateResults [pageWithViolations [inheritedViolation]])))
      by (apply elem_of_dom; eexists; exact Hkey).
    rewrite Hdom in Hin. apply elem_of_list_to_set in Hin. contradiction.
Qed.

(** *** Deduplication of remediation issues *)

Lemma seen_iff_sameKey (unique : list Issue) (i : Issue) :
  issueKey i ∈ (list_to_set (map issueKey unique) : gset string)
  <-> existsb (sameKey i) unique = true.
Proof.
  rewrite elem_of_list_to_set, list_elem_of_fmap, existsb_exists. split.
  - intros (j & Hkey & Hin). exists j. split; [apply list_elem_of_In, Hin|].
    apply String.eqb_eq. symmetry. exact Hkey.
  - intros (j & Hin & Hkey). exists j. apply String.eqb_eq in Hkey.
    split; [symmetry; exact Hkey | apply list_elem_of_In, Hin].
Qed.

Lemma dedup_fold (issues unique : list Issue) :
  fold_left dedupStep issues (unique, list_to_set (map issueKey unique)) =
    (dedupByKey issues unique, list_to_set (map issueKey (dedupByKey issues unique))).
Proof.
  revert unique. induction issues as [|i issues IH]; intros unique; [reflexivity|].
  unfold dedupByKey. simpl.
  pose proof (seen_iff_sameKey unique i) as Hseen.
  destruct (existsb (sameKey i) unique) eqn:E.
  - rewrite bool_decide_eq_true_2 by (apply Hseen; reflexivity). apply IH.
  - rewrite bool_decide_eq_false_2 by (rewrite Hseen; discriminate).
    replace ({[issueKey i]} ∪ list_to_set (map issueKey unique) : gset string)
      with (list_to_set (map issueKey (unique ++ [i])) : gset string).
    + apply IH.
    + rewrite map_app, list_to_set_app_L. simpl.
      rewrite (right_id_L ∅ (∪)). apply (comm_L (∪)).
Qed.

Lemma deduplicateIssues_by_key (issues : list Issue) :
  deduplicateIssues issues = take 5 (dedupByKey issues []).
Proof.
  unfold deduplicateIssues.
  change (([] : list Issue), (∅ : gset string))
    with (([] : list Issue), (list_to_set (map issueKey []) : gset string)).
  rewrite dedup_fold. reflexivity.
Qed.

(** C8: two priority-1 issues with different (title, description) pairs but
    the same concatenation -- ("ab", "c") and ("a", "bc") -- are collapsed
    into the first, where deduplication by pair keeps both. *)
Theorem dedup_collapses_distinct_pairs :
  samePair issueA issueB = false
  /\ deduplicateIssues [issueA; issueB] = [issueA]
  /\ (topPriority1Issues <$>
        aggregateRemediationPlan [pageWithIssues [issueA]; pageWithIssues [issueB]])
     = Some [issueA]
  /\ specTopIssues [pageWithIssues [issueA]; pageWithIssues [issueB]] = [issueA; issueB].
Proof. repeat split; vm_compute; reflexivity. Qed.

End Aggregation.

(** ** Page discovery *)

Section Discovery.
Import PageDiscovery DiscoverySpec.

(** *** The link normalizer *)

(** C3: [normalizePaths] strips the trailing slash before it cuts the query
    string, so ["/about/?x=1"] comes out as ["/about/"], which is not a
    Path. *)
Theorem normalize_leaves_trailing_slash :
  normalizePaths ["/about/?x=1"] = ["/about/"]
  /\ existsb (fun p => negb (isPath p)) (normalizePaths ["/about/?x=1"]) = true.
Proof. split; reflexivity. Qed.

(** C4: on the same input a second pass strips the slash the first one left
    behind, so [normalizePaths] is not idempotent. *)
Theorem normalize_not_idempotent :
  normalizePaths ["/about/?x=1"] = ["/about/"]
  /\ normalizePaths (normalizePaths ["/about/?x=1"]) = ["/about"]
  /\ normalizePaths (normalizePaths ["/about/?x=1"]) <> normalizePaths ["/about/?x=1"].
Proof. split; [reflexivity | split; [reflexivity | discriminate]]. Qed.

(** What does hold of every output path. *)

Lemma before_query_bare (s : string) : hasQueryOrFragment (JS.before_query s) = false.
Proof.
  induction s as [|c s IH]; simpl; [reflexivity|].
  destruct (Ascii.eqb c "?" || Ascii.eqb c "#")%char eqn:E; simpl; [reflexivity|].
  rewrite E, IH. reflexivity.
Qed.

Lemma before_query_rooted (s : string) :
  JS.startsWith_slash s = true -> JS.startsWith_slash (JS.before_query s) = true.
Proof.
  destruct s as [|c s]; simpl; [discriminate|]. intros Hc.
  apply Ascii.eqb_eq in Hc. subst c. reflexivity.
Qed.

Lemma drop_last_rooted (s : string) :
  JS.startsWith_slash s = true -> s <> "/" -> JS.startsWith_slash (JS.drop_last s) = true.
Proof.
  destruct s as [|c [|c' s]]; simpl; try discriminate.
  - intros Hc. apply Ascii.eqb_eq in Hc. subst c. congruence.
  - intros Hc _. exact Hc.
Qed.

Lemma normalizePath_rootedAndBare (path p : string) :
  normalizePath path = Some p -> rootedAndBare p.
Proof.
  unfold normalizePath. destruct (String.eqb path ""); [discriminate|].
  intros [= <-]. split; [|apply before_query_bare].
  apply before_query_rooted.
  set (rooted := if JS.startsWith_slash path then path else "/" +:+ path).
  assert (Hrooted : JS.startsWith_slash rooted = true).
  { unfold rooted. destruct (JS.startsWith_slash path) eqn:E; [exact E | reflexivity]. }
  destruct (String.eqb_spec rooted "/") as [Heq|Hne]; simpl; [exact Hrooted|].
  destruct (JS.endsWith_slash rooted); [|exact Hrooted].
  apply drop_last_rooted; assumption.
Qed.

Lemma set_add_elem (x y : string) (s : list string) :
  y ∈ JS.set_add x s -> y = x \/ y ∈ s.
Proof.
  unfold JS.set_add. destruct (JS.includes x s); [right; assumption|].
  rewrite elem_of_app, list_elem_of_singleton. tauto.
Qed.

Lemma normalizedSet_elem (paths : list string) (p : string) :
  p ∈ normalizedSet paths -> rootedAndBare p.
Proof.
  unfold normalizedSet.
  assert (Hgen : forall acc, (forall q, q ∈ acc -> rootedAndBare q) ->
            forall q, q ∈ fold_left
              (fun normalized path =>
                 match normalizePath path with
                 | Some p => JS.set_add p normalized
                 | None => normalized
                 end) paths acc -> rootedAndBare q).
  { induction paths as [|path paths IH]; intros acc Hacc q; simpl; [apply Hacc|].
    apply IH. intros q' Hq'.
    destruct (normalizePath path) as [np|] eqn:E; [|apply Hacc, Hq'].
    apply set_add_elem in Hq' as [->|Hq']; [|apply Hacc, Hq'].
    apply (normalizePath_rootedAndBare path), E. }
  apply Hgen. intros q Hq. inversion Hq.
Qed.

Lemma sort_insert_elem (x y : string) (l : list string) :
  y ∈ JS.sort_insert x l -> y = x \/ y ∈ l.
Proof.
  induction l as [|z l IH]; simpl.
  - rewrite list_elem_of_singleton. tauto.
  - destruct (String.leb x z).
    + rewrite elem_of_cons. tauto.
    + rewrite !elem_of_cons. intros [->|H]; [tauto|].
      destruct (IH H); tauto.
Qed.

Lemma sort_elem (y : string) (l : list string) : y ∈ JS.sort l -> y ∈ l.
Proof.
  unfold JS.sort. induction l as [|x l IH]; simpl; [trivial|].
  intros H. apply sort_insert_elem in H as [->|H].
  - apply list_elem_of_here.
  - apply list_elem_of_further, IH, H.
Qed.

(** Every path [normalizePaths] returns starts with ['/'] and carries no
    query string or fragment; only the clause on the trailing slash of the
    Path invariant can fail. *)
Lemma normalizePaths_rootedAndBare (paths : list string) (p : string) :
  p ∈ normalizePaths paths -> rootedAndBare p.
Proof.
  unfold normalizePaths.
  set (result := JS.sort (normalizedSet paths)).
  assert (Hres : forall q, q ∈ result -> rootedAndBare q)
    by (intros q Hq; apply (normalizedSet_elem paths), sort_elem, Hq).
  destruct (0 <? JS.indexOf "/" result); [|apply Hres].
  rewrite elem_of_cons. intros [->|Hp]; [split; reflexivity|].
  apply Hres. unfold JS.splice1 in Hp. apply elem_of_app in Hp as [Hp|Hp].
  - apply (subseteq_take (Z.to_nat (JS.indexOf "/" result))), Hp.
  - apply (subseteq_drop (S (Z.to_nat (JS.indexOf "/" result)))), Hp.
Qed.

(** The examples of the specification. *)
Example normalize_dedups :
  normalizePaths ["about"; "/about/"; "/about?x=1#y"] = ["/about"]
  /\ normalizePaths [] = []
  /\ normalizePaths ["/b"; "/"; "/a"] = ["/"; "/a"; "/b"].
Proof. repeat split. Qed.

Example manual_paths_end_to_end :
  discoverPages 0 defaultConfig emptySite "paths"
    {| options_maxPages := None; options_startPaths := None;
       options_paths :=
         Some (PathsString
                 ("/" +:+ String newline "/about" +:+ String newline ""
                  +:+ String newline "# comment" +:+ String newline "/contact")) |}
  = Returns ["/"; "/about"; "/contact"].
Proof. reflexivity. Qed.

(** *** The crawl frontier *)

Section Crawl.
Variable links : string -> list string.
Variable maxPages : Z.

Lemma crawlGuard_false_stops (fuel : nat) (st : CrawlState) :
  crawlGuard maxPages st = false -> crawlLoop fuel links maxPages st = Some st.
Proof. intros H. destruct fuel; simpl; rewrite H; reflexivity. Qed.

Lemma crawlLoop_step (fuel : nat) (st : CrawlState) :
  crawlGuard maxPages st = true ->
  crawlLoop (S fuel) links maxPages st = crawlLoop fuel links maxPages (crawlStep links st).
Proof. intros H. simpl. rewrite H. reflexivity. Qed.

(** More fuel does not change a result. *)
Lemma crawlLoop_mono (fuel fuel' : nat) (st st' : CrawlState) :
  crawlLoop fuel links maxPages st = Some st' ->
  (fuel <= fuel')%nat ->
  crawlLoop fuel' links maxPages st = Some st'.
Proof.
  revert fuel' st. induction fuel as [|fuel IH]; intros fuel' st Hrun Hle.
  - simpl in Hrun. destruct (crawlGuard maxPages st) eqn:G; [discriminate|].
    rewrite crawlGuard_false_stops by exact G. exact Hrun.
  - destruct (crawlGuard maxPages st) eqn:G.
    + destruct fuel' as [|fuel']; [lia|].
      rewrite crawlLoop_step in * by exact G.
      apply IH; [exact Hrun | lia].
    + rewrite crawlGuard_false_stops in * by exact G. exact Hrun.
Qed.

(** The loop stops: each round either discovers a page, which the budget
    allows at most [maxPages] times, or only shortens the queue. *)
Lemma crawlLoop_terminates (st : CrawlState) :
  exists fuel st', crawlLoop fuel links maxPages st = Some st'.
Proof.
  remember (Z.to_nat (maxPages - Z.of_nat (length (discovered st)))) as room eqn:Hroom.
  revert st Hroom. induction room as [|room IHroom]; intros st Hroom.
  - exists O, st. apply crawlGuard_false_stops.
    unfold crawlGuard. apply andb_false_iff. right. apply Z.ltb_ge. lia.
  - remember (length (toVisit st)) as queued eqn:Hqueued.
    revert st Hroom Hqueued. induction queued as [|queued IHqueued]; intros st Hroom Hqueued.
    + exists O, st. apply crawlGuard_false_stops.
      unfold crawlGuard. rewrite <- Hqueued. reflexivity.
    + destruct (crawlGuard maxPages st) eqn:G;
        [|exists O, st; apply crawlGuard_false_stops, G].
      assert (Hnext : exists fuel st',
                 crawlLoop fuel links maxPages (crawlStep links st) = Some st').
      { unfold crawlStep. destruct (toVisit st) as [|path rest] eqn:Hq; [discriminate|].
        destruct (bool_decide (path ∈ visited st)).
        - apply IHqueued; simpl; [exact Hroom | simpl in Hqueued; lia].
        - apply IHroom. simpl. rewrite length_app. simpl. lia. }
      destruct Hnext as (fuel & st' & Hrun).
      exists (S fuel), st'. rewrite crawlLoop_step by exact G. exact Hrun.
Qed.

(** The loop never lets [discovered] grow beyond the budget. *)
Lemma crawlLoop_discovered_bound (fuel : nat) (st st' : CrawlState) :
  crawlLoop fuel links maxPages st = Some st' ->
  Z.of_nat (length (discovered st'))
    <= Z.max (Z.of_nat (length (discovered st))) maxPages.
Proof.
  revert st. induction fuel as [|fuel IH]; intros st Hrun; simpl in Hrun.
  - destruct (crawlGuard maxPages st); [discriminate|]. injection Hrun as <-. lia.
  - destruct (crawlGuard maxPages st) eqn:G; [|injection Hrun as <-; lia].
    apply IH in Hrun.
    unfold crawlGuard in G. apply andb_true_iff in G as [_ G]. apply Z.ltb_lt in G.
    revert Hrun. unfold crawlStep. destruct (toVisit st) as [|path rest]; [lia|].
    destruct (bool_decide (path ∈ visited st)); simpl; [lia|].
    rewrite length_app. simpl. lia.
Qed.

End Crawl.

(** C5: for every link graph (any function from a path to the links of its
    page, cycles included), every seed list and every configured budget the
    crawl stops after finitely many rounds of its loop and returns at most
    [min(pageBudget, 50)] paths; when the base URL does not parse it throws
    before the first round. *)
Theorem crawl_terminates_within_budget
    (config : Config) (links : string -> list string) (baseHost : string)
    (options : Options) :
  let budget := pageBudget config options in
  (exists (rounds : nat) (discovered : list string),
     (forall fuel, (rounds <= fuel)%nat ->
        discoverByCrawling fuel config links (Some baseHost) options = Returns discovered)
     /\ (length discovered <= Z.to_nat (Z.min budget 50))%nat
     /\ (0 <= budget -> Z.of_nat (length discovered) <= Z.min budget 50))
  /\ (forall fuel, discoverByCrawling fuel config links None options = Throws).
Proof.
  intros budget. split; [|reflexivity].
  destruct (crawlLoop_terminates links (Z.min budget 50) (crawlInit options))
    as (rounds & st' & Hrun).
  exists rounds, (discovered st').
  pose proof (crawlLoop_discovered_bound _ _ _ _ _ Hrun) as Hbound. simpl in Hbound.
  split; [|split].
  - intros fuel Hle. unfold discoverByCrawling. fold budget.
    rewrite (crawlLoop_mono _ _ _ _ _ _ Hrun Hle). reflexivity.
  - lia.
  - lia.
Qed.

Lemma crawl_terminates_within_budget_witness :
  exists (rounds : nat) (discovered : list string),
    discoverByCrawling rounds defaultConfig cyclicLinks (Some "site.test")
      (crawlOptions (Some 2)) = Returns discovered
    /\ Z.of_nat (length discovered) <= 2.
Proof.
  destruct (crawl_terminates_within_budget defaultConfig cyclicLinks "site.test"
              (crawlOptions (Some 2))) as ((rounds & discovered & Hrun & _ & Hlen) & _).
  exists rounds, discovered. split.
  - apply Hrun. lia.
  - apply Hlen. vm_compute. discriminate.
Defined.

Example crawl_cyclic_site :
  discoverByCrawling 10 defaultConfig cyclicLinks (Some "site.test") (crawlOptions None)
  = Returns ["/"; "/a"; "/b"].
Proof. reflexivity. Qed.

(** *** The sitemap resolver *)

Lemma parseSitemap_unfold (depth : nat) (web : Web) (host : string) (result : SitemapXml) :
  parseSitemap (S depth) web (Some host) (Parsed result) =
    match urlsetPages host (default [] (urlset result)) with
    | None => Throws
    | Some pages =>
        parseChildren depth web (Some host) (default [] (sitemapindex result)) pages
    end.
Proof. reflexivity. Qed.

(** On the self-referencing index every depth is used up. *)
Lemma selfIndex_never_returns (depth : nat) :
  parseSitemap depth selfWeb (Some "site.test") selfIndex = OutOfFuel.
Proof.
  induction depth as [|depth IH]; [reflexivity|].
  unfold selfIndex in *. rewrite parseSitemap_unfold. simpl.
  change (selfWeb selfIndexUrl) with (Status true selfIndex).
  unfold selfIndex. rewrite IH. reflexivity.
Qed.

(** C6 (as stated) fails: no fixed depth suffices for [parseSitemap]; on a
    sitemap index that lists itself it recurses beyond every bound, and
    [discoverFromSitemap] does not return either. *)
Lemma sitemap_recursion_unbounded :
  ~ (exists bound, forall web baseHost body,
        parseSitemap bound web baseHost body <> OutOfFuel)
  /\ (forall depth,
        discoverFromSitemap depth selfWeb "http://site.test" (Some "site.test")
          = OutOfFuel).
Proof.
  split.
  - intros (bound & Hbound).
    apply (Hbound selfWeb (Some "site.test") selfIndex), selfIndex_never_returns.
  - intros depth. unfold discoverFromSitemap, sitemapUrls. cbn [trySitemaps].
    change (selfWeb ("http://site.test" +:+ "/sitemap.xml")) with (Status true selfIndex).
    cbv iota. rewrite selfIndex_never_returns. reflexivity.
Qed.

Lemma parseChildren_returns (depth : nat) (web : Web) (baseHost : option string)
    (entries : list (option string)) :
  (forall url child, In (Some url) entries -> web url = Status true child ->
     parseSitemap depth web baseHost child <> OutOfFuel) ->
  forall pages, exists pages',
    parseChildren depth web baseHost entries pages = Returns pages'.
Proof.
  induction entries as [|[url|] rest IH]; intros Hchild pages; simpl.
  - eexists; reflexivity.
  - assert (Hrest : forall url' child, In (Some url') rest -> web url' = Status true child ->
              parseSitemap depth web baseHost child <> OutOfFuel)
      by (intros url' child Hin; apply Hchild; right; exact Hin).
    destruct (web url) as [|[|] child] eqn:Hweb; try (apply IH; exact Hrest).
    pose proof (Hchild url child (or_introl eq_refl) Hweb) as Hc.
    destruct (parseSitemap depth web baseHost child); try contradiction; apply IH; exact Hrest.
  - apply IH. intros url child Hin. apply Hchild. right. exact Hin.
Qed.

Lemma parseSitemap_nested (web : Web) (baseHost : option string) (n : nat) (body : Body) :
  nestsWithin web n body ->
  parseSitemap n web baseHost body <> OutOfFuel.
Proof.
  intros Hnest. induction Hnest as [n|n x _ IH].
  - simpl. discriminate.
  - destruct baseHost as [host|]; [|simpl; discriminate].
    rewrite parseSitemap_unfold.
    destruct (urlsetPages host (default [] (urlset x))) as [pages|]; [|discriminate].
    destruct (parseChildren_returns n web (Some host) (default [] (sitemapindex x)) IH pages)
      as (pages' & ->).
    discriminate.
Qed.

Lemma nestsWithin_mono (web : Web) (n m : nat) (body : Body) :
  nestsWithin web n body -> (n <= m)%nat -> nestsWithin web m body.
Proof.
  intros Hnest. revert m. induction Hnest as [n|n x _ IH]; intros m Hle.
  - destruct m; [lia|]. constructor.
  - destruct m; [lia|]. constructor. intros url child Hin Hweb.
    apply (IH url child Hin Hweb). lia.
Qed.

(** C6 (as amended): [parseSitemap] has no depth cap of its own; it follows
    sitemap-index references as deep as the documents nest.  Where the
    documents reachable from its input nest at most [n] deep, a call returns
    or throws within [n] nested calls; on an index listing itself it does
    not return at any depth. *)
Theorem parseSitemap_follows_nesting
    (web : Web) (baseHost : option string) (n : nat) (body : Body) :
  (nestsWithin web n body ->
   forall depth, (n <= depth)%nat ->
     parseSitemap depth web baseHost body <> OutOfFuel)
  /\ (forall depth, parseSitemap depth selfWeb (Some "site.test") selfIndex = OutOfFuel).
Proof.
  split.
  - intros Hnest depth Hle.
    apply parseSitemap_nested, (nestsWithin_mono web n depth body Hnest Hle).
  - apply selfIndex_never_returns.
Qed.

Lemma twoChildIndex_nests : nestsWithin twoChildWeb 2 twoChildIndex.
Proof.
  constructor. intros url child Hin Hweb. simpl in Hin.
  destruct Hin as [Hin|[Hin|[]]]; injection Hin as <-;
    vm_compute in Hweb; injection Hweb as <-;
    constructor; intros url' child' Hin'; destruct Hin'.
Qed.

Lemma parseSitemap_follows_nesting_witness :
  parseSitemap 2 twoChildWeb (Some "site.test") twoChildIndex <> OutOfFuel
  /\ parseSitemap 2 twoChildWeb (Some "site.test") twoChildIndex
     = Returns ["/"; "/about"; "/contact"; "/p/1"; "/p/2"; "/p/3"; "/p/4"].
Proof.
  split.
  - apply (proj1 (parseSitemap_follows_nesting twoChildWeb (Some "site.test") 2 twoChildIndex)).
    + exact twoChildIndex_nests.
    + lia.
  - reflexivity.
Defined.

(** *** The coordinator *)

Lemma slice_to_length {A} (l : list A) (e : Z) :
  0 <= e -> Z.of_nat (length (JS.slice_to l e)) <= e.
Proof.
  intros He. unfold JS.slice_to.
  destruct (e <? 0) eqn:E; [apply Z.ltb_lt in E; lia|].
  rewrite length_take. lia.
Qed.

Lemma limitPages_take (config : Config) (pages : list string) :
  0 <= maxPages config ->
  limitPages config pages = take (Z.to_nat (maxPages config)) pages.
Proof.
  intros Hpos. unfold limitPages, JS.slice_to.
  destruct (maxPages config <? Z.of_nat (length pages)) eqn:E.
  - destruct (maxPages config <? 0) eqn:E0; [apply Z.ltb_lt in E0; lia | reflexivity].
  - apply Z.ltb_ge in E. rewrite take_ge; [reflexivity | lia].
Qed.

Lemma maxPages_nonzero (config : Config) : maxPages config <> 0.
Proof.
  unfold maxPages, JS.js_or. destruct (config_maxPages config) as [n|]; [|discriminate].
  destruct (n =? 0) eqn:E; [discriminate | apply Z.eqb_neq, E].
Qed.

(** The limit [discoverPages] applies: when the strategy yields a page
    list the result is the normalizer's output cut to the first
    [this.maxPages] entries, the constructor's [config.maxPages] (10 when
    absent or zero); [options.maxPages] is not read here.  When the strategy
    throws the result is [["/"]]. *)
Lemma discoverPages_limit
    (fuel : nat) (config : Config) (site : Site) (strategy : string) (options : Options) :
  match strategyPages fuel config site strategy options with
  | Returns raw =>
      discoverPages fuel config site strategy options
        = Returns (limitPages config (normalizePaths raw))
  | Throws => discoverPages fuel config site strategy options = Returns ["/"]
  | OutOfFuel => discoverPages fuel config site strategy options = OutOfFuel
  end
  /\ (0 < maxPages config ->
      (forall raw, limitPages config raw = take (Z.to_nat (maxPages config)) raw)
      /\ (forall pages,
            discoverPages fuel config site strategy options = Returns pages ->
            Z.of_nat (length pages) <= maxPages config)).
Proof.
  split.
  - unfold discoverPages.
    destruct (strategyPages fuel config site strategy options); reflexivity.
  - intros Hpos. split.
    + intros raw. apply limitPages_take. lia.
    + intros pages. unfold discoverPages.
      destruct (strategyPages fuel config site strategy options) as [raw| |];
        intros Hret; [| |discriminate]; injection Hret as <-.
      * rewrite limitPages_take by lia. rewrite length_take. lia.
      * simpl. lia.
Qed.

(** C7: the returned list is not cut to [options.maxPages].  With the
    constructor's default limit of 10 and [options.maxPages = 2], the
    strategy [paths] with three paths returns all three: the final slice
    reads [this.maxPages] only.  [discoverByCrawling] does read
    [options.maxPages || this.maxPages]: a crawl of a three-page site under
    the same limits stops at two pages.  In the action, whose reduced page
    limit reaches the discovery as [options.maxPages] only, a limit of 2
    with three listed paths hands three pages on to the scanner. *)
Theorem discover_ignores_options_maxPages :
  discoverPages 0 defaultConfig emptySite "paths" threePaths = Returns ["/a"; "/b"; "/c"]
  /\ options_maxPages threePaths = Some 2
  /\ ~ (forall pages,
          discoverPages 0 defaultConfig emptySite "paths" threePaths = Returns pages ->
          Z.of_nat (length pages) <= 2)
  /\ discoverByCrawling 10 defaultConfig cyclicLinks (Some "site.test")
       (crawlOptions (Some 2)) = Returns ["/"; "/a"]
  /\ ActionRun.discoverPages 0 {| config_maxPages := Some 10 |} emptySite "paths" (Some 2)
       ("/a" +:+ String newline ("/b" +:+ String newline "/c"))
     = Returns ["/a"; "/b"; "/c"].
Proof.
  split; [reflexivity | split; [reflexivity|split; [|split; reflexivity]]].
  intros H. specialize (H _ eq_refl). simpl in H. lia.
Qed.

End Discovery.

(** ** binary64 arithmetic

    What the operations of [SpecFloat] compute on the operands that occur in
    the score formula: a finite result with a 53-bit significand within half
    a unit in the last place of the exact value. *)

Section Binary64.
Import JS Rounding.

(** *** Digits *)

Lemma digits2_pos_size (p : positive) : digits2_pos p = Pos.size p.
Proof. induction p as [p IH|p IH|]; simpl; rewrite ?IH; reflexivity. Qed.

Lemma Zdigits2_log2 (m : Z) : 0 < m -> Zdigits2 m = Z.log2 m + 1.
Proof.
  destruct m as [|p|p]; try lia. intros _. simpl. rewrite digits2_pos_size.
  destruct p as [p|p|]; simpl; lia.
Qed.

Lemma Zdigits2_bounds (m : Z) :
  0 < m -> 2 ^ (Zdigits2 m - 1) <= m < 2 ^ Zdigits2 m.
Proof.
  intros Hm. rewrite (Zdigits2_log2 m Hm).
  replace (Z.log2 m + 1 - 1) with (Z.log2 m) by lia.
  replace (Z.log2 m + 1) with (Z.succ (Z.log2 m)) by lia.
  apply Z.log2_spec, Hm.
Qed.

Lemma Zdigits2_unique (m d : Z) :
  2 ^ (d - 1) <= m < 2 ^ d -> 0 < d -> Zdigits2 m = d.
Proof.
  intros Hb Hd.
  assert (Hm : 0 < m) by (pose proof (Z.pow_pos_nonneg 2 (d - 1)); lia).
  rewrite (Zdigits2_log2 m Hm).
  rewrite (Z.log2_unique m (d - 1)); [lia | lia |].
  replace (Z.succ (d - 1)) with d by lia. exact Hb.
Qed.

(** *** Shifting right with a round and a sticky bit *)

Lemma iter_pos_nat {A} (f : A -> A) (p : positive) (x : A) :
  SpecFloat.iter_pos f p x = Nat.iter (Pos.to_nat p) f x.
Proof.
  revert x. induction p as [p IH|p IH|]; intros x.
  - cbn [SpecFloat.iter_pos]. rewrite !IH, Pos2Nat.inj_xI.
    replace (S (2 * Pos.to_nat p)) with (Pos.to_nat p + S (Pos.to_nat p))%nat by lia.
    rewrite Nat.iter_add, Nat.iter_succ_r. reflexivity.
  - cbn [SpecFloat.iter_pos]. rewrite !IH, Pos2Nat.inj_xO.
    replace (2 * Pos.to_nat p)%nat with (Pos.to_nat p + Pos.to_nat p)%nat by lia.
    rewrite Nat.iter_add. reflexivity.
  - reflexivity.
Qed.

Lemma loc_of_shr_record_of_loc (m : Z) (l : location) :
  loc_of_shr_record (shr_record_of_loc m l) = l
  /\ shr_m (shr_record_of_loc m l) = m.
Proof. destruct l as [|[| |]]; split; reflexivity. Qed.

Lemma div2_xI (p : positive) : Z.pos p~1 / 2 = Z.pos p /\ Z.pos p~1 mod 2 = 1.
Proof. rewrite Pos2Z.inj_xI. Z.div_mod_to_equations. lia. Qed.

Lemma div2_xO (p : positive) : Z.pos p~0 / 2 = Z.pos p /\ Z.pos p~0 mod 2 = 0.
Proof. rewrite Pos2Z.inj_xO. Z.div_mod_to_equations. lia. Qed.

(** One shift: the dropped bit joins the fraction. *)
Lemma shr_1_loc (m R D : Z) :
  0 <= m -> 0 <= R < D ->
  shr_1 (shr_record_of_loc m (loc_of R D))
    = shr_record_of_loc (m / 2) (loc_of ((m mod 2) * D + R) (2 * D)).
Proof.
  intros Hm HR. unfold loc_of.
  assert (Hcmp1 : forall b, 0 <= b <= 1 -> R <> 0 -> (b * D + R =? 0) = false)
    by (intros b Hb HR0; apply Z.eqb_neq; nia).
  assert (HLt : R <> 0 -> (2 * (0 * D + R) ?= 2 * D) = Lt)
    by (intros _; apply Z.compare_lt_iff; lia).
  assert (HGt : R <> 0 -> (2 * (1 * D + R) ?= 2 * D) = Gt)
    by (intros HR0; apply Z.compare_gt_iff; lia).
  assert (HD : (1 * D =? 0) = false) by (apply Z.eqb_neq; lia).
  assert (HEq : (2 * (1 * D) ?= 2 * D) = Eq) by (apply Z.compare_eq_iff; lia).
  destruct m as [|[p|p|]|p]; try lia.
  - change (0 / 2) with 0; change (0 mod 2) with 0.
    destruct (R =? 0) eqn:ER; [apply Z.eqb_eq in ER | apply Z.eqb_neq in ER].
    + subst R. reflexivity.
    + rewrite Hcmp1, HLt by (lia || assumption).
      destruct (2 * R ?= D); reflexivity.
  - destruct (div2_xI p) as [-> ->].
    destruct (R =? 0) eqn:ER; [apply Z.eqb_eq in ER | apply Z.eqb_neq in ER].
    + subst R. rewrite Z.add_0_r, HD, HEq. reflexivity.
    + rewrite Hcmp1, HGt by (lia || assumption).
      destruct (2 * R ?= D); reflexivity.
  - destruct (div2_xO p) as [-> ->].
    destruct (R =? 0) eqn:ER; [apply Z.eqb_eq in ER | apply Z.eqb_neq in ER].
    + subst R. reflexivity.
    + rewrite Hcmp1, HLt by (lia || assumption).
      destruct (2 * R ?= D); reflexivity.
  - change (1 / 2) with 0; change (1 mod 2) with 1.
    destruct (R =? 0) eqn:ER; [apply Z.eqb_eq in ER | apply Z.eqb_neq in ER].
    + subst R. rewrite Z.add_0_r, HD, HEq. reflexivity.
    + rewrite Hcmp1, HGt by (lia || assumption).
      destruct (2 * R ?= D); reflexivity.
Qed.

(** [n] shifts: the [n] dropped bits join the fraction. *)
Lemma shr_iter_loc (n : nat) (m R D : Z) :
  0 <= m -> 0 <= R < D ->
  Nat.iter n shr_1 (shr_record_of_loc m (loc_of R D))
    = shr_record_of_loc (m / 2 ^ Z.of_nat n)
        (loc_of ((m mod 2 ^ Z.of_nat n) * D + R) (2 ^ Z.of_nat n * D)).
Proof.
  intros Hm HR. induction n as [|n IH].
  - simpl. rewrite Z.div_1_r, Z.mod_1_r, Z.mul_1_l. reflexivity.
  - rewrite Nat.iter_succ, IH.
    assert (Hp : 0 < 2 ^ Z.of_nat n) by (apply Z.pow_pos_nonneg; lia).
    pose proof (Z.mod_pos_bound m (2 ^ Z.of_nat n) Hp) as Hmod.
    rewrite shr_1_loc; [| apply Z.div_pos; lia | nia].
    replace (Z.of_nat (S n)) with (Z.of_nat n + 1) by lia.
    rewrite Z.pow_add_r, Z.pow_1_r by lia.
    rewrite Z.div_div by lia.
    rewrite (Z.rem_mul_r m (2 ^ Z.of_nat n) 2) by lia.
    f_equal. f_equal; ring.
Qed.

Lemma shr_loc (m R D e n : Z) :
  0 <= m -> 0 <= R < D -> 0 <= n ->
  shr (shr_record_of_loc m (loc_of R D)) e n
    = (shr_record_of_loc (m / 2 ^ n) (loc_of ((m mod 2 ^ n) * D + R) (2 ^ n * D)),
       e + n).
Proof.
  intros Hm HR Hn. destruct n as [|p|p]; try lia.
  - unfold shr. rewrite Z.pow_0_r, Z.div_1_r, Z.mod_1_r, Z.add_0_r.
    replace (0 * D + R) with R by ring. replace (1 * D) with D by ring.
    reflexivity.
  - unfold shr. rewrite iter_pos_nat, shr_iter_loc by assumption.
    rewrite positive_nat_Z. reflexivity.
Qed.

(** Rounding to nearest, ties to even, moves by at most half a unit. *)
Lemma round_nearest_even_loc (m R D : Z) :
  0 <= R < D ->
  let m' := round_nearest_even m (loc_of R D) in
  m <= m' <= m + 1 /\ 2 * Z.abs (m' * D - (m * D + R)) <= D.
Proof.
  intros HR.
  assert (Hdown : m <= m <= m + 1 /\ (2 * R <= D -> 2 * Z.abs (m * D - (m * D + R)) <= D)).
  { split; [lia|]. intros H. replace (m * D - (m * D + R)) with (- R) by ring. lia. }
  assert (Hup : m <= m + 1 <= m + 1
                /\ (D <= 2 * R -> 2 * Z.abs ((m + 1) * D - (m * D + R)) <= D)).
  { split; [lia|]. intros H. replace ((m + 1) * D - (m * D + R)) with (D - R) by ring. lia. }
  unfold loc_of.
  destruct (R =? 0) eqn:ER; [apply Z.eqb_eq in ER | apply Z.eqb_neq in ER];
    cbn [round_nearest_even].
  - split; [apply Hdown | apply Hdown; lia].
  - destruct (2 * R ?= D) eqn:C; cbn [round_nearest_even].
    + apply Z.compare_eq_iff in C.
      match goal with |- context [if ?b then _ else _] => destruct b end.
      * split; [apply Hdown | apply Hdown; lia].
      * split; [apply Hup | apply Hup; lia].
    + apply -> Z.compare_lt_iff in C. split; [apply Hdown | apply Hdown; lia].
    + apply -> Z.compare_gt_iff in C. split; [apply Hup | apply Hup; lia].
Qed.

(** *** Rounding a significand to 53 bits *)

Lemma shr_fexp_loc (mx ex R D : Z) :
  0 < mx -> 0 <= R < D ->
  0 <= Zdigits2 mx - 53 ->
  -1074 <= ex + (Zdigits2 mx - 53) ->
  shr_fexp prec emax mx ex (loc_of R D)
    = (shr_record_of_loc (mx / 2 ^ (Zdigits2 mx - 53))
         (loc_of ((mx mod 2 ^ (Zdigits2 mx - 53)) * D + R)
                 (2 ^ (Zdigits2 mx - 53) * D)),
       ex + (Zdigits2 mx - 53)).
Proof.
  intros Hmx HR Hn Hex. unfold shr_fexp, fexp, emin, prec, emax.
  replace (Z.max (Zdigits2 mx + ex - 53) (3 - 1024 - 53) - ex)
    with (Zdigits2 mx - 53) by lia.
  apply shr_loc; lia.
Qed.

(** In the normal range [binary_round_aux] returns a finite number with a
    53-bit significand, within half a unit in the last place of the value
    [(mx + R/D) * 2^ex] it is given. *)
Lemma binary_round_aux_correct (sx : bool) (mx ex R D : Z) :
  0 < mx -> 0 <= R < D ->
  53 <= Zdigits2 mx ->
  -1074 <= ex + Zdigits2 mx - 53 ->
  ex + Zdigits2 mx - 53 + 1 <= 971 ->
  exists (m : positive) (n : Z),
    binary_round_aux prec emax sx mx ex (loc_of R D) = S754_finite sx m (ex + n)
    /\ Zdigits2 mx - 53 <= n <= Zdigits2 mx - 52
    /\ 2 ^ 52 <= Z.pos m < 2 ^ 53
    /\ 2 * Z.abs (Z.pos m * (2 ^ n * D) - (mx * D + R)) <= 2 ^ n * D
    /\ (R = 0 -> mx mod 2 ^ (Zdigits2 mx - 53) = 0 ->
        n = Zdigits2 mx - 53 /\ Z.pos m * 2 ^ n = mx).
Proof.
  intros Hmx HR Hd Hlo Hhi.
  set (n0 := Zdigits2 mx - 53) in *.
  assert (Hn0 : 0 <= n0) by lia.
  assert (Hp : 0 < 2 ^ n0) by (apply Z.pow_pos_nonneg; lia).
  set (m0 := mx / 2 ^ n0).
  set (R0 := (mx mod 2 ^ n0) * D + R).
  set (D0 := 2 ^ n0 * D).
  pose proof (Z.mod_pos_bound mx (2 ^ n0) Hp) as Hmod.
  pose proof (Z.div_mod mx (2 ^ n0) ltac:(lia)) as Hdm. fold m0 in Hdm.
  assert (HR0 : 0 <= R0 < D0) by (unfold R0, D0; nia).
  assert (Hval : m0 * D0 + R0 = mx * D + R) by (unfold R0, D0; nia).
  assert (Hm0 : 2 ^ 52 <= m0 < 2 ^ 53).
  { pose proof (Zdigits2_bounds mx Hmx) as Hb.
    replace (Zdigits2 mx - 1) with (52 + n0) in Hb by (unfold n0; lia).
    replace (Zdigits2 mx) with (53 + n0) in Hb by (unfold n0; lia).
    rewrite !Z.pow_add_r in Hb by lia.
    unfold m0. split.
    - apply Z.div_le_lower_bound; lia.
    - apply Z.div_lt_upper_bound; lia. }
  unfold binary_round_aux.
  rewrite (shr_fexp_loc mx ex R D Hmx HR) by (fold n0; lia).
  fold n0 m0 R0 D0.
  destruct (loc_of_shr_record_of_loc m0 (loc_of R0 D0)) as [-> ->].
  destruct (round_nearest_even_loc m0 R0 D0 HR0) as [Hm1 Herr].
  set (m1 := round_nearest_even m0 (loc_of R0 D0)) in *.
  rewrite Hval in Herr.
  change loc_Exact with (loc_of 0 1).
  destruct (Z.eq_dec m1 (2 ^ 53)) as [Hcarry|Hnocarry].
  - (* the significand was rounded up to 2^53 *)
    rewrite Hcarry in *.
    assert (Hd54 : Zdigits2 (2 ^ 53) = 54) by reflexivity.
    assert (Hp53 : 0 < 2 ^ 53) by reflexivity.
    rewrite (shr_fexp_loc (2 ^ 53) (ex + n0) 0 1 Hp53) by (rewrite ?Hd54; lia).
    rewrite Hd54.
    change (2 ^ 53 / 2 ^ (54 - 53)) with (Z.pos (2 ^ 52)).
    destruct (loc_of_shr_record_of_loc (Z.pos (2 ^ 52))
                (loc_of (2 ^ 53 mod 2 ^ (54 - 53) * 1 + 0) (2 ^ (54 - 53) * 1)))
      as [_ ->].
    replace (ex + n0 + (54 - 53) <=? emax - prec) with true
      by (symmetry; apply Z.leb_le; unfold emax, prec; lia).
    exists (2 ^ 52)%positive, (n0 + 1).
    split; [f_equal; lia|]. split; [lia|].
    split; [split; [reflexivity | reflexivity]|].
    split.
    + rewrite Z.pow_add_r by lia. change (Z.pos (2 ^ 52)) with (2 ^ 52).
      replace (2 ^ 52 * (2 ^ n0 * 2 ^ 1 * D)) with (2 ^ 53 * D0)
        by (unfold D0; change (2 ^ 53) with (2 ^ 52 * 2); change (2 ^ 1) with 2; ring).
      unfold D0 in *. change (2 ^ 1) with 2. lia.
    + intros HRz Hmodz. exfalso.
      assert (R0 = 0) by (unfold R0; rewrite HRz, Hmodz; ring).
      rewrite <- Hval in Herr. nia.
  - assert (Hm1' : 2 ^ 52 <= m1 < 2 ^ 53) by lia.
    assert (Hd1 : Zdigits2 m1 = 53) by (apply Zdigits2_unique; [exact Hm1' | lia]).
    rewrite shr_fexp_loc; rewrite ?Hd1; try lia.
    change (53 - 53) with 0.
    rewrite Z.pow_0_r, Z.div_1_r.
    destruct (loc_of_shr_record_of_loc m1 (loc_of (m1 mod 1 * 1 + 0) (1 * 1))) as [_ ->].
    destruct m1 as [|m|m] eqn:Em1; try lia.
    replace (ex + n0 + 0 <=? emax - prec) with true
      by (symmetry; apply Z.leb_le; unfold emax, prec; lia).
    exists m, n0.
    split; [f_equal; lia|]. split; [lia|]. split; [exact Hm1'|].
    split; [exact Herr|].
    intros HRz Hmodz. split; [reflexivity|].
    assert (HR0z : R0 = 0) by (unfold R0; rewrite HRz, Hmodz; ring).
    assert (Z.pos m = m0) by (rewrite <- Hval in Herr; nia).
    rewrite Hmodz in Hdm. lia.
Qed.

Lemma Zdigits2_range (m lo hi : Z) :
  2 ^ lo <= m < 2 ^ hi -> 0 <= lo -> lo < Zdigits2 m <= hi.
Proof.
  intros Hb Hlo.
  assert (Hplo : 0 < 2 ^ lo) by (apply Z.pow_pos_nonneg; lia).
  assert (Hm : 0 < m) by lia.
  pose proof (Zdigits2_bounds m Hm) as Hd.
  pose proof (Z.log2_nonneg m) as Hlog.
  pose proof (Zdigits2_log2 m Hm) as Hdl.
  assert (Hhi : 0 <= hi).
  { destruct (Z.le_gt_cases 0 hi) as [H|H]; [exact H|].
    rewrite (Z.pow_neg_r 2 hi H) in Hb. lia. }
  split.
  - apply (Z.pow_lt_mono_r_iff 2); lia.
  - assert (Zdigits2 m - 1 < hi) by (apply (Z.pow_lt_mono_r_iff 2); lia). lia.
Qed.

(** *** Division and multiplication of normal numbers *)

Lemma new_location_loc (D R : Z) :
  0 <= R < D -> new_location D R = loc_of R D.
Proof.
  intros HR. unfold new_location, new_location_even, new_location_odd, loc_of.
  destruct (Z.even D) eqn:E; [reflexivity|].
  destruct (R =? 0); [reflexivity|]. f_equal.
  assert (Hodd : Z.odd D = true) by (rewrite <- Z.negb_even, E; reflexivity).
  apply Z.odd_spec in Hodd. destruct Hodd as [k Hk].
  destruct (2 * R + 1 ?= D) eqn:C1; destruct (2 * R ?= D) eqn:C2;
    try reflexivity; exfalso;
    try apply Z.compare_eq_iff in C1; try apply -> Z.compare_lt_iff in C1;
    try apply -> Z.compare_gt_iff in C1;
    try apply Z.compare_eq_iff in C2; try apply -> Z.compare_lt_iff in C2;
    try apply -> Z.compare_gt_iff in C2; lia.
Qed.

Lemma SFdiv_normal (s1 s2 : bool) (m1 m2 : positive) (e1 e2 : Z) :
  2 ^ 52 <= Z.pos m1 < 2 ^ 53 ->
  2 ^ 52 <= Z.pos m2 < 2 ^ 53 ->
  -1000 <= e1 - e2 <= 1000 ->
  exists (m : positive) (n : Z),
    div (S754_finite s1 m1 e1) (S754_finite s2 m2 e2)
      = S754_finite (xorb s1 s2) m (e1 - e2 - 53 + n)
    /\ 0 <= n <= 2
    /\ 2 ^ 52 <= Z.pos m < 2 ^ 53
    /\ 2 * Z.abs (Z.pos m * (2 ^ n * Z.pos m2) - Z.pos m1 * 2 ^ 53) <= 2 ^ n * Z.pos m2.
Proof.
  intros Hm1 Hm2 He.
  unfold div, SFdiv, SFdiv_core_binary.
  rewrite (Zdigits2_unique (Z.pos m1) 53), (Zdigits2_unique (Z.pos m2) 53) by (assumption || lia).
  unfold fexp, emin, prec, emax.
  replace (Z.min (Z.max (53 + e1 - (53 + e2) - 53) (3 - 1024 - 53)) (e1 - e2))
    with (e1 - e2 - 53) by lia.
  replace (e1 - e2 - (e1 - e2 - 53)) with 53 by lia.
  rewrite Z.shiftl_mul_pow2 by lia.
  pose proof (Z_div_mod (Z.pos m1 * 2 ^ 53) (Z.pos m2) ltac:(lia)) as Hdm.
  destruct (Z.div_eucl (Z.pos m1 * 2 ^ 53) (Z.pos m2)) as [q r].
  destruct Hdm as [Hq Hr].
  rewrite new_location_loc by exact Hr.
  assert (Hqb : 2 ^ 52 <= q < 2 ^ 54).
  { change (2 ^ 53) with 9007199254740992 in *.
    change (2 ^ 52) with 4503599627370496 in *.
    change (2 ^ 54) with 18014398509481984. nia. }
  pose proof (Zdigits2_range q 52 54 Hqb ltac:(lia)) as Hdq.
  destruct (binary_round_aux_correct (xorb s1 s2) q (e1 - e2 - 53) r (Z.pos m2))
    as (m & n & Heq & Hn & Hm & Herr & _); try lia.
  exists m, n. unfold prec, emax in Heq. rewrite Heq.
  split; [reflexivity|]. split; [lia|]. split; [exact Hm|].
  replace (Z.pos m1 * 2 ^ 53) with (q * Z.pos m2 + r) by lia. exact Herr.
Qed.

Lemma SFmul_normal (s1 s2 : bool) (m1 m2 : positive) (e1 e2 : Z) :
  2 ^ 52 <= Z.pos m1 < 2 ^ 53 ->
  2 ^ 52 <= Z.pos m2 < 2 ^ 53 ->
  -1000 <= e1 + e2 <= 800 ->
  exists (m : positive) (n : Z),
    mul (S754_finite s1 m1 e1) (S754_finite s2 m2 e2)
      = S754_finite (xorb s1 s2) m (e1 + e2 + n)
    /\ 52 <= n <= 54
    /\ 2 ^ 52 <= Z.pos m < 2 ^ 53
    /\ 2 * Z.abs (Z.pos m * 2 ^ n - Z.pos m1 * Z.pos m2) <= 2 ^ n.
Proof.
  intros Hm1 Hm2 He.
  unfold mul, SFmul. change loc_Exact with (loc_of 0 1).
  rewrite Pos2Z.inj_mul.
  assert (Hpb : 2 ^ 104 <= Z.pos m1 * Z.pos m2 < 2 ^ 106).
  { change (2 ^ 53) with 9007199254740992 in *.
    change (2 ^ 52) with 4503599627370496 in *.
    change (2 ^ 104) with (4503599627370496 * 4503599627370496).
    change (2 ^ 106) with (9007199254740992 * 9007199254740992). nia. }
  pose proof (Zdigits2_range _ 104 106 Hpb ltac:(lia)) as Hdp.
  destruct (binary_round_aux_correct (xorb s1 s2) (Z.pos m1 * Z.pos m2) (e1 + e2) 0 1)
    as (m & n & Heq & Hn & Hm & Herr & _); try lia.
  exists m, n. rewrite Heq.
  split; [reflexivity|]. split; [lia|]. split; [exact Hm|].
  rewrite !Z.mul_1_r, Z.add_0_r in Herr. exact Herr.
Qed.

(** *** Integers as binary64 numbers *)

Lemma Pos_iter_xO (p k : positive) : Z.pos (Pos.iter xO p k) = Z.pos p * 2 ^ Z.pos k.
Proof.
  induction k as [|k IH] using Pos.peano_ind.
  - simpl. lia.
  - rewrite Pos.iter_succ, Pos2Z.inj_xO, IH, Pos2Z.inj_succ, Z.pow_succ_r by lia. ring.
Qed.

(** An integer of at most a thousand bits becomes a finite number of its
    sign with a 53-bit significand; one below 2^53 is represented exactly. *)
Lemma binary_round_int (sx : bool) (p : positive) :
  Z.pos p < 2 ^ 1000 ->
  exists (m : positive) (e : Z),
    binary_round prec emax sx p 0 = S754_finite sx m e
    /\ 2 ^ 52 <= Z.pos m < 2 ^ 53
    /\ (Z.pos p < 2 ^ 53 -> -52 <= e <= 0 /\ Z.pos m = Z.pos p * 2 ^ (- e)).
Proof.
  intros Hp.
  assert (Hd : 0 < Zdigits2 (Z.pos p) <= 1000)
    by (apply (Zdigits2_range (Z.pos p) 0 1000); [change (2 ^ 0) with 1|]; lia).
  unfold binary_round.
  change (Z.pos (digits2_pos p)) with (Zdigits2 (Z.pos p)).
  set (d := Zdigits2 (Z.pos p)) in *.
  unfold fexp, emin, prec, emax.
  replace (Z.max (d + 0 - 53) (3 - 1024 - 53)) with (d - 53) by lia.
  unfold shl_align. change loc_Exact with (loc_of 0 1).
  destruct (d - 53 - 0) as [|k|k] eqn:Ek.
  - (* exactly 53 bits *)
    destruct (binary_round_aux_correct sx (Z.pos p) 0 0 1)
      as (m & n & Heq & Hn & Hm & _ & Hexact); fold d; try lia.
    destruct Hexact as [Hn0 Hmn]; [reflexivity | |].
    { fold d. replace (d - 53) with 0 by lia. apply Z.mod_1_r. }
    fold d in Hn0.
    exists m, (0 + n). unfold prec, emax in Heq.
    split; [exact Heq|]. split; [exact Hm|]. intros _.
    replace n with 0 in * by lia. rewrite Z.pow_0_r in Hmn.
    change (- (0 + 0)) with 0. rewrite Z.pow_0_r. lia.
  - (* more than 53 bits: rounded *)
    destruct (binary_round_aux_correct sx (Z.pos p) 0 0 1)
      as (m & n & Heq & Hn & Hm & _); fold d; try lia.
    exists m, (0 + n). unfold prec, emax in Heq.
    split; [exact Heq|]. split; [exact Hm|]. intros Hsmall.
    assert (d <= 53)
      by (apply (Zdigits2_range (Z.pos p) 0 53); [change (2 ^ 0) with 1|]; lia).
    lia.
  - (* fewer than 53 bits: aligned to 53 *)
    assert (Hshift : Z.pos (Pos.iter xO p k) = Z.pos p * 2 ^ (53 - d))
      by (rewrite Pos_iter_xO; f_equal; f_equal; lia).
    assert (Hp2 : 0 < 2 ^ (53 - d)) by (apply Z.pow_pos_nonneg; lia).
    assert (Hds : Zdigits2 (Z.pos (Pos.iter xO p k)) = 53).
    { apply Zdigits2_unique; [|lia]. rewrite Hshift.
      pose proof (Zdigits2_bounds (Z.pos p) ltac:(lia)) as Hb. fold d in Hb.
      assert (H1 : 2 ^ (53 - 1) = 2 ^ (d - 1) * 2 ^ (53 - d))
        by (rewrite <- Z.pow_add_r by lia; f_equal; lia).
      assert (H2 : 2 ^ 53 = 2 ^ d * 2 ^ (53 - d))
        by (rewrite <- Z.pow_add_r by lia; f_equal; lia).
      rewrite H1, H2. nia. }
    destruct (binary_round_aux_correct sx (Z.pos (Pos.iter xO p k)) (d - 53) 0 1)
      as (m & n & Heq & Hn & Hm & _ & Hexact); rewrite ?Hds; try lia.
    destruct Hexact as [Hn0 Hmn]; [reflexivity | |].
    { rewrite Hds. apply Z.mod_1_r. }
    rewrite Hds in Hn0. replace n with 0 in * by lia.
    exists m, (d - 53 + 0). unfold prec, emax in Heq.
    split; [exact Heq|]. split; [exact Hm|]. intros _.
    split; [lia|]. replace (- (d - 53 + 0)) with (53 - d) by lia.
    rewrite Z.pow_0_r in Hmn. lia.
Qed.

Lemma of_Z_pos (z : Z) :
  0 < z < 2 ^ 53 ->
  exists (m : positive) (k : Z),
    of_Z z = S754_finite false m (- k)
    /\ 0 <= k <= 52 /\ Z.pos m = z * 2 ^ k /\ 2 ^ 52 <= Z.pos m < 2 ^ 53.
Proof.
  intros Hz. destruct z as [|p|p]; try lia.
  destruct (binary_round_int false p) as (m & e & Heq & Hm & Hsmall).
  { assert (2 ^ 53 < 2 ^ 1000) by (apply Z.pow_lt_mono_r; lia). lia. }
  destruct (Hsmall ltac:(lia)) as [He Hval].
  exists m, (- e). rewrite Z.opp_involutive.
  split; [exact Heq|]. split; [lia|]. split; [exact Hval | exact Hm].
Qed.

Lemma of_Z_neg (z : Z) :
  - 2 ^ 53 < z < 0 ->
  exists (m : positive) (k : Z),
    of_Z z = S754_finite true m (- k)
    /\ 0 <= k <= 52 /\ Z.pos m = - z * 2 ^ k /\ 2 ^ 52 <= Z.pos m < 2 ^ 53.
Proof.
  intros Hz. destruct z as [|p|p]; try lia.
  destruct (binary_round_int true p) as (m & e & Heq & Hm & Hsmall).
  { assert (2 ^ 53 < 2 ^ 1000) by (apply Z.pow_lt_mono_r; lia). lia. }
  destruct (Hsmall ltac:(lia)) as [He Hval].
  exists m, (- e). rewrite Z.opp_involutive.
  split; [exact Heq|]. split; [lia|]. split; [exact Hval | exact Hm].
Qed.

End Binary64.

(** *** Values as real numbers *)

Section Binary64Real.
Import JS Rounding.
Local Open Scope R_scope.

Lemma powerRZ_2_pos (e : Z) : 0 < powerRZ 2 e.
Proof. apply powerRZ_lt. lra. Qed.

Lemma powerRZ_2_add (a b : Z) : powerRZ 2 (a + b) = powerRZ 2 a * powerRZ 2 b.
Proof. apply powerRZ_add. lra. Qed.

Lemma IZR_pow2 (n : Z) : (0 <= n)%Z -> IZR (2 ^ n) = powerRZ 2 n.
Proof.
  intros Hn. rewrite <- (Z2Nat.id n Hn) at 1 2.
  rewrite <- pow_IZR, pow_powerRZ. reflexivity.
Qed.

(** An integer inequality "within half a unit" read in the reals. *)
Lemma half_ulp_real (m A B n ex : Z) :
  (0 < B)%Z -> (0 <= n)%Z ->
  (2 * Z.abs (m * (2 ^ n * B) - A) <= 2 ^ n * B)%Z ->
  Rabs (IZR m * powerRZ 2 (ex + n) - IZR A / IZR B * powerRZ 2 ex)
    <= powerRZ 2 (ex + n) / 2.
Proof.
  intros HB Hn Hz.
  apply IZR_le in Hz.
  rewrite !mult_IZR, abs_IZR, minus_IZR, !mult_IZR, (IZR_pow2 n Hn) in Hz.
  rewrite powerRZ_2_add.
  pose proof (powerRZ_2_pos ex) as Hpe. pose proof (powerRZ_2_pos n) as Hpn.
  assert (Hb : 0 < IZR B) by (apply IZR_lt; exact HB).
  set (pe := powerRZ 2 ex) in *. set (t := powerRZ 2 n) in *. set (b := IZR B) in *.
  replace (IZR m * (pe * t) - IZR A / b * pe)
    with (pe / b * (IZR m * (t * b) - IZR A)) by (field; lra).
  rewrite Rabs_mult, (Rabs_pos_eq (pe / b)).
  2:{ apply Rlt_le, Rdiv_lt_0_compat; assumption. }
  replace (pe * t / 2) with (pe / b * (t * b / 2)) by (field; lra).
  apply Rmult_le_compat_l; [apply Rlt_le, Rdiv_lt_0_compat; assumption | lra].
Qed.

Lemma powerRZ_2_sub (a b : Z) : powerRZ 2 (a - b) * powerRZ 2 b = powerRZ 2 a.
Proof. rewrite <- powerRZ_2_add. f_equal. lia. Qed.

(** Division of two positive normal numbers is correctly rounded. *)
Lemma div_real (m1 m2 : positive) (e1 e2 : Z) :
  (2 ^ 52 <= Z.pos m1 < 2 ^ 53)%Z ->
  (2 ^ 52 <= Z.pos m2 < 2 ^ 53)%Z ->
  (-1000 <= e1 - e2 <= 1000)%Z ->
  exists (m : positive) (e : Z),
    div (S754_finite false m1 e1) (S754_finite false m2 e2) = S754_finite false m e
    /\ (2 ^ 52 <= Z.pos m < 2 ^ 53)%Z
    /\ (e1 - e2 - 53 <= e <= e1 - e2 - 51)%Z
    /\ Rabs (IZR (Z.pos m) * powerRZ 2 e
             - (IZR (Z.pos m1) * powerRZ 2 e1) / (IZR (Z.pos m2) * powerRZ 2 e2))
        <= powerRZ 2 e / 2.
Proof.
  intros Hm1 Hm2 He.
  destruct (SFdiv_normal false false m1 m2 e1 e2 Hm1 Hm2 He)
    as (m & n & Heq & Hn & Hm & Herr).
  exists m, (e1 - e2 - 53 + n)%Z.
  split; [exact Heq|]. split; [exact Hm|]. split; [lia|].
  pose proof (half_ulp_real (Z.pos m) (Z.pos m1 * 2 ^ 53) (Z.pos m2) n (e1 - e2 - 53)
                ltac:(lia) ltac:(lia) Herr) as Hreal.
  replace (IZR (Z.pos m1) * powerRZ 2 e1 / (IZR (Z.pos m2) * powerRZ 2 e2))
    with (IZR (Z.pos m1 * 2 ^ 53) / IZR (Z.pos m2) * powerRZ 2 (e1 - e2 - 53));
    [exact Hreal|].
  rewrite mult_IZR, (IZR_pow2 53) by lia.
  pose proof (powerRZ_2_sub (e1 - e2) 53) as H53.
  pose proof (powerRZ_2_sub e1 e2) as H12.
  pose proof (powerRZ_2_pos e2) as Hp2. pose proof (powerRZ_2_pos 53) as Hp53.
  assert (Hb : 0 < IZR (Z.pos m2)) by (apply IZR_lt; lia).
  rewrite <- H12, <- H53. field. lra.
Qed.

(** Multiplication of two positive normal numbers is correctly rounded. *)
Lemma mul_real (m1 m2 : positive) (e1 e2 : Z) :
  (2 ^ 52 <= Z.pos m1 < 2 ^ 53)%Z ->
  (2 ^ 52 <= Z.pos m2 < 2 ^ 53)%Z ->
  (-1000 <= e1 + e2 <= 800)%Z ->
  exists (m : positive) (e : Z),
    mul (S754_finite false m1 e1) (S754_finite false m2 e2) = S754_finite false m e
    /\ (2 ^ 52 <= Z.pos m < 2 ^ 53)%Z
    /\ (e1 + e2 + 52 <= e <= e1 + e2 + 54)%Z
    /\ Rabs (IZR (Z.pos m) * powerRZ 2 e
             - (IZR (Z.pos m1) * powerRZ 2 e1) * (IZR (Z.pos m2) * powerRZ 2 e2))
        <= powerRZ 2 e / 2.
Proof.
  intros Hm1 Hm2 He.
  destruct (SFmul_normal false false m1 m2 e1 e2 Hm1 Hm2 He)
    as (m & n & Heq & Hn & Hm & Herr).
  exists m, (e1 + e2 + n)%Z.
  split; [exact Heq|]. split; [exact Hm|]. split; [lia|].
  rewrite <- (Z.mul_1_r (2 ^ n)) in Herr.
  pose proof (half_ulp_real (Z.pos m) (Z.pos m1 * Z.pos m2) 1 n (e1 + e2)
                ltac:(lia) ltac:(lia) Herr) as Hreal.
  replace (IZR (Z.pos m1) * powerRZ 2 e1 * (IZR (Z.pos m2) * powerRZ 2 e2))
    with (IZR (Z.pos m1 * Z.pos m2) / IZR 1 * powerRZ 2 (e1 + e2));
    [exact Hreal|].
  rewrite mult_IZR, powerRZ_2_add. field.
Qed.

(** [Math.round] of a positive number: the integer within a half, halves
    going up. *)
Lemma round_value_real (m : positive) (e : Z) :
  IZR (round_value false m e) - / 2 <= IZR (Z.pos m) * powerRZ 2 e
    < IZR (round_value false m e) + / 2.
Proof.
  unfold round_value. destruct (0 <=? e)%Z eqn:E.
  - apply Z.leb_le in E. rewrite mult_IZR, (IZR_pow2 e E). lra.
  - apply Z.leb_gt in E.
    assert (Hk : (0 < 2 ^ (- e))%Z) by (apply Z.pow_pos_nonneg; lia).
    pose proof (round_div_nearest (Z.pos m) (2 ^ (- e)) Hk) as Hnear.
    unfold round_div in Hnear.
    set (z := ((2 * Z.pos m + 2 ^ (- e)) / (2 * 2 ^ (- e)))%Z) in *.
    destruct Hnear as [Hlo Hhi]. apply IZR_le in Hlo. apply IZR_lt in Hhi.
    rewrite opp_IZR in Hlo.
    rewrite minus_IZR, !mult_IZR, (IZR_pow2 (- e)) in Hlo, Hhi by lia.
    pose proof (powerRZ_2_pos (- e)) as Hpk.
    pose proof (powerRZ_2_sub 0 (- e)) as Hinv.
    replace (0 - - e)%Z with e in Hinv by lia. simpl (powerRZ 2 0) in Hinv.
    set (t := powerRZ 2 (- e)) in *. set (u := powerRZ 2 e) in *.
    assert (Hu : u = / t) by (apply Rmult_eq_reg_r with t; [rewrite Hinv; field|]; lra).
    rewrite Hu.
    assert (H1 : IZR (Z.pos m) * / t - IZR z = (2 * IZR (Z.pos m) - 2 * t * IZR z) / (2 * t))
      by (field; lra).
    assert (Hlo' : - / 2 <= (2 * IZR (Z.pos m) - 2 * t * IZR z) / (2 * t)).
    { apply Rmult_le_reg_r with (2 * t); [lra|]. field_simplify; lra. }
    assert (Hhi' : (2 * IZR (Z.pos m) - 2 * t * IZR z) / (2 * t) < / 2).
    { apply Rmult_lt_reg_r with (2 * t); [lra|]. field_simplify; lra. }
    lra.
Qed.

Lemma Rabs_le_between (x y : R) : Rabs x <= y -> - y <= x <= y.
Proof. unfold Rabs. destruct (Rcase_abs x); lra. Qed.

Lemma scaled_value (m : positive) (z k : Z) :
  (0 <= k)%Z -> Z.pos m = (z * 2 ^ k)%Z ->
  IZR (Z.pos m) * powerRZ 2 (- k) = IZR z.
Proof.
  intros Hk Hm. rewrite Hm, mult_IZR, (IZR_pow2 k Hk), Rmult_assoc.
  rewrite <- powerRZ_2_add, Z.add_opp_diag_r. simpl. ring.
Qed.

(** *** The score formula on a positive numerator

    For [0 < a <= M <= 2^44] the binary64 evaluation of
    [Math.round(a / M * 100)] is an integer nearest to the exact quotient
    [100 a / M]: the two roundings move the value by less than [2^-45],
    while [100 a / M] is at least [1 / (2 M)] away from every half-integer
    it does not hit. *)
Lemma formula_positive (a M : Z) :
  (0 < a <= M)%Z -> (M <= 2 ^ 44)%Z ->
  exists z : Z,
    Math_round (mul (div (of_Z a) (of_Z M)) (of_Z 100)) = of_Z z
    /\ (0 <= z <= 100)%Z
    /\ (2 * Z.abs (100 * a - M * z) <= M)%Z.
Proof.
  intros Ha HM.
  assert (H4453 : (2 ^ 44 < 2 ^ 53)%Z) by reflexivity.
  destruct (of_Z_pos a ltac:(lia)) as (m1 & k1 & -> & Hk1 & Hv1 & Hm1).
  destruct (of_Z_pos M ltac:(lia)) as (m2 & k2 & -> & Hk2 & Hv2 & Hm2).
  change (of_Z 100) with (S754_finite false 7036874417766400 (-46)).
  destruct (div_real m1 m2 (- k1) (- k2) Hm1 Hm2 ltac:(lia))
    as (mq & eq & -> & Hmq & Heq & Hq).
  assert (Hm100 : (2 ^ 52 <= Z.pos 7036874417766400 < 2 ^ 53)%Z) by lia.
  destruct (mul_real mq 7036874417766400 eq (-46) Hmq Hm100 ltac:(lia))
    as (mp & ep & -> & Hmp & Hep & Hp).
  rewrite (scaled_value m1 a k1), (scaled_value m2 M k2) in Hq by (lia || assumption).
  pose proof (scaled_value 7036874417766400 100 46 ltac:(lia) eq_refl) as H100.
  change (Z.opp 46) with (Z.neg 46) in H100. rewrite H100 in Hp.
  pose proof (round_value_real mp ep) as Hz.
  unfold Math_round. set (z := round_value false mp ep) in *.
  exists z.
  (* the real quantities *)
  assert (HA : 0 < IZR a) by (apply IZR_lt; lia).
  assert (HMr : 0 < IZR M) by (apply IZR_lt; lia).
  assert (HAM : IZR a <= IZR M) by (apply IZR_le; lia).
  assert (HM44 : IZR M <= 17592186044416) by (apply IZR_le; exact HM).
  pose proof (powerRZ_2_pos eq) as Huq. pose proof (powerRZ_2_pos ep) as Hup.
  assert (HQlo : 4503599627370496 * powerRZ 2 eq <= IZR (Z.pos mq) * powerRZ 2 eq).
  { apply Rmult_le_compat_r; [lra|]. apply IZR_le. lia. }
  assert (HPlo : 4503599627370496 * powerRZ 2 ep <= IZR (Z.pos mp) * powerRZ 2 ep).
  { apply Rmult_le_compat_r; [lra|]. apply IZR_le. lia. }
  set (x := IZR a / IZR M) in *.
  set (Qv := IZR (Z.pos mq) * powerRZ 2 eq) in *.
  set (Pv := IZR (Z.pos mp) * powerRZ 2 ep) in *.
  set (uq := powerRZ 2 eq) in *. set (up := powerRZ 2 ep) in *.
  set (g := / (2 * IZR M)).
  assert (Hx1 : x <= 1).
  { unfold x. apply Rmult_le_reg_r with (IZR M); [lra|]. field_simplify; lra. }
  assert (Hx0 : 0 < x) by (unfold x; apply Rdiv_lt_0_compat; lra).
  assert (Hg : / 35184372088832 <= g).
  { unfold g. apply Rinv_le_contravar; lra. }
  apply Rabs_le_between in Hq. apply Rabs_le_between in Hp.
  assert (Hnear : (2 * Z.abs (100 * a - M * z) <= M)%Z).
  { destruct (Z_le_gt_dec (2 * Z.abs (100 * a - M * z)) M) as [H|H]; [exact H|].
    exfalso.
    assert (Hcases : (1 <= 200 * a - 2 * M * z - M \/ 1 <= 2 * M * z - 200 * a - M)%Z) by lia.
    destruct Hcases as [Hc|Hc]; apply IZR_le in Hc;
      rewrite !minus_IZR, !mult_IZR in Hc.
    - assert (Hgap : g <= 100 * x - IZR z - / 2).
      { apply Rmult_le_reg_r with (2 * IZR M); [lra|].
        unfold g, x. field_simplify; lra. }
      lra.
    - assert (Hgap : g <= IZR z - / 2 - 100 * x).
      { apply Rmult_le_reg_r with (2 * IZR M); [lra|].
        unfold g, x. field_simplify; lra. }
      lra. }
  assert (Hrange : (0 <= z <= 100)%Z) by nia.
  split; [|split; [exact Hrange | exact Hnear]].
  destruct (z =? 0)%Z eqn:E; [|reflexivity].
  apply Z.eqb_eq in E. rewrite E. reflexivity.
Qed.

End Binary64Real.

Section ScoreFormula.
Import JS ScoreSpec.

(** *** The score formula on a zero or negative numerator *)

Lemma formula_zero (M : Z) :
  0 < M < 2 ^ 53 ->
  Math_round (mul (div (of_Z 0) (of_Z M)) (of_Z 100)) = of_Z 0.
Proof.
  intros HM. destruct (of_Z_pos M HM) as (m & k & -> & _). reflexivity.
Qed.

Lemma round_value_negative (m : positive) (e : Z) :
  e <= 9 -> - 2 ^ 62 <= round_value true m e <= 0 \/ Z.pos m >= 2 ^ 53.
Proof.
  intros He. destruct (Z_lt_ge_dec (Z.pos m) (2 ^ 53)) as [Hm|Hm]; [left | right; exact Hm].
  unfold round_value. destruct (0 <=? e) eqn:E.
  - apply Z.leb_le in E.
    assert (Hp : 0 < 2 ^ e <= 2 ^ 9)
      by (split; [apply Z.pow_pos_nonneg | apply Z.pow_le_mono_r]; lia).
    change (2 ^ 62) with (2 ^ 53 * 2 ^ 9). change (2 ^ 9) with 512 in *.
    change (2 ^ 53) with 9007199254740992 in *. nia.
  - apply Z.leb_gt in E.
    assert (Hp : 0 < 2 ^ (- e)) by (apply Z.pow_pos_nonneg; lia).
    split.
    + apply Z.div_le_lower_bound; [lia|].
      change (2 ^ 62) with 4611686018427387904.
      change (2 ^ 53) with 9007199254740992 in *. nia.
    + assert ((2 * Z.neg m + 2 ^ (- e)) / (2 * 2 ^ (- e)) < 1)
        by (apply Z.div_lt_upper_bound; lia).
      lia.
Qed.

Lemma clamp_negative (m : positive) (e : Z) :
  clamp (S754_finite true m e) = of_Z 0.
Proof. reflexivity. Qed.

Lemma clamp_negative_zero : clamp (S754_zero true) = of_Z 0.
Proof. reflexivity. Qed.

Lemma formula_negative (a M : Z) :
  - 2 ^ 53 < a < 0 -> 0 < M < 2 ^ 53 ->
  clamp (Math_round (mul (div (of_Z a) (of_Z M)) (of_Z 100))) = of_Z 0.
Proof.
  intros Ha HM.
  destruct (of_Z_neg a Ha) as (m1 & k1 & -> & Hk1 & _ & Hm1).
  destruct (of_Z_pos M HM) as (m2 & k2 & -> & Hk2 & _ & Hm2).
  change (of_Z 100) with (S754_finite false 7036874417766400 (-46)).
  destruct (SFdiv_normal true false m1 m2 (- k1) (- k2) Hm1 Hm2 ltac:(lia))
    as (mq & n1 & -> & Hn1 & Hmq & _).
  destruct (SFmul_normal (xorb true false) false mq 7036874417766400
              (- k1 - - k2 - 53 + n1) (-46) Hmq ltac:(lia) ltac:(lia))
    as (mp & n2 & -> & Hn2 & Hmp & _).
  cbn [xorb]. unfold Math_round.
  set (ep := - k1 - - k2 - 53 + n1 + -46 + n2).
  destruct (round_value_negative mp ep ltac:(unfold ep; lia)) as [Hz|Hbig]; [|lia].
  destruct (round_value true mp ep) as [|pz|pz] eqn:Ez; try lia.
  - apply clamp_negative_zero.
  - cbn [Z.eqb].
    destruct (binary_round_int true pz) as (m & e & Heq & _).
    { assert (2 ^ 62 < 2 ^ 1000) by (apply Z.pow_lt_mono_r; lia). lia. }
    unfold of_Z at 1, binary_normalize. rewrite Heq. apply clamp_negative.
Qed.

(** Clamping leaves the integers from 0 to 100 alone. *)
Lemma clamp_of_Z (z : Z) : 0 <= z <= 100 -> clamp (of_Z z) = of_Z z.
Proof.
  intros Hz.
  assert (Hall : Forall (fun n => clamp (of_Z (Z.of_nat n)) = of_Z (Z.of_nat n)) (seq 0 101))
    by (repeat constructor).
  rewrite Forall_forall in Hall.
  rewrite <- (Z2Nat.id z) by lia. apply Hall.
  apply list_elem_of_In, in_seq. lia.
Qed.

End ScoreFormula.

(** ** The score calculator *)

Section Score.
Import ScannerService ScoreSpec.

Lemma impactWeights_lookup (impact : string) :
  JS.isInherited impact = false ->
  JS.read_or (JS.get impactWeights impact) 1 = JS.Number (impactWeight impact).
Proof.
  intros Hplain. unfold JS.get, impactWeights, impactWeight.
  destruct (String.eqb_spec impact "critical") as [->|H1]; [reflexivity|].
  destruct (String.eqb_spec impact "serious") as [->|H2]; [reflexivity|].
  destruct (String.eqb_spec impact "moderate") as [->|H3]; [reflexivity|].
  destruct (String.eqb_spec impact "minor") as [->|H4]; [reflexivity|].
  rewrite !lookup_insert_ne by congruence.
  rewrite lookup_singleton_ne by congruence. rewrite Hplain. reflexivity.
Qed.

Lemma impactWeights_inherited (impact : string) :
  JS.isInherited impact = true ->
  JS.read_or (JS.get impactWeights impact) 1 = JS.Inherited.
Proof.
  intros Hin. unfold JS.get, impactWeights.
  destruct (String.eqb_spec impact "critical") as [->|H1]; [discriminate|].
  destruct (String.eqb_spec impact "serious") as [->|H2]; [discriminate|].
  destruct (String.eqb_spec impact "moderate") as [->|H3]; [discriminate|].
  destruct (String.eqb_spec impact "minor") as [->|H4]; [discriminate|].
  rewrite !lookup_insert_ne by congruence.
  rewrite lookup_singleton_ne by congruence. rewrite Hin. reflexivity.
Qed.

Lemma weighViolations_from (violations : list AxeRule) (acc : Z) :
  plainImpacts violations ->
  fold_left
    (fun weightedViolations violation =>
       let impactWeight := JS.read_or (JS.get impactWeights (impact violation)) 1 in
       JS.plus weightedViolations
         (JS.times impactWeight (Z.of_nat (length (nodes violation)))))
    violations (Some acc)
  = Some (acc + weightedViolations violations).
Proof.
  intros Hplain. revert acc.
  induction Hplain as [|v vs Hv _ IH]; intros acc; simpl.
  - unfold weightedViolations. simpl. f_equal. lia.
  - rewrite (impactWeights_lookup _ Hv). simpl. rewrite IH.
    unfold weightedViolations. simpl. f_equal. lia.
Qed.

(** Without inherited names among the impacts the weighted sum is the
    spec's. *)
Lemma weighViolations_sum (violations : list AxeRule) :
  plainImpacts violations ->
  weighViolations violations = Some (weightedViolations violations).
Proof.
  intros Hplain. etransitivity; [apply (weighViolations_from _ 0 Hplain) | reflexivity].
Qed.

Lemma weighViolations_nan_from (violations : list AxeRule) :
  fold_left
    (fun weightedViolations violation =>
       let impactWeight := JS.read_or (JS.get impactWeights (impact violation)) 1 in
       JS.plus weightedViolations
         (JS.times impactWeight (Z.of_nat (length (nodes violation)))))
    violations None
  = None.
Proof. induction violations as [|v vs IH]; simpl; [reflexivity | exact IH]. Qed.

(** One inherited name among the impacts makes the weighted sum NaN. *)
Lemma weighViolations_nan (violations : list AxeRule) :
  Exists (fun v => JS.isInherited (impact v) = true) violations ->
  weighViolations violations = None.
Proof.
  unfold weighViolations. generalize (Some 0) as acc.
  induction violations as [|v vs IH]; intros acc Hex; [inversion Hex|].
  simpl. destruct (JS.isInherited (impact v)) eqn:E.
  - rewrite (impactWeights_inherited _ E). simpl.
    destruct acc; simpl; apply weighViolations_nan_from.
  - apply IH. inversion Hex as [? ? H|? ? H]; [congruence | exact H].
Qed.

Lemma calculateScore_specScore (results : AxeResults) :
  plainImpacts (violations results) ->
  calculateScore results
    = specScore (violations results) (Z.of_nat (length (passes results))).
Proof.
  intros Hplain. unfold calculateScore, specScore, clamp, scoreFormula.
  rewrite (weighViolations_sum _ Hplain). reflexivity.
Qed.

(** With an inherited name among the impacts the score is NaN: the clamp
    does not catch it. *)
Lemma calculateScore_nan (results : AxeResults) :
  Exists (fun v => JS.isInherited (impact v) = true) (violations results) ->
  calculateScore results = S754_nan.
Proof.
  intros Hex. unfold calculateScore. rewrite (weighViolations_nan _ Hex).
  destruct (violations results) as [|v vs] eqn:Hv; [inversion Hex|].
  destruct (_ =? 0) eqn:E; [apply Z.eqb_eq in E; simpl in E; lia|].
  reflexivity.
Qed.

Lemma weightedViolations_nonneg (violations : list AxeRule) :
  0 <= weightedViolations violations.
Proof.
  unfold weightedViolations. induction violations as [|v vs IH]; simpl; [lia|].
  assert (0 < impactWeight (impact v))
    by (unfold impactWeight; repeat match goal with |- context [if ?b then _ else _] => destruct b end; lia).
  nia.
Qed.

(** The clamped formula returns the integer nearest to the exact value of
    [100 * (max - weighted) / max], cut to [0, 100]. *)
Lemma clamped_formula_nearest (maxPossibleWeight weighted : Z) :
  0 < maxPossibleWeight <= 2 ^ 44 ->
  0 <= weighted < 2 ^ 53 ->
  exists score : Z,
    clamp (scoreFormula maxPossibleWeight weighted) = JS.of_Z (Z.max 0 (Z.min 100 score))
    /\ 2 * Z.abs (100 * (maxPossibleWeight - weighted) - maxPossibleWeight * score)
       <= maxPossibleWeight.
Proof.
  intros HM Hw. unfold scoreFormula.
  assert (H4453 : 2 ^ 44 < 2 ^ 53) by reflexivity.
  destruct (Z.lt_trichotomy (maxPossibleWeight - weighted) 0) as [Hneg|[Hzero|Hpos]].
  - exists (JS.round_div (100 * (maxPossibleWeight - weighted)) maxPossibleWeight).
    pose proof (round_div_nearest (100 * (maxPossibleWeight - weighted)) maxPossibleWeight
                  ltac:(lia)) as Hnear.
    rewrite formula_negative by lia.
    split; [|lia].
    f_equal. nia.
  - exists 0. rewrite Hzero, formula_zero by lia.
    split; [reflexivity|lia].
  - destruct (formula_positive (maxPossibleWeight - weighted) maxPossibleWeight)
      as (z & -> & Hz & Hnear); try lia.
    exists z. rewrite clamp_of_Z by exact Hz.
    split; [f_equal; lia | exact Hnear].
Qed.

(** What holds of every input whose impacts name no inherited property:
    the result is the clamped formula as binary64 evaluates it, and for at
    most 2^42 tests and a weighted sum below 2^53 it is an integer nearest
    to the exact quotient [100 * (max - weighted) / max], cut to
    [0, 100]. *)
Lemma calculateScore_nearest (results : AxeResults) :
  let totalTests :=
    Z.of_nat (length (passes results)) + Z.of_nat (length (violations results)) in
  let weighted := weightedViolations (violations results) in
  let maxPossibleWeight := totalTests * 4 in
  plainImpacts (violations results) ->
  calculateScore results
    = (if totalTests =? 0 then JS.of_Z 100
       else clamp (scoreFormula maxPossibleWeight weighted))
  /\ (0 < totalTests <= 2 ^ 42 -> weighted < 2 ^ 53 ->
      exists score : Z,
        calculateScore results = JS.of_Z (Z.max 0 (Z.min 100 score))
        /\ 2 * Z.abs (100 * (maxPossibleWeight - weighted) - maxPossibleWeight * score)
           <= maxPossibleWeight).
Proof.
  intros totalTests weighted maxPossibleWeight Hplain.
  assert (Hcalc : calculateScore results
            = (if totalTests =? 0 then JS.of_Z 100
               else clamp (scoreFormula maxPossibleWeight weighted)))
    by apply (calculateScore_specScore _ Hplain).
  split; [exact Hcalc|].
  intros HT Hw. rewrite Hcalc.
  destruct (totalTests =? 0) eqn:E; [apply Z.eqb_eq in E; lia|].
  apply clamped_formula_nearest.
  - unfold maxPossibleWeight. change (2 ^ 44) with (2 ^ 42 * 4). lia.
  - split; [apply weightedViolations_nonneg | exact Hw].
Qed.

(** C2: the score is not always the rounded, clamped quotient of the
    formula.  The two boundary cases of the claim hold (nothing to test
    gives 100; one critical violation on one node and no passes gives 0).
    But with 49 passes and one minor violation on 85 nodes the quotient is
    exactly 57.5, which rounds to 58, and [calculateScore] returns 57: the
    binary64 product is just below the half.  And with one pass and one
    violation whose impact is [constructor] the weight read off the table
    is an inherited function instead of the default 1, and the result is
    NaN, outside [0, 100], where the formula gives 88. *)
Theorem calculateScore_departs_from_formula :
  calculateScore {| passes := []; violations := [] |} = JS.of_Z 100
  /\ calculateScore {| passes := []; violations := [axeRule "critical" 1] |} = JS.of_Z 0
  /\ calculateScore {| passes := repeat (axeRule "" 1) 49;
                       violations := [axeRule "minor" 85] |} = JS.of_Z 57
  /\ exactScore [axeRule "minor" 85] 49 = 58
  /\ calculateScore {| passes := [axeRule "" 1];
                       violations := [axeRule "constructor" 1] |} = S754_nan
  /\ exactScore [axeRule "constructor" 1] 1 = 88.
Proof. repeat split; vm_compute; reflexivity. Qed.

End Score.

(** * Further properties of the page discovery *)

Section NormalizerFacts.
Import PageDiscovery DiscoverySpec DiscoveryProps.


Lemma set_add_elem_iff (x y : string) (s : list string) :
  y ∈ JS.set_add x s <-> y = x \/ y ∈ s.
Proof.
  unfold JS.set_add, JS.includes. destruct (existsb (String.eqb x) s) eqn:E.
  - split; [tauto|]. intros [->|H]; [|exact H].
    apply existsb_exists in E as (z & Hz & Heq). apply String.eqb_eq in Heq. subst z.
    apply list_elem_of_In, Hz.
  - rewrite elem_of_app, list_elem_of_singleton. tauto.
Qed.

Lemma set_add_NoDup (x : string) (s : list string) : NoDup s -> NoDup (JS.set_add x s).
Proof.
  intros Hs. unfold JS.set_add, JS.includes.
  destruct (existsb (String.eqb x) s) eqn:E; [exact Hs|].
  apply NoDup_app. split; [exact Hs|]. split; [|apply NoDup_singleton].
  intros y Hy Hx. apply list_elem_of_singleton in Hx. subst y.
  assert (existsb (String.eqb x) s = true); [|congruence].
  apply existsb_exists. exists x. split; [apply list_elem_of_In, Hy | apply String.eqb_refl].
Qed.

Lemma normalizedSet_spec (paths : list string) :
  NoDup (normalizedSet paths)
  /\ forall p, p ∈ normalizedSet paths <-> exists path, path ∈ paths /\ normalizePath path = Some p.
Proof.
  unfold normalizedSet.
  set (step := fun normalized path =>
                 match normalizePath path with
                 | Some p => JS.set_add p normalized
                 | None => normalized
                 end).
  assert (Hgen : forall acc, NoDup acc ->
            NoDup (fold_left step paths acc)
            /\ forall p, p ∈ fold_left step paths acc
                 <-> p ∈ acc \/ exists path, path ∈ paths /\ normalizePath path = Some p).
  { induction paths as [|path paths IH]; intros acc Hacc; simpl.
    - split; [exact Hacc|]. intros p. split; [tauto|].
      intros [H|(path & Hin & _)]; [exact H | inversion Hin].
    - assert (Hstep : NoDup (step acc path))
        by (unfold step; destruct (normalizePath path); [apply set_add_NoDup|]; exact Hacc).
      destruct (IH (step acc path) Hstep) as [Hnd Hmem]. split; [exact Hnd|].
      intros p. rewrite Hmem. unfold step.
      destruct (normalizePath path) as [np|] eqn:E.
      + rewrite set_add_elem_iff. split.
        * intros [[->|H]|(q & Hq & Hn)]; [right; exists path | tauto | right; exists q];
            (split; [|assumption]); [apply list_elem_of_here | apply list_elem_of_further, Hq].
        * intros [H|(q & Hq & Hn)]; [tauto|].
          apply elem_of_cons in Hq as [->|Hq]; [left; left; congruence | right; exists q; tauto].
      + split.
        * intros [H|(q & Hq & Hn)]; [tauto|]. right. exists q.
          split; [apply list_elem_of_further, Hq | exact Hn].
        * intros [H|(q & Hq & Hn)]; [tauto|].
          apply elem_of_cons in Hq as [->|Hq]; [congruence | right; exists q; tauto]. }
  destruct (Hgen [] (NoDup_nil_2)) as [Hnd Hmem]. split; [exact Hnd|].
  intros p. rewrite Hmem. split; [intros [H|H]; [inversion H | exact H] | tauto].
Qed.

Lemma sort_insert_Permutation (x : string) (l : list string) :
  JS.sort_insert x l ≡ₚ x :: l.
Proof.
  induction l as [|y l IH]; simpl; [reflexivity|].
  destruct (String.leb x y); [reflexivity|].
  rewrite IH. apply Permutation_swap.
Qed.

Lemma sort_Permutation (l : list string) : JS.sort l ≡ₚ l.
Proof.
  unfold JS.sort. induction l as [|x l IH]; simpl; [reflexivity|].
  rewrite sort_insert_Permutation, IH. reflexivity.
Qed.

Lemma leb_false_flip (x y : string) : String.leb x y = false -> String.leb y x = true.
Proof. intros H. destruct (String.leb_total x y); congruence. Qed.

Lemma sort_insert_Sorted (x : string) (l : list string) :
  Sorted (fun a b => String.leb a b = true) l ->
  Sorted (fun a b => String.leb a b = true) (JS.sort_insert x l).
Proof.
  induction l as [|y l IH]; intros Hs; simpl.
  - repeat constructor.
  - destruct (String.leb x y) eqn:E.
    + constructor; [exact Hs | constructor; exact E].
    + apply Sorted_inv in Hs as [Hs Hhd]. constructor; [apply IH, Hs|].
      destruct l as [|z l]; simpl.
      * constructor. apply leb_false_flip, E.
      * destruct (String.leb x z); constructor;
          [apply leb_false_flip, E | inversion Hhd; assumption].
Qed.

Lemma sort_Sorted (l : list string) :
  Sorted (fun a b => String.leb a b = true) (JS.sort l).
Proof.
  unfold JS.sort. induction l as [|x l IH]; simpl; [constructor|].
  apply sort_insert_Sorted, IH.
Qed.

Lemma leb_distinct_ltb (x y : string) :
  String.leb x y = true -> x <> y -> String.ltb x y = true.
Proof.
  unfold String.leb, String.ltb. intros Hle Hne.
  destruct (String.compare x y) eqn:C; [|reflexivity|discriminate].
  apply String.compare_eq_iff in C. contradiction.
Qed.

Lemma Sorted_strict (l : list string) :
  Sorted (fun a b => String.leb a b = true) l -> NoDup l -> Sorted strictlyBelow l.
Proof.
  induction l as [|x l IH]; intros Hs Hnd; [constructor|].
  apply Sorted_inv in Hs as [Hs Hhd]. apply NoDup_cons in Hnd as [Hx Hnd].
  constructor; [apply IH; assumption|].
  destruct Hhd as [|y l Hxy]; constructor.
  apply leb_distinct_ltb; [exact Hxy|]. intros ->. apply Hx, list_elem_of_here.
Qed.

Lemma root_least (p : string) : JS.startsWith_slash p = true -> String.leb "/" p = true.
Proof.
  destruct p as [|c p]; simpl; [discriminate|]. intros Hc.
  apply Ascii.eqb_eq in Hc. subst c. destruct p; reflexivity.
Qed.

Lemma indexOf_elem (x : string) (l : list string) :
  -1 <= JS.indexOf x l /\ (0 <= JS.indexOf x l <-> x ∈ l).
Proof.
  induction l as [|y l [IHb IHm]]; simpl.
  - split; [lia|]. split; [lia | intros H; inversion H].
  - destruct (String.eqb_spec y x) as [->|Hne].
    + split; [lia|]. split; [intros _; apply list_elem_of_here | lia].
    + destruct (JS.indexOf x l <? 0) eqn:E;
        [apply Z.ltb_lt in E | apply Z.ltb_ge in E]; (split; [lia|]);
        rewrite elem_of_cons; split; try lia; try tauto.
      intros [->|H]; [congruence | apply IHm in H; lia].
Qed.

Lemma indexOf_zero_head (x : string) (l : list string) :
  JS.indexOf x l = 0 -> head l = Some x.
Proof.
  destruct l as [|y l]; simpl; [lia|].
  destruct (String.eqb_spec y x) as [->|_]; [reflexivity|].
  destruct (JS.indexOf x l <? 0) eqn:E; [lia|]. apply Z.ltb_ge in E. lia.
Qed.

(** In a sorted list of paths the root, which is below every path, can
    only stand first. *)
Lemma indexOf_least (x : string) (l : list string) :
  Sorted (fun a b => String.leb a b = true) l ->
  (forall y, y ∈ l -> String.leb x y = true) ->
  JS.indexOf x l <= 0.
Proof.
  induction l as [|y l IH]; intros Hs Hleast; simpl; [lia|].
  destruct (String.eqb_spec y x) as [->|Hne]; [lia|].
  apply Sorted_inv in Hs as [Hs Hhd].
  assert (Hrec : JS.indexOf x l <= 0)
    by (apply IH; [exact Hs | intros z Hz; apply Hleast, list_elem_of_further, Hz]).
  destruct (JS.indexOf x l <? 0) eqn:E; [lia|]. apply Z.ltb_ge in E. exfalso.
  assert (H0 : JS.indexOf x l = 0) by lia.
  apply indexOf_zero_head in H0. destruct l as [|z l]; [discriminate|].
  injection H0 as ->. inversion Hhd as [|? ? Hyx]; subst.
  apply Hne, String.leb_antisym; [exact Hyx|]. apply Hleast, list_elem_of_here.
Qed.

Lemma normalizePaths_is_sorted_set (paths : list string) :
  normalizePaths paths = JS.sort (normalizedSet paths).
Proof.
  assert (Hidx : JS.indexOf "/" (JS.sort (normalizedSet paths)) <= 0).
  { apply indexOf_least; [apply sort_Sorted|]. intros y Hy.
    apply root_least. rewrite sort_Permutation in Hy.
    apply (normalizedSet_elem paths y Hy). }
  unfold normalizePaths. cbv zeta.
  destruct (0 <? JS.indexOf "/" (JS.sort (normalizedSet paths))) eqn:E;
    [apply Z.ltb_lt in E; lia | reflexivity].
Qed.

Lemma normalizedSet_length (paths : list string) :
  (length (normalizedSet paths) <= length paths)%nat.
Proof.
  unfold normalizedSet.
  assert (Hgen : forall acc,
            (length (fold_left
               (fun normalized path =>
                  match normalizePath path with
                  | Some p => JS.set_add p normalized
                  | None => normalized
                  end) paths acc) <= length acc + length paths)%nat).
  { induction paths as [|path paths IH]; intros acc; simpl; [lia|].
    etransitivity; [apply IH|].
    destruct (normalizePath path); [|lia].
    unfold JS.set_add. destruct (JS.includes s acc); [lia|].
    rewrite length_app. simpl. lia. }
  apply (Hgen []).
Qed.

(** X1: the list [normalizePaths] returns is in strictly ascending code-unit
    order, hence free of duplicates, and the root path, when present, is
    its first element; the step that moves the root to the front never has
    anything to move, so the result is just the sorted set. *)
Theorem normalizePaths_sorted (paths : list string) :
  normalizePaths paths = JS.sort (normalizedSet paths)
  /\ Sorted strictlyBelow (normalizePaths paths)
  /\ NoDup (normalizePaths paths)
  /\ ("/" ∈ normalizePaths paths -> head (normalizePaths paths) = Some "/").
Proof.
  destruct (normalizedSet_spec paths) as [Hnd Hmem].
  pose proof (sort_Sorted (normalizedSet paths)) as Hsorted.
  pose proof (sort_Permutation (normalizedSet paths)) as Hperm.
  pose proof (normalizePaths_is_sorted_set paths) as Heq.
  assert (Hnd' : NoDup (JS.sort (normalizedSet paths))) by (rewrite Hperm; exact Hnd).
  rewrite Heq. split; [reflexivity|]. split; [apply Sorted_strict; assumption|].
  split; [exact Hnd'|].
  intros Hroot. apply indexOf_zero_head.
  pose proof (indexOf_elem "/" (JS.sort (normalizedSet paths))) as [_ Hiff].
  apply Hiff in Hroot.
  assert (JS.indexOf "/" (JS.sort (normalizedSet paths)) <= 0); [|lia].
  apply indexOf_least; [exact Hsorted|]. intros y Hy.
  apply root_least. rewrite Hperm in Hy. apply (normalizedSet_elem paths y Hy).
Qed.

Lemma normalizePaths_sorted_witness :
  head (normalizePaths ["/b"; "a/"; "/"]) = Some "/".
Proof.
  apply (normalizePaths_sorted ["/b"; "a/"; "/"]).
  apply list_elem_of_In. simpl. tauto.
Defined.

(** X2: a path is returned exactly when it is the normal form of one of the
    non-empty inputs: nothing is invented and nothing but empty strings is
    dropped; in particular the output is never longer than the input. *)
Theorem normalizePaths_elements (paths : list string) :
  (forall p, p ∈ normalizePaths paths
             <-> exists path, path ∈ paths /\ normalizePath path = Some p)
  /\ (length (normalizePaths paths) <= length paths)%nat.
Proof.
  pose proof (normalizePaths_is_sorted_set paths) as Heq.
  pose proof (sort_Permutation (normalizedSet paths)) as Hperm.
  destruct (normalizedSet_spec paths) as [Hnd Hmem].
  split.
  - intros p. rewrite Heq, Hperm. apply Hmem.
  - rewrite Heq, Hperm. apply normalizedSet_length.
Qed.

Lemma normalizePaths_elements_witness :
  exists path, path ∈ ["a/"; "/b"] /\ normalizePath path = Some "/a".
Proof.
  apply (proj1 (normalizePaths_elements ["a/"; "/b"]) "/a").
  vm_compute. apply list_elem_of_here.
Defined.

End NormalizerFacts.

Section CrawlFacts.
Import PageDiscovery DiscoverySpec DiscoveryProps.

Lemma includes_elem (x : string) (l : list string) : JS.includes x l = true <-> x ∈ l.
Proof.
  unfold JS.includes. rewrite existsb_exists. split.
  - intros (y & Hy & Heq). apply String.eqb_eq in Heq. subst y. apply list_elem_of_In, Hy.
  - intros H. exists x. split; [apply list_elem_of_In, H | apply String.eqb_refl].
Qed.

Lemma enqueue_elem (visited : gset string) (links queue : list string) (p : string) :
  p ∈ enqueue visited queue links <-> p ∈ queue \/ (p ∈ links /\ p ∉ visited).
Proof.
  unfold enqueue. revert queue. induction links as [|l links IH]; intros queue; simpl.
  - split; [tauto|]. intros [H|[H _]]; [exact H | inversion H].
  - rewrite IH. rewrite elem_of_cons.
    destruct (bool_decide (l ∈ visited)) eqn:Ev; simpl.
    + apply bool_decide_eq_true in Ev. split; [tauto|].
      intros [H|[[->|H] Hn]]; tauto.
    + apply bool_decide_eq_false in Ev.
      destruct (JS.includes l queue) eqn:Ei.
      * apply includes_elem in Ei. split; [tauto|].
        intros [H|[[->|H] Hn]]; tauto.
      * rewrite elem_of_app, list_elem_of_singleton. split.
        -- intros [[H| ->]|H]; tauto.
        -- intros [H|[[->|H] Hn]]; tauto.
Qed.

Lemma crawlInit_inv (links : string -> list string) (options : Options) :
  CrawlInv (default ["/"] (options_startPaths options)) links (crawlInit options).
Proof.
  unfold CrawlInv, crawlInit; simpl. split; [constructor|]. split.
  - intros p. split; intros H; [apply elem_of_empty in H; contradiction | inversion H].
  - split; [|split; [|split]].
    + intros p [H|H]; [inversion H | apply reach_seed, H].
    + intros p [H|H]; [inversion H | left; exact H].
    + intros s Hs. right. exact Hs.
    + intros q p H. inversion H.
Qed.

Lemma crawlStep_inv (seeds : list string) (links : string -> list string) (st : CrawlState) :
  CrawlInv seeds links st -> CrawlInv seeds links (crawlStep links st).
Proof.
  intros (Hnd & Hvis & Hreach & Hfrom & Hseeds & Hlinks). unfold crawlStep.
  destruct (toVisit st) as [|path rest] eqn:Hq;
    [repeat split; try assumption; try apply Hvis; rewrite ?Hq; auto|].
  destruct (bool_decide (path ∈ visited st)) eqn:Ev.
  - apply bool_decide_eq_true in Ev. unfold CrawlInv; simpl.
    split; [exact Hnd|]. split; [exact Hvis|]. split; [|split; [|split]].
    + intros p [H|H]; apply Hreach; [left; exact H | right; apply list_elem_of_further, H].
    + intros p [H|H]; apply Hfrom; [left; exact H | right; apply list_elem_of_further, H].
    + intros s Hs. destruct (Hseeds s Hs) as [H|H]; [left; exact H|].
      apply elem_of_cons in H as [->|H]; [left; exact Ev | right; exact H].
    + intros q p Hqd Hp. destruct (Hlinks q p Hqd Hp) as [H|H]; [left; exact H|].
      apply elem_of_cons in H as [->|H]; [left; exact Ev | right; exact H].
  - apply bool_decide_eq_false in Ev. unfold CrawlInv; simpl.
    assert (Hpath : Reachable seeds links path) by (apply Hreach; right; apply list_elem_of_here).
    assert (Hkeep : forall p, (p ∈ seeds \/ exists q, q ∈ discovered st /\ p ∈ links q) ->
              p ∈ seeds \/ exists q, q ∈ discovered st ++ [path] /\ p ∈ links q).
    { intros p [H|(q & Hqd & Hp)]; [left; exact H|].
      right. exists q. split; [apply elem_of_app; left; exact Hqd | exact Hp]. }
    split; [|split; [|split; [|split; [|split]]]].
    + apply NoDup_app. split; [exact Hnd|]. split; [|apply NoDup_singleton].
      intros p Hp Hp'. apply list_elem_of_singleton in Hp'. subst p.
      apply Ev, Hvis, Hp.
    + intros p. rewrite elem_of_union, elem_of_singleton, elem_of_app,
        list_elem_of_singleton, Hvis. tauto.
    + intros p. rewrite elem_of_app, list_elem_of_singleton, enqueue_elem.
      intros [[H| ->]|[H|[H _]]].
      * apply Hreach. left. exact H.
      * exact Hpath.
      * apply Hreach. right. apply list_elem_of_further, H.
      * apply (reach_link seeds links path); assumption.
    + intros p. rewrite elem_of_app, list_elem_of_singleton, enqueue_elem.
      intros [[H| ->]|[H|[H _]]].
      * apply Hkeep, Hfrom. left. exact H.
      * apply Hkeep, Hfrom. right. apply list_elem_of_here.
      * apply Hkeep, Hfrom. right. apply list_elem_of_further, H.
      * right. exists path. split; [|exact H].
        apply elem_of_app. right. apply list_elem_of_here.
    + intros s Hs. rewrite elem_of_union, elem_of_singleton, enqueue_elem.
      destruct (Hseeds s Hs) as [H|H]; [tauto|].
      apply elem_of_cons in H as [->|H]; tauto.
    + intros q p. rewrite elem_of_app, list_elem_of_singleton.
      rewrite elem_of_union, elem_of_singleton, enqueue_elem.
      intros [Hqd| ->] Hp.
      * destruct (Hlinks q p Hqd Hp) as [H|H]; [tauto|].
        apply elem_of_cons in H as [->|H]; tauto.
      * destruct (decide (p ∈ ({[path]} ∪ visited st : gset string))) as [Hin|Hout].
        -- apply elem_of_union in Hin. rewrite elem_of_singleton in Hin. tauto.
        -- right. right. split; assumption.
Qed.

Lemma crawlLoop_inv (seeds : list string) (links : string -> list string) (maxPages : Z)
    (fuel : nat) (st st' : CrawlState) :
  CrawlInv seeds links st ->
  crawlLoop fuel links maxPages st = Some st' ->
  CrawlInv seeds links st' /\ crawlGuard maxPages st' = false.
Proof.
  revert st. induction fuel as [|fuel IH]; intros st Hinv Hrun; simpl in Hrun.
  - destruct (crawlGuard maxPages st) eqn:G; [discriminate|].
    injection Hrun as <-. split; assumption.
  - destruct (crawlGuard maxPages st) eqn:G.
    + apply (IH (crawlStep links st)); [apply crawlStep_inv, Hinv | exact Hrun].
    + injection Hrun as <-. split; assumption.
Qed.

End CrawlFacts.

Section CrawlTheorems.
Import PageDiscovery DiscoverySpec DiscoveryProps.

Lemma crawl_final_state (config : Config) (links : string -> list string)
    (options : Options) :
  exists (rounds : nat) (st : CrawlState),
    (forall fuel, (rounds <= fuel)%nat ->
       crawlLoop fuel links (Z.min (pageBudget config options) 50) (crawlInit options)
       = Some st)
    /\ CrawlInv (default ["/"] (options_startPaths options)) links st
    /\ crawlGuard (Z.min (pageBudget config options) 50) st = false.
Proof.
  destruct (crawlLoop_terminates links (Z.min (pageBudget config options) 50)
              (crawlInit options)) as (rounds & st & Hrun).
  exists rounds, st. split.
  - intros fuel Hle. apply (crawlLoop_mono _ _ _ _ _ _ Hrun Hle).
  - apply (crawlLoop_inv _ _ _ _ _ _ (crawlInit_inv links options) Hrun).
Qed.

(** X3: the crawl returns each page at most once, and only pages that can be
    reached from the start paths by following extracted links. *)
Theorem crawl_sound (config : Config) (links : string -> list string)
    (baseHost : string) (options : Options) :
  exists (rounds : nat) (found : list string),
    (forall fuel, (rounds <= fuel)%nat ->
       discoverByCrawling fuel config links (Some baseHost) options = Returns found)
    /\ NoDup found
    /\ (forall p, p ∈ found ->
          Reachable (default ["/"] (options_startPaths options)) links p).
Proof.
  destruct (crawl_final_state config links options)
    as (rounds & st & Hrun & (Hnd & _ & Hreach & _) & _).
  exists rounds, (discovered st). split; [|split].
  - intros fuel Hle. unfold discoverByCrawling. rewrite (Hrun fuel Hle). reflexivity.
  - exact Hnd.
  - intros p Hp. apply Hreach. left. exact Hp.
Qed.

Lemma crawl_sound_witness :
  exists found : list string,
    discoverByCrawling 10 defaultConfig cyclicLinks (Some "site.test") (crawlOptions None)
    = Returns found
    /\ (forall p, p ∈ found -> Reachable ["/"] cyclicLinks p).
Proof.
  destruct (crawl_sound defaultConfig cyclicLinks "site.test" (crawlOptions None))
    as (rounds & found & Hrun & _ & Hreach).
  exists found. split; [|exact Hreach].
  specialize (Hrun (Nat.max rounds 10) (Nat.le_max_l _ _)).
  rewrite <- Hrun. symmetry.
  unfold discoverByCrawling in *.
  destruct (crawlLoop 10 cyclicLinks _ (crawlInit (crawlOptions None))) as [st|] eqn:E;
    [|vm_compute in E; discriminate].
  rewrite (crawlLoop_mono _ _ _ _ _ _ E (Nat.le_max_r rounds 10)). reflexivity.
Defined.

(** X4: when the crawl stops with fewer pages than its budget allows, it has
    found every page reachable from the start paths: the budget is the only
    reason a reachable page is missing. *)
Theorem crawl_complete_below_budget (config : Config) (links : string -> list string)
    (baseHost : string) (options : Options) :
  exists (rounds : nat) (found : list string),
    (forall fuel, (rounds <= fuel)%nat ->
       discoverByCrawling fuel config links (Some baseHost) options = Returns found)
    /\ (Z.of_nat (length found) < Z.min (pageBudget config options) 50 ->
        forall p, Reachable (default ["/"] (options_startPaths options)) links p ->
                  p ∈ found).
Proof.
  destruct (crawl_final_state config links options)
    as (rounds & st & Hrun & (_ & Hvis & _ & _ & Hseeds & Hlinks) & Hstop).
  exists rounds, (discovered st). split.
  - intros fuel Hle. unfold discoverByCrawling. rewrite (Hrun fuel Hle). reflexivity.
  - intros Hroom.
    assert (Hq : toVisit st = []).
    { unfold crawlGuard in Hstop. apply andb_false_iff in Hstop as [H|H].
      - apply Z.ltb_ge in H. destruct (toVisit st); [reflexivity | simpl in H; lia].
      - apply Z.ltb_ge in H. lia. }
    rewrite Hq in Hseeds, Hlinks.
    intros p Hp. induction Hp as [p Hp | q p _ IH Hp].
    + destruct (Hseeds p Hp) as [H|H]; [apply Hvis, H | inversion H].
    + destruct (Hlinks q p IH Hp) as [H|H]; [apply Hvis, H | inversion H].
Qed.

Lemma crawl_complete_below_budget_witness :
  exists found : list string,
    discoverByCrawling 10 defaultConfig cyclicLinks (Some "site.test") (crawlOptions None)
    = Returns found
    /\ (forall p, Reachable ["/"] cyclicLinks p -> p ∈ found).
Proof.
  destruct (crawl_complete_below_budget defaultConfig cyclicLinks "site.test"
              (crawlOptions None)) as (rounds & found & Hrun & Hall).
  assert (Hten : discoverByCrawling (Nat.max rounds 10) defaultConfig cyclicLinks
                   (Some "site.test") (crawlOptions None) = Returns ["/"; "/a"; "/b"]).
  { unfold discoverByCrawling.
    destruct (crawlLoop 10 cyclicLinks
                (Z.min (pageBudget defaultConfig (crawlOptions None)) 50)
                (crawlInit (crawlOptions None))) as [st|] eqn:E;
      [|vm_compute in E; discriminate].
    rewrite (crawlLoop_mono _ _ _ _ _ _ E (Nat.le_max_r rounds 10)).
    vm_compute in E. injection E as <-. reflexivity. }
  rewrite (Hrun _ (Nat.le_max_l rounds 10)) in Hten. injection Hten as ->.
  exists ["/"; "/a"; "/b"]. split; [reflexivity|].
  apply Hall. vm_compute. reflexivity.
Defined.
End CrawlTheorems.

Section ManualPathFacts.
Import PageDiscovery DiscoverySpec DiscoveryProps.

Lemma splitLines_cons (s : string) : exists line lines, splitLines s = line :: lines.
Proof.
  induction s as [|c s IH]; simpl; [eauto|].
  destruct (Ascii.eqb c newline); [eauto|].
  destruct IH as (line & lines & ->). eauto.
Qed.

(** [split] is undone by [join]: the lines are the pieces of the input
    between its line feeds. *)
Lemma splitLines_join (s : string) :
  String.concat (String newline "") (splitLines s) = s.
Proof.
  induction s as [|c s IH]; [reflexivity|]. simpl.
  destruct (Ascii.eqb c newline) eqn:E.
  - apply Ascii.eqb_eq in E. subst c.
    destruct (splitLines_cons s) as (line & lines & Hs). rewrite Hs in *.
    simpl. simpl in IH. rewrite IH. reflexivity.
  - destruct (splitLines_cons s) as (line & lines & Hs). rewrite Hs in *.
    simpl in *. destruct lines; simpl in *; rewrite <- IH; reflexivity.
Qed.

Lemma splitLines_no_newline (s line : string) :
  line ∈ splitLines s -> ~ In newline (list_ascii_of_string line).
Proof.
  revert line. induction s as [|c s IH]; intros line Hin; simpl in Hin.
  - apply list_elem_of_singleton in Hin. subst line. simpl. tauto.
  - destruct (Ascii.eqb c newline) eqn:E.
    + apply elem_of_cons in Hin as [->|Hin]; [simpl; tauto | apply IH, Hin].
    + destruct (splitLines_cons s) as (l0 & lines & Hs). rewrite Hs in *.
      apply elem_of_cons in Hin as [->|Hin].
      * simpl. intros [H|H].
        -- subst c. rewrite Ascii.eqb_refl in E. discriminate.
        -- apply (IH l0); [apply list_elem_of_here | exact H].
      * apply IH. apply list_elem_of_further, Hin.
Qed.

Lemma trimStart_chars (s : string) (c : ascii) :
  In c (list_ascii_of_string (trimStart s)) -> In c (list_ascii_of_string s).
Proof.
  induction s as [|a s IH]; simpl; [tauto|].
  destruct (isWhiteSpace a); simpl; tauto.
Qed.

Lemma trimEnd_chars (s : string) (c : ascii) :
  In c (list_ascii_of_string (trimEnd s)) -> In c (list_ascii_of_string s).
Proof.
  induction s as [|a s IH]; simpl; [tauto|].
  destruct (trimEnd s) as [|b t] eqn:E.
  - destruct (isWhiteSpace a); simpl; tauto.
  - simpl in *. tauto.
Qed.

Lemma trimStart_head (s : string) (c : ascii) (t : string) :
  trimStart s = String c t -> isWhiteSpace c = false.
Proof.
  induction s as [|a s IH]; simpl; [discriminate|].
  destruct (isWhiteSpace a) eqn:E; [exact IH|].
  intros H. injection H as <- _. exact E.
Qed.

Lemma trimStart_fixed (s : string) :
  (forall c t, s = String c t -> isWhiteSpace c = false) -> trimStart s = s.
Proof.
  destruct s as [|a s]; [reflexivity|]. intros H. simpl.
  rewrite (H a s eq_refl). reflexivity.
Qed.

Lemma trimEnd_head (s : string) (c : ascii) (t : string) :
  trimEnd s = String c t -> exists s', s = String c s'.
Proof.
  destruct s as [|a s]; simpl; [discriminate|].
  destruct (trimEnd s).
  - destruct (isWhiteSpace a); [discriminate|]. intros H. injection H as <- _. eauto.
  - intros H. injection H as <- _. eauto.
Qed.

Lemma trimEnd_idem (s : string) : trimEnd (trimEnd s) = trimEnd s.
Proof.
  induction s as [|a s IH]; [reflexivity|]. simpl.
  destruct (trimEnd s) as [|b t] eqn:E.
  - destruct (isWhiteSpace a) eqn:W; [reflexivity|]. simpl. rewrite W. reflexivity.
  - change (trimEnd (String a (String b t))) with
      (match trimEnd (String b t) with
       | EmptyString => if isWhiteSpace a then EmptyString else String a EmptyString
       | t' => String a t'
       end).
    rewrite IH. reflexivity.
Qed.

Lemma trim_idem (s : string) : trim (trim s) = trim s.
Proof.
  unfold trim. rewrite trimStart_fixed; [apply trimEnd_idem|].
  intros c t H. apply trimEnd_head in H as (s' & H).
  apply (trimStart_head _ _ _ H).
Qed.

Lemma trim_chars (s : string) (c : ascii) :
  In c (list_ascii_of_string (trim s)) -> In c (list_ascii_of_string s).
Proof. intros H. apply trimStart_chars, trimEnd_chars, H. Qed.

Lemma nonEmpty_true (s : string) : nonEmpty s = true <-> s <> "".
Proof.
  unfold nonEmpty. rewrite negb_true_iff. split.
  - intros H ->. discriminate.
  - intros H. apply String.eqb_neq, H.
Qed.

Lemma manual_lines_elem (s p : string) :
  p ∈ parseManualPaths (Some (PathsString s))
  <-> (exists line, line ∈ splitLines s /\ p = trim line)
      /\ p <> "" /\ startsWith_hash p = false.
Proof.
  unfold parseManualPaths. destruct (nonEmpty s) eqn:Es.
  - rewrite list_elem_of_In, filter_In, andb_true_iff, nonEmpty_true, negb_true_iff.
    rewrite in_map_iff. split.
    + intros ((line & <- & Hl) & H). split; [|exact H].
      exists line. split; [apply list_elem_of_In, Hl | reflexivity].
    + intros ((line & Hl & ->) & H). split; [|exact H].
      exists line. split; [reflexivity | apply list_elem_of_In, Hl].
  - apply negb_false_iff, String.eqb_eq in Es. subst s. simpl. split.
    + intros H. inversion H.
    + intros ((line & Hl & ->) & Hne & _). apply list_elem_of_singleton in Hl.
      subst line. contradiction Hne. reflexivity.
Qed.

Lemma keptLines_filter (lines : list string) :
  flat_map (fun line =>
              let path := trim line in
              match path with
              | EmptyString => []
              | String c _ => if Ascii.eqb c "#"%char then [] else [path]
              end) lines
  = List.filter (fun path => nonEmpty path && negb (startsWith_hash path)) (map trim lines).
Proof.
  induction lines as [|line lines IH]; [reflexivity|].
  match goal with
  | |- flat_map ?f _ = _ =>
      change (f line ++ flat_map f lines
              = List.filter (fun path => nonEmpty path && negb (startsWith_hash path))
                  (trim line :: map trim lines))
  end.
  rewrite IH. cbv beta zeta. cbn [List.filter].
  destruct (trim line) as [|c t]; [reflexivity|].
  change (nonEmpty (String c t)) with true.
  change (startsWith_hash (String c t)) with (Ascii.eqb c "#"%char).
  destruct (Ascii.eqb c "#"%char); reflexivity.
Qed.

(** X5: [parseManualPaths] on a multi-line string returns exactly, one by
    one and in input order, the trimmed lines that are non-empty and do not
    start with '#' (the lines being the pieces of the input between line
    feeds); so a path is returned exactly when it is such a line, and every
    returned path is itself free of surrounding white space and of line
    feeds. *)
Theorem parseManualPaths_lines (s : string) :
  parseManualPaths (Some (PathsString s)) = keptLines s
  /\ (forall p, p ∈ parseManualPaths (Some (PathsString s))
        <-> (exists line, line ∈ splitLines s /\ p = trim line)
            /\ p <> "" /\ startsWith_hash p = false)
  /\ (forall p, p ∈ parseManualPaths (Some (PathsString s)) ->
        trim p = p /\ ~ In newline (list_ascii_of_string p))
  /\ String.concat (String newline "") (splitLines s) = s.
Proof.
  split.
  { unfold keptLines. rewrite keptLines_filter. unfold parseManualPaths.
    destruct (nonEmpty s) eqn:E; [reflexivity|].
    apply negb_false_iff, String.eqb_eq in E. subst s. reflexivity. }
  split; [apply manual_lines_elem|]. split; [|apply splitLines_join].
  intros p Hp. apply manual_lines_elem in Hp as ((line & Hl & ->) & _ & _).
  split; [apply trim_idem|].
  intros H. apply trim_chars in H. apply (splitLines_no_newline _ _ Hl H).
Qed.

Lemma parseManualPaths_lines_witness :
  parseManualPaths
    (Some (PathsString (" /b " +:+ String newline
                          ("# skipped" +:+ String newline
                             ("/a" +:+ String newline ("" +:+ String newline "/b"))))))
  = ["/b"; "/a"; "/b"]
  /\ trim "/a" = "/a".
Proof.
  split.
  - etransitivity; [apply (parseManualPaths_lines _)|]. reflexivity.
  - apply (proj1 (proj2 (proj2 (parseManualPaths_lines
             (" /b " +:+ String newline "/a"))))).
    vm_compute. apply list_elem_of_further, list_elem_of_here.
Defined.

End ManualPathFacts.
Section SitemapFacts.
Import PageDiscovery DiscoverySpec DiscoveryProps.

Lemma urlsetPages_spec (host : string) (entries : list Loc) :
  urlsetPages host entries
  = if existsb isInvalidLoc entries then None else Some (sameHostPaths host entries).
Proof.
  induction entries as [|[| |h p] entries IH]; simpl; try reflexivity.
  - exact IH.
  - rewrite IH. destruct (existsb isInvalidLoc entries); [reflexivity|].
    destruct (String.eqb h host); reflexivity.
Qed.

(** X6: a sitemap with a [urlset] and no index yields the pathnames of its
    entries on the base host, in document order, other hosts and entries
    without [loc] being dropped; one [loc] that is not a URL makes
    [parseSitemap] throw, whatever else the document lists. *)
Theorem parseSitemap_urlset (depth : nat) (web : Web) (host : string)
    (entries : list Loc) (index : option (list (option string))) :
  (existsb isInvalidLoc entries = true ->
     parseSitemap (S depth) web (Some host)
       (Parsed {| urlset := Some entries; sitemapindex := index |}) = Throws)
  /\ (existsb isInvalidLoc entries = false ->
     parseSitemap (S depth) web (Some host)
       (Parsed {| urlset := Some entries; sitemapindex := None |})
     = Returns (sameHostPaths host entries)).
Proof.
  split; intros H; simpl; rewrite urlsetPages_spec, H; reflexivity.
Qed.

Lemma parseSitemap_urlset_witness :
  parseSitemap 1 selfWeb (Some "site.test")
    (Parsed {| urlset := Some [LocUrl "site.test" "/a"; LocMissing;
                               LocUrl "other.test" "/b"; LocUrl "site.test" "/c"];
               sitemapindex := None |})
  = Returns ["/a"; "/c"].
Proof.
  apply (parseSitemap_urlset 0 selfWeb "site.test"
           [LocUrl "site.test" "/a"; LocMissing;
            LocUrl "other.test" "/b"; LocUrl "site.test" "/c"] None).
  reflexivity.
Defined.

Lemma trySitemaps_nonempty (depth : nat) (web : Web) (baseUrl : string)
    (baseHost : option string) (candidates pages : list string) :
  trySitemaps depth web baseUrl baseHost candidates = Returns pages -> pages <> [].
Proof.
  induction candidates as [|c candidates IH]; simpl; [discriminate|].
  destruct (web (baseUrl +:+ c)) as [|[|] body]; try exact IH.
  destruct (parseSitemap depth web baseHost body) as [found| |]; try exact IH;
    [|discriminate].
  destruct (0 <? Z.of_nat (length found)) eqn:E; [|exact IH].
  intros [= <-] ->. discriminate.
Qed.

Lemma trySitemaps_unreachable (depth : nat) (web : Web) (baseUrl : string)
    (baseHost : option string) (candidates : list string) :
  (forall c body, c ∈ candidates -> web (baseUrl +:+ c) <> Status true body) ->
  trySitemaps depth web baseUrl baseHost candidates = Throws.
Proof.
  induction candidates as [|c candidates IH]; intros H; simpl; [reflexivity|].
  assert (IH' : trySitemaps depth web baseUrl baseHost candidates = Throws).
  { apply IH. intros c' body Hc. apply H, list_elem_of_further, Hc. }
  destruct (web (baseUrl +:+ c)) as [|[|] body] eqn:E; try exact IH'.
  contradiction (H c body (list_elem_of_here _ _)).
Qed.

(** X7: [discoverFromSitemap] never returns an empty list, and when none of
    the four candidate locations answers with a successful response it
    throws, so that [discoverPages] with the strategy [sitemap] (in any
    letter case) returns exactly the root page. *)
Theorem sitemap_strategy_fallback (fuel : nat) (config : Config) (site : Site)
    (strategy : string) (options : Options) :
  (forall pages,
     discoverFromSitemap fuel (site_web site) (site_baseUrl site) (site_baseHost site)
     = Returns pages -> pages <> [])
  /\ (noSitemap (site_web site) (site_baseUrl site) ->
      discoverFromSitemap fuel (site_web site) (site_baseUrl site) (site_baseHost site)
      = Throws
      /\ (toLowerCase strategy = "sitemap" ->
          discoverPages fuel config site strategy options = Returns ["/"])).
Proof.
  split; [intros pages; apply trySitemaps_nonempty|].
  intros Hno.
  assert (Hthrow : discoverFromSitemap fuel (site_web site) (site_baseUrl site)
                     (site_baseHost site) = Throws).
  { apply trySitemaps_unreachable. intros c body Hc. apply Hno, Hc. }
  split; [exact Hthrow|].
  intros Hs. unfold discoverPages, strategyPages. rewrite Hs. simpl.
  rewrite Hthrow. reflexivity.
Qed.

Lemma sitemap_strategy_fallback_witness :
  discoverPages 0 defaultConfig emptySite "SiteMap" (crawlOptions None) = Returns ["/"].
Proof.
  apply (sitemap_strategy_fallback 0 defaultConfig emptySite "SiteMap" (crawlOptions None)).
  - intros c body _. discriminate.
  - reflexivity.
Defined.

End SitemapFacts.

Section CoordinatorFacts.
Import PageDiscovery DiscoverySpec DiscoveryProps.

Lemma Sorted_take {A} (R : A -> A -> Prop) (n : nat) (l : list A) :
  Sorted R l -> Sorted R (take n l).
Proof.
  revert n. induction l as [|a l IH]; intros n H; [rewrite take_nil; constructor|].
  destruct n as [|n]; [constructor|]. simpl.
  apply Sorted_inv in H as [Hs Hh]. constructor; [apply IH, Hs|].
  destruct l as [|b l]; [rewrite take_nil; constructor|].
  destruct n; [constructor|]. simpl. constructor. inversion Hh. assumption.
Qed.

Lemma limitPages_prefix (config : Config) (pages : list string) :
  exists n, limitPages config pages = take n pages.
Proof.
  unfold limitPages, JS.slice_to.
  destruct (maxPages config <? Z.of_nat (length pages)).
  - destruct (maxPages config <? 0); eauto.
  - exists (length pages). rewrite firstn_all. reflexivity.
Qed.

Lemma limited_normal_sorted (config : Config) (pages : list string) :
  Sorted strictlyBelow (limitPages config (normalizePaths pages))
  /\ NoDup (limitPages config (normalizePaths pages))
  /\ (forall p, p ∈ limitPages config (normalizePaths pages) ->
        exists path, path ∈ pages /\ normalizePath path = Some p).
Proof.
  destruct (limitPages_prefix config (normalizePaths pages)) as (n & ->).
  pose proof (normalizePaths_is_sorted_set pages) as Heq.
  split; [|split].
  - apply Sorted_take. rewrite Heq. apply Sorted_strict.
    + apply sort_Sorted.
    + rewrite sort_Permutation. apply normalizedSet_spec.
  - apply (sublist_NoDup _ (normalizePaths pages)); [|apply sublist_take].
    rewrite Heq, sort_Permutation. apply normalizedSet_spec.
  - intros p Hp. apply elem_of_take in Hp as (i & Hp & _).
    apply list_elem_of_lookup_2 in Hp. rewrite Heq, sort_Permutation in Hp.
    apply normalizedSet_spec, Hp.
Qed.

(** X8: [discoverPages] never throws, and whatever the strategy the list it
    returns is strictly ascending in code-unit order, hence without
    duplicates: no page is handed on twice. *)
Theorem discoverPages_sorted_distinct (fuel : nat) (config : Config) (site : Site)
    (strategy : string) (options : Options) :
  discoverPages fuel config site strategy options <> Throws
  /\ (forall pages,
        discoverPages fuel config site strategy options = Returns pages ->
        Sorted strictlyBelow pages /\ NoDup pages).
Proof.
  unfold discoverPages.
  destruct (strategyPages fuel config site strategy options) as [found| |];
    (split; [discriminate|]); intros pages [= <-].
  - split; apply (limited_normal_sorted config found).
  - split; [repeat constructor | apply NoDup_singleton].
Qed.

Lemma discoverPages_sorted_distinct_witness :
  Sorted strictlyBelow ["/"; "/a"; "/b"].
Proof.
  apply (discoverPages_sorted_distinct 10 defaultConfig
           {| site_baseUrl := "http://site.test"; site_baseHost := Some "site.test";
              site_web := fun _ => NetworkError; site_links := cyclicLinks |}
           "crawl" (crawlOptions None)).
  reflexivity.
Defined.

(** X9: with the strategy [paths] and an array of paths, every returned page
    is the normal form of a listed path, and nothing is added: an empty list
    of paths gives an empty list of pages, not the root page. *)
Theorem paths_strategy_pages (fuel : nat) (config : Config) (site : Site)
    (strategy : string) (options : Options) (listed : list string) :
  toLowerCase strategy = "paths" ->
  options_paths options = Some (PathsArray listed) ->
  exists pages,
    discoverPages fuel config site strategy options = Returns pages
    /\ (forall p, p ∈ pages ->
          exists path, path ∈ listed /\ path <> "" /\ normalizePath path = Some p)
    /\ (listed = [] -> pages = []).
Proof.
  intros Hs Hp. unfold discoverPages, strategyPages. rewrite Hs, Hp. simpl.
  eexists. split; [reflexivity|]. split.
  - intros p Hin. apply limited_normal_sorted in Hin as (path & Hpath & Hnorm).
    apply list_elem_of_In, filter_In in Hpath as [Hpath Hne].
    exists path. split; [apply list_elem_of_In, Hpath|]. split; [|exact Hnorm].
    apply nonEmpty_true, Hne.
  - intros ->. destruct (limitPages_prefix config (normalizePaths (List.filter nonEmpty [])))
      as (n & ->). apply take_nil.
Qed.

Lemma paths_strategy_pages_witness :
  exists pages,
    discoverPages 0 defaultConfig emptySite "PATHS"
      {| options_maxPages := None; options_startPaths := None;
         options_paths := Some (PathsArray []) |} = Returns pages
    /\ pages = [].
Proof.
  destruct (paths_strategy_pages 0 defaultConfig emptySite "PATHS"
              {| options_maxPages := None; options_startPaths := None;
                 options_paths := Some (PathsArray []) |} [] eq_refl eq_refl)
    as (pages & Hrun & _ & Hnil).
  exists pages. split; [exact Hrun | apply Hnil; reflexivity].
Defined.
End CoordinatorFacts.

Section FallbackFacts.
Import PageDiscovery DiscoverySpec DiscoveryProps.

(** X10: a strategy name other than [sitemap], [crawl] and [paths] (compared
    without regard to letter case) is not an error: like [single] it yields
    the root page alone, for every positive page limit, and nothing for a
    negative one. *)
Theorem other_strategies_scan_root (fuel : nat) (config : Config) (site : Site)
    (strategy : string) (options : Options) :
  toLowerCase strategy ∉ ["sitemap"; "crawl"; "paths"] ->
  discoverPages fuel config site strategy options
  = Returns (if 0 <? maxPages config then ["/"] else []).
Proof.
  intros Hother.
  assert (Hpages : strategyPages fuel config site strategy options = Returns ["/"]).
  { unfold strategyPages.
    destruct (String.eqb (toLowerCase strategy) "single"); [reflexivity|].
    destruct (String.eqb_spec (toLowerCase strategy) "sitemap") as [E|_];
      [contradiction Hother; rewrite E, !elem_of_cons; tauto|].
    destruct (String.eqb_spec (toLowerCase strategy) "crawl") as [E|_];
      [contradiction Hother; rewrite E, !elem_of_cons; tauto|].
    destruct (String.eqb_spec (toLowerCase strategy) "paths") as [E|_];
      [contradiction Hother; rewrite E, !elem_of_cons; tauto|].
    reflexivity. }
  unfold discoverPages. rewrite Hpages. f_equal.
  change (normalizePaths ["/"]) with ["/"].
  unfold limitPages, JS.slice_to. simpl length.
  destruct (0 <? maxPages config) eqn:Epos.
  - apply Z.ltb_lt in Epos.
    destruct (maxPages config <? Z.of_nat 1) eqn:E; [apply Z.ltb_lt in E; lia | reflexivity].
  - apply Z.ltb_ge in Epos.
    destruct (maxPages config <? Z.of_nat 1) eqn:E; [|apply Z.ltb_ge in E; lia].
    destruct (maxPages config <? 0) eqn:E0.
    + apply Z.ltb_lt in E0.
      replace (Z.to_nat (Z.of_nat 1 + maxPages config)) with O by lia. reflexivity.
    + apply Z.ltb_ge in E0. replace (maxPages config) with 0 by lia. reflexivity.
Qed.

Lemma other_strategies_scan_root_witness :
  discoverPages 0 defaultConfig emptySite "Site-Map" (crawlOptions None) = Returns ["/"].
Proof.
  apply (other_strategies_scan_root 0 defaultConfig emptySite "Site-Map" (crawlOptions None)).
  intros H. repeat (apply elem_of_cons in H as [H|H]; [discriminate H|]). inversion H.
Defined.

End FallbackFacts.

(** * Properties of the link extraction *)

Section LinkFacts.
Import PageDiscovery LinkExtraction LinkProps DiscoveryProps.

Lemma prefix_app (p s : string) : String.prefix p (p +:+ s) = true.
Proof.
  induction p as [|c p IH]; simpl; [destruct s; reflexivity|].
  destruct (ascii_dec c c) as [_|H]; [exact IH | contradiction H; reflexivity].
Qed.

Lemma includes_app (p a b : string) : JSString.includes p (a +:+ p +:+ b) = true.
Proof.
  induction a as [|c a IH].
  - change ("" +:+ p +:+ b) with (p +:+ b). pose proof (prefix_app p b) as H.
    destruct (p +:+ b); cbn [JSString.includes]; rewrite H; reflexivity.
  - change (JSString.includes p (String c a +:+ p +:+ b))
      with (String.prefix p (String c (a +:+ p +:+ b))
            || JSString.includes p (a +:+ p +:+ b)).
    rewrite IH. apply orb_true_r.
Qed.

Lemma endsWith_app (p a : string) : JSString.endsWith p (a +:+ p) = true.
Proof.
  induction a as [|c a IH].
  - change ("" +:+ p) with p. destruct p; cbn [JSString.endsWith]; rewrite String.eqb_refl; reflexivity.
  - change (JSString.endsWith p (String c a +:+ p))
      with (String.eqb p (String c (a +:+ p)) || JSString.endsWith p (a +:+ p)).
    rewrite IH. apply orb_true_r.
Qed.

Lemma toLowerCase_app (a b : string) :
  toLowerCase (a +:+ b) = toLowerCase a +:+ toLowerCase b.
Proof. induction a as [|c a IH]; simpl; [reflexivity | rewrite IH; reflexivity]. Qed.

Lemma existsb_elem {A} (f : A -> bool) (l : list A) (x : A) :
  x ∈ l -> f x = true -> existsb f l = true.
Proof. intros Hin Hf. apply existsb_exists. exists x. split; [apply list_elem_of_In, Hin | exact Hf]. Qed.

(** X11: [shouldSkipLink] rejects every link that starts with '#' or with
    one of the schemes [javascript:], [mailto:], [tel:], [ftp:], every link
    that contains [/admin], [/api/], [/logout] or [/download] anywhere (so
    also [/administrator] or [/downloads/x]), and every link that ends in a
    dot and one of the ten file extensions written in any letter case. *)
Theorem shouldSkipLink_patterns (a b s : string) :
  (s ∈ ["#"; "javascript:"; "mailto:"; "tel:"; "ftp:"] ->
     shouldSkipLink (s +:+ b) = true)
  /\ (s ∈ ["/admin"; "/api/"; "/logout"; "/download"] ->
     shouldSkipLink (a +:+ s +:+ b) = true)
  /\ (toLowerCase s ∈ fileExtensions -> shouldSkipLink (a +:+ "." +:+ s) = true).
Proof.
  split; [|split]; intros Hs.
  - unfold shouldSkipLink. apply (existsb_elem _ _ (StartsWith s)).
    + unfold skipPatterns. repeat (apply elem_of_cons in Hs as [->|Hs]);
        [..|inversion Hs]; repeat constructor.
    + apply prefix_app.
  - unfold shouldSkipLink. apply (existsb_elem _ _ (Contains s)).
    + unfold skipPatterns. repeat (apply elem_of_cons in Hs as [->|Hs]);
        [..|inversion Hs]; repeat constructor.
    + apply includes_app.
  - unfold shouldSkipLink. apply (existsb_elem _ _ (DotExtension fileExtensions));
      [unfold skipPatterns; repeat constructor|].
    unfold test. apply (existsb_elem _ _ (toLowerCase s) Hs).
    rewrite (toLowerCase_app a ("." +:+ s)).
    change (toLowerCase ("." +:+ s)) with ("." +:+ toLowerCase s).
    apply endsWith_app.
Qed.

Lemma shouldSkipLink_patterns_witness :
  shouldSkipLink "/administrator" = true
  /\ shouldSkipLink "/files/Report.PDF" = true.
Proof.
  split.
  - apply (proj1 (proj2 (shouldSkipLink_patterns "" "istrator" "/admin"))).
    repeat constructor.
  - apply (proj2 (proj2 (shouldSkipLink_patterns "/files/Report" "" "PDF"))).
    repeat constructor.
Defined.

Lemma addLink_inv (resolve : Resolver) (baseHost : string) (hrefs : list string)
    (links : list string) (href : string) :
  (NoDup links /\ forall p, p ∈ links -> exists h, h ∈ hrefs /\ linkOf resolve baseHost h p) ->
  href ∈ hrefs ->
  NoDup (addLink resolve baseHost links href)
  /\ forall p, p ∈ addLink resolve baseHost links href ->
       exists h, h ∈ hrefs /\ linkOf resolve baseHost h p.
Proof.
  intros [Hnd Hall] Hin. unfold addLink.
  destruct (String.eqb_spec href "") as [|Hne]; [split; assumption|].
  destruct (shouldSkipLink href) eqn:Hskip; [split; assumption|].
  destruct (resolve (baseFor href) href) as [linkUrl|] eqn:Hres; [|split; assumption].
  destruct (String.eqb_spec (hostname linkUrl) baseHost) as [Hhost|]; [|split; assumption].
  destruct (nonEmpty (stripSlash (pathname linkUrl))) eqn:Hp; [|split; assumption].
  destruct (JS.includes (stripSlash (pathname linkUrl)) links) eqn:Hinc;
    [split; assumption|]. simpl.
  split.
  - apply NoDup_app. split; [exact Hnd|]. split; [|apply NoDup_singleton].
    intros p Hp1 Hp2. apply list_elem_of_singleton in Hp2. subst p.
    apply includes_elem in Hp1. rewrite Hp1 in Hinc. discriminate.
  - intros p Hp'. apply elem_of_app in Hp' as [Hp'|Hp']; [apply Hall, Hp'|].
    apply list_elem_of_singleton in Hp'. subst p.
    exists href. split; [exact Hin|]. split; [exact Hne|]. split; [exact Hskip|].
    exists linkUrl. repeat split; try assumption. apply nonEmpty_true, Hp.
Qed.

Lemma addLinks_inv (resolve : Resolver) (baseHost : string) (all hrefs links : list string) :
  (forall h, h ∈ hrefs -> h ∈ all) ->
  (NoDup links /\ forall p, p ∈ links -> exists h, h ∈ all /\ linkOf resolve baseHost h p) ->
  NoDup (fold_left (addLink resolve baseHost) hrefs links)
  /\ forall p, p ∈ fold_left (addLink resolve baseHost) hrefs links ->
       exists h, h ∈ all /\ linkOf resolve baseHost h p.
Proof.
  revert links. induction hrefs as [|href hrefs IH]; intros links Hsub Hinv; [exact Hinv|].
  simpl. apply IH.
  - intros h Hh. apply Hsub, list_elem_of_further, Hh.
  - apply addLink_inv; [exact Hinv | apply Hsub, list_elem_of_here].
Qed.


Lemma addLink_mono (resolve : Resolver) (baseHost : string) (links : list string)
    (href p : string) :
  p ∈ links -> p ∈ addLink resolve baseHost links href.
Proof.
  intros Hp. unfold addLink.
  repeat match goal with
         | |- context [if ?b then _ else _] => destruct b
         | |- context [match ?o with Some _ => _ | None => _ end] => destruct o
         end; try exact Hp.
  apply elem_of_app. left. exact Hp.
Qed.

Lemma addLinks_mono (resolve : Resolver) (baseHost : string) (hrefs links : list string)
    (p : string) :
  p ∈ links -> p ∈ fold_left (addLink resolve baseHost) hrefs links.
Proof.
  revert links. induction hrefs as [|h hrefs IH]; intros links Hp; [exact Hp|].
  simpl. apply IH, addLink_mono, Hp.
Qed.

Lemma addLink_adds (resolve : Resolver) (baseHost : string) (links : list string)
    (href p : string) :
  linkOf resolve baseHost href p -> p ∈ addLink resolve baseHost links href.
Proof.
  intros (Hne & Hskip & linkUrl & Hres & Hhost & -> & Hp). unfold addLink.
  apply String.eqb_neq in Hne. rewrite Hne, Hskip, Hres.
  apply String.eqb_eq in Hhost. rewrite Hhost.
  apply nonEmpty_true in Hp. rewrite Hp. simpl.
  destruct (JS.includes (stripSlash (pathname linkUrl)) links) eqn:E; simpl.
  - apply includes_elem, E.
  - apply elem_of_app. right. apply list_elem_of_here.
Qed.

Lemma addLinks_complete (resolve : Resolver) (baseHost : string) (hrefs links : list string)
    (href p : string) :
  href ∈ hrefs -> linkOf resolve baseHost href p ->
  p ∈ fold_left (addLink resolve baseHost) hrefs links.
Proof.
  revert links. induction hrefs as [|h hrefs IH]; intros links Hin Hlink;
    [inversion Hin|].
  simpl. apply elem_of_cons in Hin as [<-|Hin].
  - apply addLinks_mono, addLink_adds, Hlink.
  - apply IH; assumption.
Qed.

Lemma extractLinks_characterised (resolve : Resolver) (baseHost : string)
    (response : PageResponse) :
  NoDup (extractLinksFromPage resolve baseHost response)
  /\ forall p,
       p ∈ extractLinksFromPage resolve baseHost response
       <-> exists contentType hrefs href,
             response = Fetched true contentType hrefs
             /\ JSString.includes "text/html" (JSString.or_string contentType "") = true
             /\ href ∈ hrefs
             /\ linkOf resolve baseHost href p.
Proof.
  destruct response as [|ok contentType hrefs]; simpl.
  - split; [constructor|]. intros p. split; [intros H; inversion H|].
    intros (? & ? & ? & H & _). discriminate.
  - destruct ok; simpl.
    2:{ split; [constructor|]. intros p. split; [intros H; inversion H|].
        intros (? & ? & ? & H & _). discriminate. }
    destruct (JSString.includes "text/html" (JSString.or_string contentType "")) eqn:Ect;
      simpl.
    2:{ split; [constructor|]. intros p. split; [intros H; inversion H|].
        intros (ct & hs & h & [= <- <-] & Hct & _). rewrite Hct in Ect. discriminate. }
    destruct (addLinks_inv resolve baseHost hrefs hrefs [] (fun h H => H)) as [Hnd Hall].
    { split; [constructor|]. intros p H. inversion H. }
    split; [exact Hnd|]. intros p. split.
    + intros Hp. destruct (Hall p Hp) as (h & Hh & Hlink).
      exists contentType, hrefs, h. split; [reflexivity|]. split; [exact Ect|].
      split; assumption.
    + intros (ct & hs & h & [= <- <-] & _ & Hh & Hlink).
      apply (addLinks_complete _ _ _ _ h); assumption.
Qed.

(** X12: [extractLinksFromPage] returns no path twice, and a path is
    returned exactly when the page was fetched successfully as HTML and
    some anchor with a non-empty [href] that [shouldSkipLink] lets through
    resolves to a URL on the base host whose pathname, less one trailing
    slash, is that path. *)
Theorem extractLinksFromPage_links (resolve : Resolver) (baseHost : string)
    (response : PageResponse) :
  NoDup (extractLinksFromPage resolve baseHost response)
  /\ forall p,
       p ∈ extractLinksFromPage resolve baseHost response
       <-> exists contentType hrefs href,
             response = Fetched true contentType hrefs
             /\ JSString.includes "text/html" (JSString.or_string contentType "") = true
             /\ href ∈ hrefs
             /\ linkOf resolve baseHost href p.
Proof. apply extractLinks_characterised. Qed.

Lemma extractLinksFromPage_links_witness :
  "/about" ∈ extractLinksFromPage
               (fun _ href => Some {| hostname := "site.test"; pathname := href |})
               "site.test"
               (Fetched true (Some "text/html; charset=utf-8")
                  ["#top"; "/about/"; "/admin/users"; "/about"]).
Proof.
  apply (extractLinksFromPage_links
           (fun _ href => Some {| hostname := "site.test"; pathname := href |})
           "site.test"
           (Fetched true (Some "text/html; charset=utf-8")
              ["#top"; "/about/"; "/admin/users"; "/about"])).
  exists (Some "text/html; charset=utf-8"),
    ["#top"; "/about/"; "/admin/users"; "/about"], "/about/".
  split; [reflexivity|]. split; [reflexivity|].
  split; [apply list_elem_of_further, list_elem_of_here|].
  split; [discriminate|]. split; [reflexivity|].
  exists {| hostname := "site.test"; pathname := "/about/" |}.
  repeat split. discriminate.
Defined.

(** X13: a crawl whose links are those [extractLinksFromPage] reads off
    the fetched pages never leaves the site: every page it returns is a
    start path or was linked on a page [q] returned as well -- [q] was
    fetched successfully as HTML, and one of its anchors, which
    [shouldSkipLink] lets through, resolves against [q] to the page's path
    on the base host. *)
Theorem crawl_stays_on_site (config : Config) (resolve : string -> Resolver)
    (fetch : string -> PageResponse) (baseHost : string) (options : Options) :
  let links := fun path => extractLinksFromPage (resolve path) baseHost (fetch path) in
  exists (rounds : nat) (found : list string),
    (forall fuel, (rounds <= fuel)%nat ->
       discoverByCrawling fuel config links (Some baseHost) options = Returns found)
    /\ forall p, p ∈ found ->
         p ∈ default ["/"] (options_startPaths options)
         \/ exists q contentType hrefs href,
              q ∈ found
              /\ fetch q = Fetched true contentType hrefs
              /\ JSString.includes "text/html" (JSString.or_string contentType "") = true
              /\ href ∈ hrefs
              /\ linkOf (resolve q) baseHost href p.
Proof.
  intros links.
  destruct (crawl_final_state config links options)
    as (rounds & st & Hrun & (_ & _ & _ & Hfrom & _) & _).
  exists rounds, (discovered st). split.
  - intros fuel Hle. unfold discoverByCrawling. rewrite (Hrun fuel Hle). reflexivity.
  - intros p Hp. destruct (Hfrom p (or_introl Hp)) as [Hseed|(q & Hq & Hlink)];
      [left; exact Hseed|].
    right. apply extractLinks_characterised in Hlink
      as (contentType & hrefs & href & Hfetch & Hhtml & Hhref & Hlink).
    exists q, contentType, hrefs, href. repeat (split; [assumption|]). exact Hlink.
Qed.

Lemma crawl_stays_on_site_witness :
  exists found : list string,
    discoverByCrawling 10 DiscoverySpec.defaultConfig
      (fun path =>
         extractLinksFromPage
           (fun _ href => Some {| hostname := "site.test"; pathname := href |})
           "site.test"
           (Fetched true (Some "text/html") (DiscoverySpec.cyclicLinks path)))
      (Some "site.test") (DiscoverySpec.crawlOptions None)
    = Returns found
    /\ forall p, p ∈ found ->
         p ∈ ["/"]
         \/ exists q contentType hrefs href,
              q ∈ found
              /\ Fetched true (Some "text/html") (DiscoverySpec.cyclicLinks q)
                 = Fetched true contentType hrefs
              /\ JSString.includes "text/html" (JSString.or_string contentType "") = true
              /\ href ∈ hrefs
              /\ linkOf (fun _ href => Some {| hostname := "site.test"; pathname := href |})
                   "site.test" href p.
Proof.
  destruct (crawl_stays_on_site DiscoverySpec.defaultConfig
              (fun _ _ href => Some {| hostname := "site.test"; pathname := href |})
              (fun path => Fetched true (Some "text/html") (DiscoverySpec.cyclicLinks path))
              "site.test" (DiscoverySpec.crawlOptions None))
    as (rounds & found & Hrun & Hfrom).
  exists found. split; [|exact Hfrom].
  specialize (Hrun (Nat.max rounds 10) (Nat.le_max_l _ _)).
  rewrite <- Hrun. symmetry.
  unfold discoverByCrawling in *.
  match goal with
  | |- context [crawlLoop 10 ?links ?budget ?init] =>
      destruct (crawlLoop 10 links budget init) as [st|] eqn:E;
        [|vm_compute in E; discriminate];
      rewrite (crawlLoop_mono _ _ _ _ _ _ E (Nat.le_max_r rounds 10))
  end.
  reflexivity.
Defined.

End LinkFacts.

(** * Properties of the scanner service *)

Section ScannerFacts.
Import ScannerService ScanProcessing ScanProps ScoreSpec.

Lemma levelTags_cases (level : string) :
  levelTags level = ["wcag2a"; "wcag21a"] /\ level = "A"
  \/ levelTags level = ["wcag2a"; "wcag2aa"; "wcag21a"; "wcag21aa"] /\ level = "AA"
  \/ levelTags level = ["wcag2a"; "wcag2aa"; "wcag2aaa"; "wcag21a"; "wcag21aa"]
     /\ level = "AAA"
  \/ levelTags level = [] /\ level ∉ ["A"; "AA"; "AAA"].
Proof.
  unfold levelTags.
  destruct (String.eqb_spec level "A") as [->|H1]; [tauto|].
  destruct (String.eqb_spec level "AA") as [->|H2]; [tauto|].
  destruct (String.eqb_spec level "AAA") as [->|H3]; [tauto|].
  right. right. right. split; [reflexivity|].
  intros H. repeat (apply elem_of_cons in H as [H|H]; [congruence|]). inversion H.
Qed.

Lemma getAxeTags_elem (config : TagConfig) (options : TagOptions) (t : string) :
  t ∈ getAxeTags config options
  <-> t ∈ levelTags (JSString.or_string (wcagLevel options) (config_wcagLevel config))
      \/ (t = "best-practice"
          /\ default (config_includeBestPractices config) (includeBestPractices options) = true)
      \/ (t = "experimental"
          /\ default (config_includeExperimental config) (includeExperimental options) = true).
Proof.
  unfold getAxeTags.
  destruct (default (config_includeBestPractices config) (includeBestPractices options));
    destruct (default (config_includeExperimental config) (includeExperimental options));
    rewrite ?elem_of_app, ?list_elem_of_singleton; intuition congruence.
Qed.

Lemma or_string_level (level : string) (options : TagOptions) (config : TagConfig) :
  level <> "" ->
  JSString.or_string (wcagLevel (withLevel level options)) (config_wcagLevel config) = level.
Proof.
  intros H. simpl. apply String.eqb_neq in H. rewrite H. reflexivity.
Qed.

(** X14: the tags [getAxeTags] selects grow with the level (those of A are
    among those of AA, which are among those of AAA); the level is compared
    exactly, so any other non-empty level, such as lower-case [aa], selects
    no WCAG tag at all; an explicit [false] in the request switches best
    practices off even when the service configuration enables them; and no
    tag is listed twice. *)
Theorem getAxeTags_levels (config : TagConfig) (options : TagOptions) :
  getAxeTags config (withLevel "A" options) ⊆ getAxeTags config (withLevel "AA" options)
  /\ getAxeTags config (withLevel "AA" options)
       ⊆ getAxeTags config (withLevel "AAA" options)
  /\ (forall level t,
        level <> "" -> level ∉ ["A"; "AA"; "AAA"] ->
        t ∈ getAxeTags config (withLevel level options) ->
        t = "best-practice" \/ t = "experimental")
  /\ (includeBestPractices options = Some false ->
        "best-practice" ∉ getAxeTags config options)
  /\ NoDup (getAxeTags config options).
Proof.
  split; [|split; [|split; [|split]]].
  - intros t. rewrite !getAxeTags_elem, !or_string_level by discriminate.
    intros [H|H]; [left|right; exact H].
    change (t ∈ ["wcag2a"; "wcag21a"]) in H.
    change (t ∈ ["wcag2a"; "wcag2aa"; "wcag21a"; "wcag21aa"]).
    repeat (apply elem_of_cons in H as [->|H]); [..|inversion H];
      rewrite !elem_of_cons; tauto.
  - intros t. rewrite !getAxeTags_elem, !or_string_level by discriminate.
    intros [H|H]; [left|right; exact H].
    change (t ∈ ["wcag2a"; "wcag2aa"; "wcag21a"; "wcag21aa"]) in H.
    change (t ∈ ["wcag2a"; "wcag2aa"; "wcag2aaa"; "wcag21a"; "wcag21aa"]).
    repeat (apply elem_of_cons in H as [->|H]); [..|inversion H];
      rewrite !elem_of_cons; tauto.
  - intros level t Hne Hlevel. rewrite getAxeTags_elem, or_string_level by exact Hne.
    destruct (levelTags_cases level) as [[_ ->]|[[_ ->]|[[_ ->]|[-> _]]]];
      try (contradiction Hlevel; rewrite !elem_of_cons; tauto).
    intros [H|[[-> _]|[-> _]]]; [inversion H | tauto | tauto].
  - intros Hoff. rewrite getAxeTags_elem, Hoff. simpl.
    intros [H|[[_ H]|[H _]]]; try discriminate.
    destruct (levelTags_cases (JSString.or_string (wcagLevel options) (config_wcagLevel config)))
      as [[E _]|[[E _]|[[E _]|[E _]]]]; rewrite E in H;
      repeat (apply elem_of_cons in H as [H|H]; [discriminate|]); inversion H.
  - unfold getAxeTags.
    destruct (levelTags_cases (JSString.or_string (wcagLevel options) (config_wcagLevel config)))
      as [[E _]|[[E _]|[[E _]|[E _]]]]; rewrite E;
      destruct (default (config_includeBestPractices config) (includeBestPractices options));
      destruct (default (config_includeExperimental config) (includeExperimental options));
      simpl;
      match goal with |- NoDup ?l => apply (bool_decide_unpack (NoDup l)) end;
      vm_compute; exact I.
Qed.

Lemma getAxeTags_levels_witness :
  "best-practice" ∉ getAxeTags
     {| config_wcagLevel := "AA"; config_includeBestPractices := true;
        config_includeExperimental := false |}
     {| wcagLevel := None; includeBestPractices := Some false;
        includeExperimental := None |}.
Proof.
  apply (getAxeTags_levels
           {| config_wcagLevel := "AA"; config_includeBestPractices := true;
              config_includeExperimental := false |}
           {| wcagLevel := None; includeBestPractices := Some false;
              includeExperimental := None |}).
  reflexivity.
Defined.

Lemma slice_to_10_length {A} (l : list A) : (length (JS.slice_to l 10) <= 10)%nat.
Proof. unfold JS.slice_to. simpl. rewrite length_take. lia. Qed.

(** X15: [processViolations] keeps one entry per violation, in order, each
    with the violation's impact and at most ten nodes, the first ones; its
    [nodeCount] is the number of nodes found, whatever was cut, so the node
    count the action attributes to the violation is unaffected by the
    truncation (and is 1 for a violation without nodes). *)
Theorem processViolations_counts (violations : list AxeRule) :
  length (processViolations violations) = length violations
  /\ Forall2 (fun v pv =>
                pv_impact pv = impact v
                /\ pv_nodes pv = take 10 (nodes v)
                /\ (length (pv_nodes pv) <= 10)%nat
                /\ pv_nodeCount pv = Z.of_nat (length (nodes v))
                /\ Action.affectedNodes (received pv)
                   = Z.max 1 (Z.of_nat (length (nodes v))))
       violations (processViolations violations).
Proof.
  split; [apply length_map|].
  induction violations as [|v violations IH]; simpl; constructor; [|exact IH].
  simpl. split; [reflexivity|]. split.
  { unfold JS.slice_to. simpl. change (Z.to_nat 10) with 10%nat.
    generalize (take 10 (nodes v)).
    intros l. induction l as [|[h t f] l IHl]; simpl; [reflexivity | rewrite IHl; reflexivity]. }
  split; [rewrite length_map; apply slice_to_10_length|].
  split; [reflexivity|].
  unfold Action.affectedNodes, received. simpl.
  destruct (nodes v) as [|n ns] eqn:E; [reflexivity|].
  unfold JS.js_or.
  destruct (Z.of_nat (length (n :: ns)) =? 0) eqn:Z0; [simpl in Z0; lia|].
  simpl length. lia.
Qed.

End ScannerFacts.
Section ScoreFacts.
Import ScannerService ScanProcessing ScanProps ScoreSpec.

Lemma calculateScore_cases (results : AxeResults) :
  plainImpacts (violations results) ->
  calculateScore results
  = if totalTests results =? 0 then JS.of_Z 100
    else clamp (scoreFormula (totalTests results * 4) (weightedViolations (violations results))).
Proof. intros Hplain. rewrite (calculateScore_specScore _ Hplain). reflexivity. Qed.

(** X16: for results whose impacts name no property inherited from
    [Object.prototype], [calculateScore] saturates at both ends.  It is 100
    not only for a page without violations but whenever the weighted
    violations are less than half a percent of the maximum weight
    [4 * (passes + violations)], so a score of 100 does not mean that
    nothing was found; and it is 0 as soon as the weighted violations reach
    the maximum weight. *)
Theorem calculateScore_saturates (results : AxeResults) :
  plainImpacts (violations results) ->
  totalTests results <= 2 ^ 42 ->
  weightedViolations (violations results) < 2 ^ 53 ->
  weighViolations (violations results) = Some (weightedViolations (violations results))
  /\ (violations results = [] -> calculateScore results = JS.of_Z 100)
  /\ (200 * weightedViolations (violations results) < 4 * totalTests results ->
      calculateScore results = JS.of_Z 100)
  /\ (0 < totalTests results ->
      4 * totalTests results <= weightedViolations (violations results) ->
      calculateScore results = JS.of_Z 0).
Proof.
  intros Hplain HT Hw.
  pose proof (weightedViolations_nonneg (violations results)) as Hw0.
  split; [apply weighViolations_sum, Hplain|].
  assert (Hlow : 200 * weightedViolations (violations results) < 4 * totalTests results ->
                 calculateScore results = JS.of_Z 100).
  { intros Hsmall. rewrite (calculateScore_cases _ Hplain).
    destruct (totalTests results =? 0) eqn:E; [reflexivity|]. apply Z.eqb_neq in E.
    destruct (clamped_formula_nearest (totalTests results * 4)
                (weightedViolations (violations results))) as (s & -> & Hnear).
    - change (2 ^ 44) with (2 ^ 42 * 4). lia.
    - lia.
    - f_equal. assert (100 <= s) by nia. lia. }
  split; [|split; [exact Hlow|]].
  - intros Hnone. destruct (totalTests results =? 0) eqn:E.
    + rewrite (calculateScore_cases _ Hplain), E. reflexivity.
    + apply Z.eqb_neq in E. apply Hlow. rewrite Hnone.
      change (weightedViolations []) with 0.
      unfold totalTests in *. lia.
  - intros Hpos Hall. rewrite (calculateScore_cases _ Hplain).
    destruct (totalTests results =? 0) eqn:E; [apply Z.eqb_eq in E; lia|].
    destruct (clamped_formula_nearest (totalTests results * 4)
                (weightedViolations (violations results))) as (s & -> & Hnear).
    + change (2 ^ 44) with (2 ^ 42 * 4). lia.
    + lia.
    + f_equal. assert (s <= 0) by nia. lia.
Qed.

Lemma calculateScore_saturates_witness :
  calculateScore {| passes := repeat (axeRule "" 1) 60;
                    violations := [axeRule "minor" 1] |} = JS.of_Z 100
  /\ calculateScore {| passes := [axeRule "" 1];
                       violations := [axeRule "critical" 2] |} = JS.of_Z 0.
Proof.
  split.
  - refine (proj1 (proj2 (proj2 (calculateScore_saturates
             {| passes := repeat (axeRule "" 1) 60; violations := [axeRule "minor" 1] |}
             _ _ _))) _);
      first [solve [repeat constructor] | vm_compute; first [reflexivity | discriminate]].
  - refine (proj2 (proj2 (proj2 (calculateScore_saturates
             {| passes := [axeRule "" 1]; violations := [axeRule "critical" 2] |}
             _ _ _))) _ _);
      first [solve [repeat constructor] | vm_compute; first [reflexivity | discriminate]].
Defined.

(** X17: among results over the same number of rules whose impacts name no
    property inherited from [Object.prototype], more weighted violations
    never give a higher score: both scores are integers between 0 and 100
    and the one for the larger weight is at most the other. *)
Theorem calculateScore_monotone (results results' : AxeResults) :
  plainImpacts (violations results) ->
  plainImpacts (violations results') ->
  totalTests results = totalTests results' ->
  totalTests results <= 2 ^ 42 ->
  weightedViolations (violations results) <= weightedViolations (violations results') ->
  weightedViolations (violations results') < 2 ^ 53 ->
  exists score score' : Z,
    calculateScore results = JS.of_Z score
    /\ calculateScore results' = JS.of_Z score'
    /\ 0 <= score' <= score /\ score <= 100.
Proof.
  intros Hplain Hplain' HT Hbound Hle Hw'.
  pose proof (weightedViolations_nonneg (violations results)) as Hw0.
  rewrite (calculateScore_cases _ Hplain), (calculateScore_cases _ Hplain'), <- HT.
  destruct (totalTests results =? 0) eqn:E; [exists 100, 100; repeat split; lia|].
  apply Z.eqb_neq in E.
  assert (Hpos : 0 < totalTests results) by (unfold totalTests in *; lia).
  assert (HM : 0 < totalTests results * 4 <= 2 ^ 44)
    by (change (2 ^ 44) with (2 ^ 42 * 4); lia).
  destruct (Z.eq_dec (weightedViolations (violations results))
              (weightedViolations (violations results'))) as [Heq|Hne].
  - rewrite <- Heq.
    destruct (clamped_formula_nearest _ (weightedViolations (violations results)) HM)
      as (s & -> & _); [lia|].
    exists (Z.max 0 (Z.min 100 s)), (Z.max 0 (Z.min 100 s)). repeat split; lia.
  - destruct (clamped_formula_nearest _ (weightedViolations (violations results)) HM)
      as (s & -> & Hs); [lia|].
    destruct (clamped_formula_nearest _ (weightedViolations (violations results')) HM)
      as (s' & -> & Hs'); [lia|].
    exists (Z.max 0 (Z.min 100 s)), (Z.max 0 (Z.min 100 s')).
    split; [reflexivity|]. split; [reflexivity|].
    assert (s' <= s) by nia. lia.
Qed.

Lemma calculateScore_monotone_witness :
  exists score score' : Z,
    calculateScore {| passes := [axeRule "" 1]; violations := [axeRule "minor" 1] |}
    = JS.of_Z score
    /\ calculateScore {| passes := [axeRule "" 1]; violations := [axeRule "serious" 2] |}
       = JS.of_Z score'
    /\ 0 <= score' <= score /\ score <= 100.
Proof.
  apply (calculateScore_monotone
           {| passes := [axeRule "" 1]; violations := [axeRule "minor" 1] |}
           {| passes := [axeRule "" 1]; violations := [axeRule "serious" 2] |});
    first [solve [repeat constructor] | vm_compute; first [reflexivity | discriminate]].
Defined.

End ScoreFacts.

(** * Properties of the action: scanning, aggregation, verdict *)

Section RunFacts.
Import Action ActionRun AggregationSpec.

Lemma executeScans_from (serverUrl : string) (scanner : Scanner) (pages : list string)
    (results : list ScanResult) :
  fold_left
    (fun results page =>
       match scanner (fullUrl serverUrl page) with
       | Some result => results ++ [result]
       | None => results ++ [failedScan (fullUrl serverUrl page)]
       end) pages results
  = results ++ map (fun page => default (failedScan (fullUrl serverUrl page))
                                  (scanner (fullUrl serverUrl page))) pages.
Proof.
  revert results. induction pages as [|page pages IH]; intros results; simpl;
    [rewrite app_nil_r; reflexivity|].
  rewrite IH. destruct (scanner (fullUrl serverUrl page)) as [result|]; simpl;
    rewrite <- app_assoc; reflexivity.
Qed.

Lemma executeScans_map (serverUrl : string) (scanner : Scanner) (pages : list string) :
  executeScans serverUrl scanner pages
  = map (fun page => default (failedScan (fullUrl serverUrl page))
                       (scanner (fullUrl serverUrl page))) pages.
Proof. unfold executeScans. rewrite executeScans_from. reflexivity. Qed.

Lemma filter_none {A} (p : A -> bool) (l : list A) :
  (forall x, x ∈ l -> p x = false) -> List.filter p l = [].
Proof.
  induction l as [|x l IH]; intros H; simpl; [reflexivity|].
  rewrite (H x (list_elem_of_here _ _)). apply IH.
  intros y Hy. apply H, list_elem_of_further, Hy.
Qed.

Lemma filter_all {A} (p : A -> bool) (l : list A) :
  (forall x, x ∈ l -> p x = true) -> List.filter p l = l.
Proof.
  induction l as [|x l IH]; intros H; simpl; [reflexivity|].
  rewrite (H x (list_elem_of_here _ _)). f_equal. apply IH.
  intros y Hy. apply H, list_elem_of_further, Hy.
Qed.

Lemma threshold_positive (parsed : option Z) :
  (forall t, parsed = Some t -> 0 <= t) -> 0 < threshold parsed.
Proof.
  intros H. unfold threshold, JS.js_or. destruct parsed as [t|]; [|lia].
  destruct (t =? 0) eqn:E; [lia|]. apply Z.eqb_neq in E. specialize (H t eq_refl). lia.
Qed.

(** X18: when the scanner answers no request, [executeScans] still returns
    one result per page, all failed; the aggregate then counts no completed
    scan, has score 0 and no violations, and [evaluateSuccess] is false for
    every threshold input that is absent, not a number or not negative (an
    input of 0 counts as absent and gives the default 80). *)
Theorem run_without_scanner (serverUrl : string) (scanner : Scanner)
    (pages : list string) (parsed : option Z) :
  (forall page, page ∈ pages -> scanner (fullUrl serverUrl page) = None) ->
  (forall t, parsed = Some t -> 0 <= t) ->
  let report := aggregateResults (executeScans serverUrl scanner pages) in
  map url (executeScans serverUrl scanner pages) = map (fullUrl serverUrl) pages
  /\ totalScans report = Z.of_nat (length pages)
  /\ completedScans report = 0
  /\ failedScans report = Z.of_nat (length pages)
  /\ score report = 0
  /\ totalViolations report = 0
  /\ evaluateSuccess (threshold parsed) report = false.
Proof.
  intros Hdown Hparsed report.
  assert (Hres : executeScans serverUrl scanner pages
                 = map (fun page => failedScan (fullUrl serverUrl page)) pages).
  { rewrite executeScans_map. apply map_ext_in. intros page Hin.
    rewrite (Hdown page (proj2 (list_elem_of_In _ _) Hin)). reflexivity. }
  assert (Hnone : List.filter isCompleted (executeScans serverUrl scanner pages) = []).
  { apply filter_none. intros r Hr. rewrite Hres in Hr.
    apply list_elem_of_In, in_map_iff in Hr as (page & <- & _). reflexivity. }
  assert (Hall : List.filter isFailed (executeScans serverUrl scanner pages)
                 = executeScans serverUrl scanner pages).
  { apply filter_all. intros r Hr. rewrite Hres in Hr.
    apply list_elem_of_In, in_map_iff in Hr as (page & <- & _). reflexivity. }
  assert (Hscore : score report = 0).
  { unfold report. rewrite score_unfold. cbv zeta. rewrite Hnone. reflexivity. }
  split; [rewrite Hres, map_map; reflexivity|].
  split; [unfold report; simpl; rewrite Hres, length_map; reflexivity|].
  split; [unfold report; simpl; rewrite Hnone; reflexivity|].
  split; [unfold report; simpl; rewrite Hall, Hres, length_map; reflexivity|].
  split; [exact Hscore|].
  split; [unfold report; simpl; rewrite Hnone; reflexivity|].
  unfold evaluateSuccess. rewrite Hscore.
  pose proof (threshold_positive parsed Hparsed). rewrite Z.geb_leb. apply Z.leb_gt. lia.
Qed.

Lemma run_without_scanner_witness :
  evaluateSuccess (threshold (Some 0))
    (aggregateResults (executeScans "http://site.test" (fun _ => None) ["/"; "/a"]))
  = false.
Proof.
  apply (run_without_scanner "http://site.test" (fun _ => None) ["/"; "/a"] (Some 0)).
  - reflexivity.
  - intros t [= <-]. lia.
Defined.

(** X19: a page whose scan request fails is reported as one more failed
    scan and changes nothing else: score, totals, histogram and
    remediation plan are those of the run without that page. *)
Theorem failed_request_leaves_report (serverUrl : string) (scanner : Scanner)
    (before after : list string) (page : string) :
  scanner (fullUrl serverUrl page) = None ->
  let report := aggregateResults (executeScans serverUrl scanner (before ++ page :: after)) in
  let report' := aggregateResults (executeScans serverUrl scanner (before ++ after)) in
  totalScans report = totalScans report' + 1
  /\ failedScans report = failedScans report' + 1
  /\ completedScans report = completedScans report'
  /\ score report = score report'
  /\ totalViolations report = totalViolations report'
  /\ totalPasses report = totalPasses report'
  /\ violationsBySeverity report = violationsBySeverity report'
  /\ hasEnhancedAnalysis report = hasEnhancedAnalysis report'
  /\ remediationPlan_ report = remediationPlan_ report'.
Proof.
  intros Hfail report report'.
  set (scan := fun page => default (failedScan (fullUrl serverUrl page))
                             (scanner (fullUrl serverUrl page))).
  assert (Hpage : scan page = failedScan (fullUrl serverUrl page))
    by (unfold scan; rewrite Hfail; reflexivity).
  assert (Hc : List.filter isCompleted (executeScans serverUrl scanner (before ++ page :: after))
               = List.filter isCompleted (executeScans serverUrl scanner (before ++ after))).
  { rewrite !executeScans_map. fold scan. rewrite !map_app. simpl.
    rewrite filter_app_cons, List.filter_app, Hpage. reflexivity. }
  assert (Hf : length (List.filter isFailed
                         (executeScans serverUrl scanner (before ++ page :: after)))
               = S (length (List.filter isFailed
                              (executeScans serverUrl scanner (before ++ after))))).
  { rewrite !executeScans_map. fold scan. rewrite !map_app. simpl.
    rewrite filter_app_cons, List.filter_app, Hpage. simpl.
    rewrite !length_app. simpl. lia. }
  unfold report, report'. rewrite !score_unfold. cbv zeta. simpl. rewrite Hc, Hf.
  rewrite !executeScans_map, !length_map, !length_app. simpl.
  repeat split; lia.
Qed.

Lemma failed_request_leaves_report_witness :
  score (aggregateResults
           (executeScans "http://site.test"
              (fun u => if String.eqb u "http://site.test/" then Some (plainPage "completed" 90)
                        else None)
              ["/"; "/down"])) = 90.
Proof.
  destruct (failed_request_leaves_report "http://site.test"
              (fun u => if String.eqb u "http://site.test/" then Some (plainPage "completed" 90)
                        else None)
              ["/"] [] "/down" eq_refl) as (_ & _ & _ & Hscore & _).
  exact Hscore.
Defined.

End RunFacts.
Section AggregateFacts.
Import Action ActionRun AggregationSpec.

Lemma sumZ_bounds (lo hi : Z) (l : list Z) :
  (forall x, x ∈ l -> lo <= x <= hi) ->
  lo * Z.of_nat (length l) <= sumZ l <= hi * Z.of_nat (length l).
Proof.
  induction l as [|x l IH]; intros H; [simpl; lia|].
  pose proof (H x (list_elem_of_here _ _)).
  assert (lo * Z.of_nat (length l) <= sumZ l <= hi * Z.of_nat (length l))
    by (apply IH; intros y Hy; apply H, list_elem_of_further, Hy).
  change (sumZ (x :: l)) with (x + sumZ l).
  rewrite length_cons, Nat2Z.inj_succ. lia.
Qed.

Lemma round_div_between (lo hi a n : Z) :
  0 < n -> lo * n <= a <= hi * n -> lo <= JS.round_div a n <= hi.
Proof.
  intros Hn Ha. pose proof (round_div_nearest a n Hn). nia.
Qed.

(** X20: the overall score lies between the lowest and the highest
    effective score of the completed pages: if these are all within
    [lo, hi], so is the report's score (in particular it is within 0..100
    when the page scores are). *)
Theorem overall_score_between (scanResults : list ScanResult) (lo hi : Z) :
  (exists r, r ∈ scanResults /\ isCompleted r = true) ->
  (forall r, r ∈ scanResults -> isCompleted r = true -> lo <= effectiveScore r <= hi) ->
  lo <= score (aggregateResults scanResults) <= hi.
Proof.
  intros (r0 & Hin0 & Hc0) Hall. rewrite score_unfold. cbv zeta.
  set (completed := List.filter isCompleted scanResults).
  assert (Hlen : 0 < Z.of_nat (length completed)).
  { assert (Hr0 : In r0 completed)
      by (apply filter_In; split; [apply list_elem_of_In, Hin0 | exact Hc0]).
    destruct completed; [contradiction Hr0 | simpl; lia]. }
  destruct (0 <? Z.of_nat (length completed)) eqn:E; [|apply Z.ltb_ge in E; lia].
  apply round_div_between; [exact Hlen|].
  rewrite <- (length_map effectiveScore completed). apply sumZ_bounds.
  intros x Hx. apply list_elem_of_In, in_map_iff in Hx as (r & <- & Hr).
  apply filter_In in Hr as [Hr Hc]. apply Hall; [apply list_elem_of_In, Hr | exact Hc].
Qed.

Lemma overall_score_between_witness :
  0 <= score (aggregateResults threePages) <= 100.
Proof.
  apply (overall_score_between threePages 0 100).
  - exists (plainPage "completed" 80). split; [apply list_elem_of_here | reflexivity].
  - intros r Hr _. unfold threePages in Hr.
    repeat (apply elem_of_cons in Hr as [->|Hr]); [..|inversion Hr]; vm_compute;
      split; discriminate.
Defined.

Lemma filter_lengths (rs : list ScanResult) :
  (length (List.filter isCompleted rs) + length (List.filter isFailed rs) <= length rs)%nat
  /\ ((length (List.filter isCompleted rs) + length (List.filter isFailed rs))%nat = length rs
      <-> Forall (fun r => status r = "completed" \/ status r = "failed") rs).
Proof.
  induction rs as [|r rs [IHle IHeq]]; simpl.
  - split; [lia|]. split; [constructor | reflexivity].
  - assert (Hc : isCompleted r = true <-> status r = "completed") by apply String.eqb_eq.
    assert (Hf : isFailed r = true <-> status r = "failed") by apply String.eqb_eq.
    rewrite Forall_cons.
    destruct (isCompleted r) eqn:Ec; destruct (isFailed r) eqn:Ef; simpl.
    + destruct Hc as [Hc _], Hf as [Hf _]. rewrite (Hc eq_refl) in Hf.
      specialize (Hf eq_refl). discriminate.
    + split; [lia|]. split.
      * intros H. split; [tauto|]. apply IHeq. lia.
      * intros [_ H]. apply IHeq in H. lia.
    + split; [lia|]. split.
      * intros H. split; [tauto|]. apply IHeq. lia.
      * intros [_ H]. apply IHeq in H. lia.
    + split; [lia|]. split.
      * intros H. lia.
      * intros [[H|H] _]; [apply Hc in H | apply Hf in H]; discriminate.
Qed.

(** X21: completed and failed scans together never exceed the total, and
    they add up to it exactly when every result has one of the statuses
    [completed] and [failed]; a result with any other status is counted in
    the total only.  The page results list every scan, in order, completed
    or not. *)
Theorem report_counts (scanResults : list ScanResult) :
  let report := aggregateResults scanResults in
  completedScans report + failedScans report <= totalScans report
  /\ (completedScans report + failedScans report = totalScans report
      <-> Forall (fun r => status r = "completed" \/ status r = "failed") scanResults)
  /\ map page_url (pageResults report) = map url scanResults
  /\ map page_status (pageResults report) = map status scanResults.
Proof.
  intros report. destruct (filter_lengths scanResults) as [Hle Heq].
  unfold report; simpl. split; [lia|]. split; [rewrite <- Heq; lia|].
  rewrite !map_map. split; reflexivity.
Qed.

Lemma report_counts_witness :
  completedScans (aggregateResults threePages) + failedScans (aggregateResults threePages)
  = totalScans (aggregateResults threePages).
Proof.
  apply (proj1 (proj2 (report_counts threePages))).
  repeat constructor; simpl; tauto.
Defined.

End AggregateFacts.
Section PlanFacts.
Import Action ActionRun AggregationSpec PlanProps.

Lemma dedupByKey_sublist (issues unique : list Issue) :
  exists kept, dedupByKey issues unique = unique ++ kept /\ kept `sublist_of` issues.
Proof.
  revert unique. induction issues as [|i issues IH]; intros unique.
  - exists []. split; [symmetry; apply app_nil_r | constructor].
  - unfold dedupByKey. simpl. fold (dedupByKey issues).
    destruct (existsb (sameKey i) unique).
    + destruct (IH unique) as (kept & Hk & Hs). fold (dedupByKey issues unique).
      exists kept. split; [exact Hk | apply sublist_cons, Hs].
    + destruct (IH (unique ++ [i])) as (kept & Hk & Hs).
      fold (dedupByKey issues (unique ++ [i])).
      exists (i :: kept). split; [rewrite Hk, <- app_assoc; reflexivity|].
      apply sublist_skip, Hs.
Qed.

Lemma sameKey_elem (i : Issue) (unique : list Issue) :
  existsb (sameKey i) unique = true <-> issueKey i ∈ map issueKey unique.
Proof.
  rewrite existsb_exists, list_elem_of_In, in_map_iff. split.
  - intros (j & Hin & Heq). apply String.eqb_eq in Heq. eauto.
  - intros (j & Heq & Hin). exists j. split; [exact Hin | apply String.eqb_eq, Heq].
Qed.

Lemma dedupByKey_NoDup (issues unique : list Issue) :
  NoDup (map issueKey unique) -> NoDup (map issueKey (dedupByKey issues unique)).
Proof.
  revert unique. induction issues as [|i issues IH]; intros unique Hnd; [exact Hnd|].
  unfold dedupByKey. simpl. fold (dedupByKey issues).
  destruct (existsb (sameKey i) unique) eqn:E.
  - apply IH, Hnd.
  - apply IH. rewrite map_app. apply NoDup_app. split; [exact Hnd|]. split.
    + intros k Hk Hk'. simpl in Hk'. apply list_elem_of_singleton in Hk'. subst k.
      apply sameKey_elem in Hk. rewrite Hk in E. discriminate.
    + apply NoDup_singleton.
Qed.

Lemma dedupByKey_distinct (issues unique : list Issue) :
  NoDup (map issueKey (unique ++ issues)) -> dedupByKey issues unique = unique ++ issues.
Proof.
  revert unique. induction issues as [|i issues IH]; intros unique Hnd;
    [symmetry; apply app_nil_r|].
  unfold dedupByKey. simpl. fold (dedupByKey issues).
  destruct (existsb (sameKey i) unique) eqn:E.
  - exfalso. apply sameKey_elem in E. rewrite map_app in Hnd.
    apply NoDup_app in Hnd as (_ & Hdis & _). apply (Hdis _ E). simpl. apply list_elem_of_here.
  - rewrite IH; rewrite <- app_assoc; [reflexivity | exact Hnd].
Qed.

(** X22: [deduplicateIssues] returns at most five issues, taken from its
    input in their order, no two of them with the same key (title followed
    by description); an input of at most five issues with distinct keys is
    returned unchanged. *)
Theorem deduplicateIssues_kept (issues : list Issue) :
  (length (deduplicateIssues issues) <= 5)%nat
  /\ deduplicateIssues issues `sublist_of` issues
  /\ NoDup (map issueKey (deduplicateIssues issues))
  /\ (NoDup (map issueKey issues) -> (length issues <= 5)%nat ->
      deduplicateIssues issues = issues).
Proof.
  rewrite deduplicateIssues_by_key.
  destruct (dedupByKey_sublist issues []) as (kept & Hk & Hs). simpl in Hk.
  split; [rewrite length_take; lia|]. split; [|split].
  - rewrite Hk. transitivity kept; [apply sublist_take | exact Hs].
  - apply (sublist_NoDup _ (map issueKey (dedupByKey issues []))).
    + apply dedupByKey_NoDup. constructor.
    + apply (fmap_sublist issueKey), sublist_take.
  - intros Hnd Hlen. rewrite (dedupByKey_distinct issues [] Hnd). simpl.
    apply take_ge. lia.
Qed.

Lemma deduplicateIssues_kept_witness :
  deduplicateIssues [issueB; issueB] `sublist_of` [issueB; issueB]
  /\ deduplicateIssues [issueB] = [issueB].
Proof.
  split.
  - apply (deduplicateIssues_kept [issueB; issueB]).
  - apply (deduplicateIssues_kept [issueB]).
    + apply NoDup_singleton.
    + simpl. lia.
Defined.

Lemma planStep_fold (scans : list ScanResult) (plan : AggregatedPlan) :
  let plan' := fold_left planStep scans plan in
  totalQuickFixes plan' = totalQuickFixes plan + sumZ (map quickOf scans)
  /\ totalMediumFixes plan' = totalMediumFixes plan + sumZ (map mediumOf scans)
  /\ totalComplexFixes plan' = totalComplexFixes plan + sumZ (map complexOf scans)
  /\ topPriority1Issues plan' = topPriority1Issues plan ++ flat_map issuesOf scans.
Proof.
  revert plan. induction scans as [|scan scans IH]; intros plan; simpl.
  - rewrite app_nil_r. repeat split; lia.
  - destruct (IH (planStep plan scan)) as (Hq & Hm & Hc & Hi).
    rewrite Hq, Hm, Hc, Hi. clear.
    unfold planStep, quickOf, mediumOf, complexOf, issuesOf, effortOf.
    destruct ((enhancedAnalysis scan ≫= remediationPlan) ≫= estimatedEffort); simpl;
      rewrite <- ?app_assoc; repeat split; lia.
Qed.

Lemma no_annotated (completed : list ScanResult) :
  (Z.of_nat (length (List.filter hasAnalysis completed)) =? 0) = negb (existsb hasAnalysis completed).
Proof.
  induction completed as [|r rs IH]; simpl; [reflexivity|].
  destruct (hasAnalysis r); simpl; [reflexivity | exact IH].
Qed.

Lemma plan_of_completed (completed : list ScanResult) :
  (aggregateRemediationPlan completed = None <-> existsb hasAnalysis completed = false)
  /\ forall plan,
       aggregateRemediationPlan completed = Some plan ->
       totalQuickFixes plan = sumZ (map quickOf (List.filter hasAnalysis completed))
       /\ totalMediumFixes plan = sumZ (map mediumOf (List.filter hasAnalysis completed))
       /\ totalComplexFixes plan = sumZ (map complexOf (List.filter hasAnalysis completed))
       /\ estimatedTotalHours plan
          = 4 * totalMediumFixes plan + 16 * totalComplexFixes plan
            + (totalQuickFixes plan + 1) / 2
       /\ (length (topPriority1Issues plan) <= 5)%nat
       /\ (forall issue, issue ∈ topPriority1Issues plan ->
             exists scan, scan ∈ List.filter hasAnalysis completed /\ issue ∈ issuesOf scan).
Proof.
  unfold aggregateRemediationPlan. rewrite no_annotated.
  destruct (planStep_fold (List.filter hasAnalysis completed)
              {| totalQuickFixes := 0; totalMediumFixes := 0; totalComplexFixes := 0;
                 topPriority1Issues := []; estimatedTotalHours := 0 |})
    as (Hq & Hm & Hc & Hi). simpl in Hq, Hm, Hc, Hi.
  remember (fold_left planStep (List.filter hasAnalysis completed)
              {| totalQuickFixes := 0; totalMediumFixes := 0; totalComplexFixes := 0;
                 topPriority1Issues := []; estimatedTotalHours := 0 |}) as folded.
  destruct (existsb hasAnalysis completed); simpl.
  2:{ split; [tauto|]. intros plan H. discriminate H. }
  split; [split; intros H; discriminate H|].
  intros plan [= <-]. simpl.
  split; [exact Hq|]. split; [exact Hm|]. split; [exact Hc|]. split; [|split].
  - unfold JS.round_div.
    generalize (totalQuickFixes folded) as q, (totalMediumFixes folded) as m,
      (totalComplexFixes folded) as c.
    intros q m c.
    pose proof (Z.div_mod (2 * (q + 8 * m + 32 * c) + 2) (2 * 2) ltac:(lia)).
    pose proof (Z.mod_pos_bound (2 * (q + 8 * m + 32 * c) + 2) (2 * 2) ltac:(lia)).
    pose proof (Z.div_mod (q + 1) 2 ltac:(lia)).
    pose proof (Z.mod_pos_bound (q + 1) 2 ltac:(lia)).
    lia.
  - rewrite deduplicateIssues_by_key, length_take. lia.
  - intros issue Hin. rewrite deduplicateIssues_by_key in Hin.
    destruct (dedupByKey_sublist (topPriority1Issues folded) []) as (kept & Hk & Hs).
    rewrite Hk in Hin. simpl in Hin.
    assert (Hall : issue ∈ flat_map issuesOf (List.filter hasAnalysis completed)).
    { rewrite Hi in Hs.
      apply (elem_of_sublist kept _ _); [|exact Hs].
      apply (elem_of_sublist (take 5 kept) _ _ Hin), sublist_take. }
    apply list_elem_of_In, in_flat_map in Hall as (scan & Hscan & Hissue).
    exists scan. split; apply list_elem_of_In; assumption.
Qed.

(** X23: the report carries a remediation plan exactly when some completed
    page is annotated.  The plan's totals are the sums of the annotated
    completed pages' effort figures (absent figures counting 0); its hours
    are 4 per medium fix, 16 per complex fix and half an hour per quick fix
    with the half rounded up; its top issues are at most five and each is a
    priority-1 issue of an annotated completed page. *)
Theorem remediation_plan_totals (scanResults : list ScanResult) :
  let report := aggregateResults scanResults in
  let annotated := List.filter hasAnalysis (List.filter isCompleted scanResults) in
  (remediationPlan_ report = None <-> hasEnhancedAnalysis report = false)
  /\ forall plan,
       remediationPlan_ report = Some plan ->
       totalQuickFixes plan = sumZ (map quickOf annotated)
       /\ totalMediumFixes plan = sumZ (map mediumOf annotated)
       /\ totalComplexFixes plan = sumZ (map complexOf annotated)
       /\ estimatedTotalHours plan
          = 4 * totalMediumFixes plan + 16 * totalComplexFixes plan
            + (totalQuickFixes plan + 1) / 2
       /\ (length (topPriority1Issues plan) <= 5)%nat
       /\ (forall issue, issue ∈ topPriority1Issues plan ->
             exists scan, scan ∈ annotated /\ issue ∈ issuesOf scan).
Proof.
  intros report annotated.
  exact (plan_of_completed (List.filter isCompleted scanResults)).
Qed.

Lemma remediation_plan_totals_witness :
  exists plan,
    remediationPlan_ (aggregateResults [pageWithIssues [issueA]]) = Some plan
    /\ (length (topPriority1Issues plan) <= 5)%nat.
Proof.
  destruct (remediationPlan_ (aggregateResults [pageWithIssues [issueA]])) as [plan|] eqn:E;
    [|vm_compute in E; discriminate].
  exists plan. split; [reflexivity|].
  apply (proj2 (remediation_plan_totals [pageWithIssues [issueA]]) plan E).
Defined.

End PlanFacts.
Section RiskFacts.
Import Action ActionRun AggregationSpec Samples.

Lemma existsb_level (level : string) (levels : list (option string)) :
  existsb (fun l => bool_decide (l = Some level)) levels = true <-> Some level ∈ levels.
Proof.
  rewrite existsb_exists, list_elem_of_In. split.
  - intros (l & Hin & Hl). apply bool_decide_eq_true in Hl. subst l. exact Hin.
  - intros Hin. exists (Some level). split; [exact Hin | apply bool_decide_eq_true; reflexivity].
Qed.

Lemma pageRisk_elem (level : string) (scans : list ScanResult) :
  Some level ∈ map pageRisk scans <-> exists scan, scan ∈ scans /\ pageRisk scan = Some level.
Proof.
  rewrite list_elem_of_In, in_map_iff. split.
  - intros (scan & Hr & Hin). exists scan. split; [apply list_elem_of_In, Hin | exact Hr].
  - intros (scan & Hin & Hr). exists scan. split; [exact Hr | apply list_elem_of_In, Hin].
Qed.

Lemma pagesAtRisk_positive (scans : list ScanResult) :
  0 < pagesAtRisk scans <-> exists scan, scan ∈ scans /\ pageRisk scan = Some "high".
Proof.
  unfold pagesAtRisk. split.
  - intros Hpos.
    destruct (List.filter (fun scan => bool_decide (pageRisk scan = Some "high")) scans)
      as [|scan rest] eqn:E; [simpl in Hpos; lia|].
    assert (Hin : In scan (List.filter (fun scan => bool_decide (pageRisk scan = Some "high"))
                             scans)) by (rewrite E; left; reflexivity).
    apply filter_In in Hin as [Hin Hr]. apply bool_decide_eq_true in Hr.
    exists scan. split; [apply list_elem_of_In, Hin | exact Hr].
  - intros (scan & Hin & Hr).
    assert (Hf : In scan (List.filter (fun scan => bool_decide (pageRisk scan = Some "high"))
                            scans)).
    { apply filter_In. split; [apply list_elem_of_In, Hin | apply bool_decide_eq_true, Hr]. }
    destruct (List.filter _ scans); [contradiction Hf | simpl; lia].
Qed.

(** X24: the risk roll-up exists exactly when some completed page is
    annotated.  The overall risk is [high] exactly when at least one
    annotated page has risk level [high], which is exactly when
    [pagesAtRisk] is positive; it is [low] exactly when no annotated page
    has level [high] or [medium], so a page with any other level, or none,
    counts as low. *)
Theorem riskSummary_levels (completedScans : list ScanResult) :
  let annotated := List.filter hasAnalysis completedScans in
  (riskSummary completedScans = None <-> existsb hasAnalysis completedScans = false)
  /\ forall risk atRisk,
       riskSummary completedScans = Some (risk, atRisk) ->
       (risk = "high" <-> 0 < atRisk)
       /\ (risk = "high" <-> exists scan, scan ∈ annotated /\ pageRisk scan = Some "high")
       /\ (risk = "low" <->
           forall scan, scan ∈ annotated ->
             pageRisk scan <> Some "high" /\ pageRisk scan <> Some "medium")
       /\ 0 <= atRisk <= Z.of_nat (length annotated).
Proof.
  intros annotated. unfold riskSummary. rewrite no_annotated. fold annotated.
  destruct (existsb hasAnalysis completedScans); cbn [negb].
  2:{ split; [tauto|]. intros risk atRisk H. discriminate H. }
  split; [split; intros H; discriminate H|].
  intros risk atRisk [= <- <-].
  pose proof (pagesAtRisk_positive annotated) as Hpos.
  pose proof (existsb_level "high" (map pageRisk annotated)) as Hhigh.
  pose proof (existsb_level "medium" (map pageRisk annotated)) as Hmed.
  rewrite pageRisk_elem in Hhigh, Hmed. unfold overallRisk.
  destruct (existsb (fun l => bool_decide (l = Some "high")) (map pageRisk annotated)) eqn:Eh;
    [|destruct (existsb (fun l => bool_decide (l = Some "medium")) (map pageRisk annotated))
        eqn:Em].
  - destruct Hhigh as [Hhigh _]. specialize (Hhigh eq_refl).
    split; [split; [intros _; apply Hpos, Hhigh | reflexivity]|].
    split; [split; [intros _; exact Hhigh | reflexivity]|].
    split.
    + split; [discriminate|]. intros Hnone. destruct Hhigh as (scan & Hin & Hr).
      destruct (Hnone scan Hin) as [Hn _]. contradiction.
    + unfold pagesAtRisk. pose proof (filter_length_le
        (fun scan => bool_decide (pageRisk scan = Some "high")) annotated). lia.
  - destruct Hmed as [Hmed _]. specialize (Hmed eq_refl).
    assert (Hno : ~ exists scan, scan ∈ annotated /\ pageRisk scan = Some "high").
    { intros H. apply Hhigh in H. discriminate. }
    split; [split; [discriminate | intros H; apply Hpos in H; contradiction]|].
    split; [split; [discriminate | intros H; contradiction]|].
    split.
    + split; [discriminate|]. intros Hnone. destruct Hmed as (scan & Hin & Hr).
      destruct (Hnone scan Hin) as [_ Hn]. contradiction.
    + unfold pagesAtRisk. pose proof (filter_length_le
        (fun scan => bool_decide (pageRisk scan = Some "high")) annotated). lia.
  - assert (Hno : ~ exists scan, scan ∈ annotated /\ pageRisk scan = Some "high").
    { intros H. apply Hhigh in H. discriminate. }
    assert (Hnom : ~ exists scan, scan ∈ annotated /\ pageRisk scan = Some "medium").
    { intros H. apply Hmed in H. discriminate. }
    split; [split; [discriminate | intros H; apply Hpos in H; contradiction]|].
    split; [split; [discriminate | intros H; contradiction]|].
    split.
    + split; [|reflexivity]. intros _ scan Hin. split; intros Hr; [apply Hno | apply Hnom]; eauto.
    + unfold pagesAtRisk. pose proof (filter_length_le
        (fun scan => bool_decide (pageRisk scan = Some "high")) annotated). lia.
Qed.

Lemma riskSummary_levels_witness :
  riskSummary [pageWithRisk (Some "critical")] = Some ("low", 0)
  /\ exists scan,
       scan ∈ List.filter hasAnalysis [pageWithRisk (Some "high")]
       /\ pageRisk scan = Some "high".
Proof.
  split; [reflexivity|].
  apply (proj2 (riskSummary_levels [pageWithRisk (Some "high")]) "high" 1 eq_refl).
  reflexivity.
Defined.

End RiskFacts.

Section ActionDiscoveryFacts.
Import PageDiscovery DiscoverySpec DiscoveryProps.

Lemma normalizePath_comment (rest : string) : normalizePath (String "#" rest) = Some "/".
Proof.
  unfold normalizePath.
  change (String.eqb (String "#" rest) "") with false. cbv iota.
  change (JS.startsWith_slash (String "#" rest)) with false. cbv iota.
  change ("/" +:+ String "#" rest) with (String "/" (String "#" rest)).
  assert (Hne : String.eqb (String "/" (String "#" rest)) "/" = false) by reflexivity.
  rewrite Hne.
  destruct (JS.endsWith_slash (String "/" (String "#" rest))); simpl negb; cbv iota;
    [|reflexivity].
  destruct rest as [|c rest]; reflexivity.
Qed.

Lemma normalizePaths_root_first (paths : list string) :
  "/" ∈ normalizePaths paths -> exists rest, normalizePaths paths = "/" :: rest.
Proof.
  intros Hroot. rewrite normalizePaths_is_sorted_set in *.
  assert (Hhead : head (JS.sort (normalizedSet paths)) = Some "/").
  { apply indexOf_zero_head.
    pose proof (indexOf_elem "/" (JS.sort (normalizedSet paths))) as [_ Hiff].
    apply Hiff in Hroot.
    assert (JS.indexOf "/" (JS.sort (normalizedSet paths)) <= 0); [|lia].
    apply indexOf_least; [apply sort_Sorted|]. intros y Hy.
    apply root_least. rewrite sort_Permutation in Hy.
    apply (normalizedSet_elem paths y Hy). }
  destruct (JS.sort (normalizedSet paths)) as [|p rest]; [discriminate|].
  injection Hhead as ->. eauto.
Qed.

(** X25: in the action, with the strategy [paths]: when the [scan-paths]
    input has no line with anything but white space, discovery throws
    ("No pages discovered"); and a line that starts with '#' is not skipped
    as a comment but normalised to the root page, which then comes first
    among the pages to scan for every page limit of at least 1. *)
Theorem action_paths_strategy (fuel : nat) (config : Config) (site : Site)
    (scanStrategy : string) (maxPages : option Z) (scanPaths : string) :
  toLowerCase scanStrategy = "paths" ->
  (ActionRun.scanPathList scanPaths = [] ->
     ActionRun.discoverPages fuel config site scanStrategy maxPages scanPaths = Throws)
  /\ (forall line rest,
        line ∈ splitLines scanPaths -> trim line = String "#" rest ->
        0 < PageDiscovery.maxPages config ->
        exists pages,
          ActionRun.discoverPages fuel config site scanStrategy maxPages scanPaths
          = Returns ("/" :: pages)).
Proof.
  intros Hs.
  assert (Hrun : ActionRun.discoverPages fuel config site scanStrategy maxPages scanPaths
                 = let pages := limitPages config
                                  (normalizePaths
                                     (List.filter nonEmpty (ActionRun.scanPathList scanPaths))) in
                   if Z.of_nat (length pages) =? 0 then Throws else Returns pages).
  { unfold ActionRun.discoverPages, discoverPages, strategyPages. rewrite Hs. reflexivity. }
  rewrite Hrun. cbv zeta. split.
  - intros ->. change (normalizePaths (List.filter nonEmpty [])) with (@nil string).
    destruct (limitPages_prefix config []) as (n & ->).
    rewrite take_nil. reflexivity.
  - intros line rest Hline Htrim Hmax.
    assert (Hlisted : String "#" rest ∈ List.filter nonEmpty (ActionRun.scanPathList scanPaths)).
    { apply list_elem_of_In, filter_In. split; [|reflexivity].
      unfold ActionRun.scanPathList.
      destruct (nonEmpty scanPaths) eqn:E.
      - apply filter_In. split; [|reflexivity]. apply in_map_iff.
        exists line. split; [exact Htrim | apply list_elem_of_In, Hline].
      - apply negb_false_iff, String.eqb_eq in E. subst scanPaths.
        apply list_elem_of_singleton in Hline. subst line. discriminate. }
    assert (Hroot : "/" ∈ normalizePaths (List.filter nonEmpty (ActionRun.scanPathList scanPaths))).
    { rewrite normalizePaths_is_sorted_set, sort_Permutation.
      apply normalizedSet_spec. exists (String "#" rest).
      split; [exact Hlisted | apply normalizePath_comment]. }
    apply normalizePaths_root_first in Hroot as (others & ->).
    rewrite limitPages_take by lia.
    destruct (Z.to_nat (PageDiscovery.maxPages config)) as [|n] eqn:En; [lia|].
    simpl. eauto.
Qed.

Lemma action_paths_strategy_witness :
  exists pages,
    ActionRun.discoverPages 0 defaultConfig emptySite "paths" (Some 10)
      ("# pages" +:+ String newline "/about")
    = Returns ("/" :: pages).
Proof.
  apply (proj2 (action_paths_strategy 0 defaultConfig emptySite "paths" (Some 10)
                  ("# pages" +:+ String newline "/about") eq_refl)
           "# pages" " pages").
  - apply list_elem_of_here.
  - reflexivity.
  - reflexivity.
Defined.

End ActionDiscoveryFacts.
